(** * S2Loop: a shallow embedding of [s2loop.cc]

    The loop primitive of the S2 spherical-geometry library: a closed chain
    of unit vectors with a lazily built edge index, a lat-lng bound, the
    point-containment test, area and turning angle, the loop relations and
    the two wire formats.

    The value of a double is a primitive binary64 float of Rocq; a double
    stored in a vertex is its eight bytes, so that copies keep the sign and
    payload of a NaN.  Integers of fixed width are [Z] with their
    wrap-around written out, byte buffers are [list byte].
    Code of other translation units (geometric predicates, the edge index,
    the rectangle bounder, the point compression codec) is a method of the
    class [Collaborators]; the code of [s2loop.cc] is defined over it. *)

From Stdlib Require Import ZArith Lia List Bool Floats Permutation.
From Stdlib Require Import Strings.Byte.
Import ListNotations.
Local Open Scope Z_scope.

(* ================================================================= *)
(** ** Doubles and machine integers *)

Definition M_PI : float := 0x1.921fb54442d18p+1%float.
Definition M_PI_2 : float := 0x1.921fb54442d18p+0%float.
Definition DBL_EPSILON : float := 0x1p-52%float.

(** [int] to [double] conversion (exact below 2^53). *)
Definition double_of_int (i : Z) : float :=
  if i <? 0 then PrimFloat.opp (PrimFloat.of_uint63 (Uint63.of_Z (- i)))
  else PrimFloat.of_uint63 (Uint63.of_Z i).

(** [std::max] and [std::min] on doubles. *)
Definition std_max (a b : float) : float := if PrimFloat.ltb a b then b else a.
Definition std_min (a b : float) : float := if PrimFloat.ltb b a then b else a.

(** C++ [>] and [>=] on doubles. *)
Definition double_gt (a b : float) : bool := PrimFloat.ltb b a.
Definition double_ge (a b : float) : bool := PrimFloat.leb b a.

(** Two's complement wrap-around of 32-bit integers. *)
Definition wrap_uint32 (v : Z) : Z := v mod 2 ^ 32.
Definition wrap_int32 (v : Z) : Z := (v + 2 ^ 31) mod 2 ^ 32 - 2 ^ 31.

(* ================================================================= *)
(** ** Bytes and the object representation of doubles *)

Definition byte_of_Z (v : Z) : byte :=
  match Byte.of_N (Z.to_N (v mod 256)) with
  | Some b => b
  | None => x00
  end.
Definition Z_of_byte (b : byte) : Z := Z.of_N (Byte.to_N b).

(** A double in memory: its eight bytes, least significant first.  Copying
    a double ([operator=], [std::copy], [putn], [getn]) copies the bytes;
    arithmetic and comparisons read the value. *)
Record double := mkDouble {
  byte_0 : byte; byte_1 : byte; byte_2 : byte; byte_3 : byte;
  byte_4 : byte; byte_5 : byte; byte_6 : byte; byte_7 : byte
}.

(** The 64-bit word of the eight bytes, and back. *)
Definition double_bits (d : double) : Z :=
  Z_of_byte (byte_0 d) + 256 * (Z_of_byte (byte_1 d) + 256 * (Z_of_byte (byte_2 d)
  + 256 * (Z_of_byte (byte_3 d) + 256 * (Z_of_byte (byte_4 d)
  + 256 * (Z_of_byte (byte_5 d) + 256 * (Z_of_byte (byte_6 d)
  + 256 * Z_of_byte (byte_7 d))))))).

Definition double_of_bits (v : Z) : double :=
  let v1 := v / 256 in let v2 := v1 / 256 in let v3 := v2 / 256 in
  let v4 := v3 / 256 in let v5 := v4 / 256 in let v6 := v5 / 256 in
  let v7 := v6 / 256 in
  mkDouble (byte_of_Z v) (byte_of_Z v1) (byte_of_Z v2) (byte_of_Z v3)
           (byte_of_Z v4) (byte_of_Z v5) (byte_of_Z v6) (byte_of_Z v7).

(** The IEEE 754 binary64 interchange format: the value of a 64-bit word
    (every word with exponent field 2047 and a fraction that is not zero is
    a NaN), and the word of a value.  The word of a value is used for the
    constants of the program only; for a NaN it is the default quiet NaN. *)
Definition sign_bit (s : bool) : Z := if s then 2 ^ 63 else 0.

Definition binary64_value (b : Z) : float :=
  let s := 2 ^ 63 <=? b in
  let E := (b / 2 ^ 52) mod 2048 in
  let M := b mod 2 ^ 52 in
  SF2Prim
    (if E =? 0 then
       if M =? 0 then S754_zero s else S754_finite s (Z.to_pos M) (-1074)
     else if E =? 2047 then
       if M =? 0 then S754_infinity s else S754_nan
     else S754_finite s (Z.to_pos (M + 2 ^ 52)) (E - 1075)).

Definition binary64_bits (f : float) : Z :=
  match Prim2SF f with
  | S754_zero s => sign_bit s
  | S754_infinity s => sign_bit s + 2047 * 2 ^ 52
  | S754_nan => 2047 * 2 ^ 52 + 2 ^ 51
  | S754_finite s m e =>
      if Z.pos m <? 2 ^ 52 then sign_bit s + Z.pos m
      else sign_bit s + (e + 1075) * 2 ^ 52 + (Z.pos m - 2 ^ 52)
  end.

(** Reading a stored double, and storing a constant. *)
Definition double_value (d : double) : float := binary64_value (double_bits d).
Definition double_store (f : float) : double := double_of_bits (binary64_bits f).

(* ================================================================= *)
(** ** Points *)

(** Modelled from the spec: vertices are 3-vectors of doubles (the template
    [Vector3<double>] is declared outside this file): three stored doubles,
    read by [x()], [y()], [z()] and built from three values by the
    constructor. *)
Record S2Point := mkVector3 { c_0 : double; c_1 : double; c_2 : double }.

Definition pt_x (p : S2Point) : float := double_value (c_0 p).
Definition pt_y (p : S2Point) : float := double_value (c_1 p).
Definition pt_z (p : S2Point) : float := double_value (c_2 p).

Definition mkS2Point (x y z : float) : S2Point :=
  mkVector3 (double_store x) (double_store y) (double_store z).

(** Modelled from the spec: [operator==] compares the three coordinates and
    [operator<] is the lexicographic comparison that selects the
    "lexicographically smallest vertex". *)
Definition S2Point_eqb (a b : S2Point) : bool :=
  PrimFloat.eqb (pt_x a) (pt_x b) && PrimFloat.eqb (pt_y a) (pt_y b)
  && PrimFloat.eqb (pt_z a) (pt_z b).

Definition S2Point_ltb (a b : S2Point) : bool :=
  if PrimFloat.ltb (pt_x a) (pt_x b) then true
  else if PrimFloat.ltb (pt_x b) (pt_x a) then false
  else if PrimFloat.ltb (pt_y a) (pt_y b) then true
  else if PrimFloat.ltb (pt_y b) (pt_y a) then false
  else PrimFloat.ltb (pt_z a) (pt_z b).

(** Modelled from the spec: "[empty_vertex] and [full_vertex] are two fixed,
    distinguishable unit vectors", the empty one with z >= 0 and the full one
    with z < 0 (the constants are declared in the header s2loop.h). *)
Definition kEmptyVertex : S2Point := mkS2Point 0 0 1.
Definition kFullVertex : S2Point := mkS2Point 0 0 (-1).

(* ================================================================= *)
(** ** Intervals and the lat-lng rectangle *)

Record R1Interval := mkR1Interval { r1_lo : float; r1_hi : float }.
Record S1Interval := mkS1Interval { s1_lo : float; s1_hi : float }.
Record S2LatLngRect := mkS2LatLngRect { lat : R1Interval; lng : S1Interval }.

(** Modelled from the spec: the full rectangle has latitudes -pi/2..pi/2 and
    the full longitude circle, the empty rectangle is the canonical empty
    one (classes r1interval.h, s1interval.h, s2latlngrect.h). *)
Definition S1Interval_Full : S1Interval := mkS1Interval (- M_PI) M_PI.
Definition S1Interval_Empty : S1Interval := mkS1Interval M_PI (- M_PI).
Definition S1Interval_is_full (i : S1Interval) : bool :=
  PrimFloat.eqb (s1_hi i - s1_lo i) (2 * M_PI).
Definition S2LatLngRect_Full : S2LatLngRect :=
  mkS2LatLngRect (mkR1Interval (- M_PI_2) M_PI_2) S1Interval_Full.
Definition S2LatLngRect_Empty : S2LatLngRect :=
  mkS2LatLngRect (mkR1Interval 1 0) S1Interval_Empty.

(** The test of [Invert] on the bound: its latitudes stay clear of both
    poles, [lat().lo() > -M_PI_2 && lat().hi() < M_PI_2]. *)
Definition clear_of_poles (b : S2LatLngRect) : bool :=
  double_gt (r1_lo (lat b)) (- M_PI_2) && PrimFloat.ltb (r1_hi (lat b)) M_PI_2.

(** [b.mutable_lat()->set_lo(v)] *)
Definition set_lat_lo (b : S2LatLngRect) (v : float) : S2LatLngRect :=
  mkS2LatLngRect (mkR1Interval v (r1_hi (lat b))) (lng b).

(* ================================================================= *)
(** ** The edge index, as far as the loop observes it *)

(** Modelled from the spec: EdgeIndex "with add, reset, force_apply_updates,
    num_shape_ids, is_fresh"; it "lazily builds on first iterator creation".
    A reset index has no shapes and is fresh; adding a shape makes it stale
    until the updates are applied. *)
Record S2ShapeIndex := mkS2ShapeIndex { num_shape_ids : Z; is_fresh : bool }.

Definition S2ShapeIndex_Reset (_ : S2ShapeIndex) : S2ShapeIndex :=
  mkS2ShapeIndex 0 true.
Definition S2ShapeIndex_Add (ix : S2ShapeIndex) : S2ShapeIndex :=
  mkS2ShapeIndex (num_shape_ids ix + 1) false.
Definition S2ShapeIndex_ForceApplyUpdates (ix : S2ShapeIndex) : S2ShapeIndex :=
  mkS2ShapeIndex (num_shape_ids ix) true.
(** Constructing an [S2ShapeIndex::Iterator] applies the pending updates. *)
Definition S2ShapeIndex_Iterator (ix : S2ShapeIndex) : S2ShapeIndex :=
  mkS2ShapeIndex (num_shape_ids ix) true.

(** The clipped shape of an index cell: the "center inside" bit and the
    indices of the loop edges that meet the cell. *)
Record S2ClippedShape :=
  mkS2ClippedShape { contains_center : bool; clipped_edges : list Z }.
(** What an iterator positioned at a cell exposes: [it.center()] and
    [it.cell()->clipped(0)]. *)
Record IndexCell :=
  mkIndexCell { cell_center : S2Point; clipped : S2ClippedShape }.

(* ================================================================= *)
(** ** The loop *)

Inductive S2debugOverride := ALLOW_S2DEBUG | DISABLE_S2DEBUG.

Record S2Loop := mkS2Loop {
  depth_ : Z;
  vertices_ : list S2Point;
  owns_vertices_ : bool;
  s2debug_override_ : S2debugOverride;
  origin_inside_ : bool;
  unindexed_contains_calls_ : Z;
  bound_ : S2LatLngRect;
  subregion_bound_ : S2LatLngRect;
  index_ : S2ShapeIndex
}.

Definition set_vertices (l : S2Loop) (vs : list S2Point) (owns : bool) : S2Loop :=
  mkS2Loop (depth_ l) vs owns (s2debug_override_ l) (origin_inside_ l)
    (unindexed_contains_calls_ l) (bound_ l) (subregion_bound_ l) (index_ l).
Definition set_origin_inside (l : S2Loop) (b : bool) : S2Loop :=
  mkS2Loop (depth_ l) (vertices_ l) (owns_vertices_ l) (s2debug_override_ l) b
    (unindexed_contains_calls_ l) (bound_ l) (subregion_bound_ l) (index_ l).
Definition set_depth (l : S2Loop) (d : Z) : S2Loop :=
  mkS2Loop d (vertices_ l) (owns_vertices_ l) (s2debug_override_ l)
    (origin_inside_ l) (unindexed_contains_calls_ l) (bound_ l)
    (subregion_bound_ l) (index_ l).
Definition set_calls (l : S2Loop) (c : Z) : S2Loop :=
  mkS2Loop (depth_ l) (vertices_ l) (owns_vertices_ l) (s2debug_override_ l)
    (origin_inside_ l) c (bound_ l) (subregion_bound_ l) (index_ l).
Definition set_bound (l : S2Loop) (b : S2LatLngRect) : S2Loop :=
  mkS2Loop (depth_ l) (vertices_ l) (owns_vertices_ l) (s2debug_override_ l)
    (origin_inside_ l) (unindexed_contains_calls_ l) b (subregion_bound_ l)
    (index_ l).
Definition set_subregion_bound (l : S2Loop) (b : S2LatLngRect) : S2Loop :=
  mkS2Loop (depth_ l) (vertices_ l) (owns_vertices_ l) (s2debug_override_ l)
    (origin_inside_ l) (unindexed_contains_calls_ l) (bound_ l) b (index_ l).
Definition set_index (l : S2Loop) (ix : S2ShapeIndex) : S2Loop :=
  mkS2Loop (depth_ l) (vertices_ l) (owns_vertices_ l) (s2debug_override_ l)
    (origin_inside_ l) (unindexed_contains_calls_ l) (bound_ l)
    (subregion_bound_ l) ix.

Definition num_vertices (l : S2Loop) : Z := Z.of_nat (length (vertices_ l)).

(** Modelled from the spec: "[vertex(i)] is defined for [i] in [0, 2n-1] as
    [vertices[i mod n]]" (the accessor is declared in s2loop.h).  Outside
    that range the accessor is out of contract; the model yields the null
    vector there. *)
Definition no_vertex : S2Point := mkS2Point 0 0 0.
Definition vertex (l : S2Loop) (i : Z) : S2Point :=
  if (0 <=? i) && (i <? 2 * num_vertices l)
  then nth (Z.to_nat (i mod num_vertices l)) (vertices_ l) no_vertex
  else no_vertex.

(** Modelled from the spec: a one-vertex loop is the empty or the full
    sentinel, and "empty => origin_inside = false; full => origin_inside =
    true" (the predicates are declared in s2loop.h). *)
Definition contains_origin (l : S2Loop) : bool := origin_inside_ l.
Definition is_empty_or_full (l : S2Loop) : bool := num_vertices l =? 1.
Definition is_empty (l : S2Loop) : bool :=
  is_empty_or_full l && negb (contains_origin l).
Definition is_full (l : S2Loop) : bool :=
  is_empty_or_full l && contains_origin l.

(** Integer ranges [lo, lo+1, ..., lo+len-1] for the counted loops. *)
Definition Zrange (lo : Z) (len : nat) : list Z :=
  map (fun k => lo + Z.of_nat k) (seq 0 len).

(* ================================================================= *)
(** ** Collaborating modules and command-line flags *)

(** What the loop consumes from other translation units.  The edge index is
    built from the loop's shape, that is from its edges and its
    [contains_origin] bit, so a lookup is a function of those. *)
Class Collaborators := {
  (** [S2::Origin()], [S2::Ortho], [S2::OrderedCCW], [S2::TurnAngle],
      [S2::IsUnitLength] *)
  S2_Origin : S2Point;
  S2_Ortho : S2Point -> S2Point;
  S2_OrderedCCW : S2Point -> S2Point -> S2Point -> S2Point -> bool;
  S2_TurnAngle : S2Point -> S2Point -> S2Point -> float;
  S2_IsUnitLength : S2Point -> bool;
  (** An [EdgeCrosser] for the edge [a b] positioned at [c]:
      [EdgeOrVertexCrossing(d)] tests the edge [c d] and moves to [d]. *)
  EdgeOrVertexCrossing : S2Point -> S2Point -> S2Point -> S2Point -> bool;
  (** [S2LatLngRect::Contains(S2Point)], [Intersects],
      [S1Interval::GetLength] *)
  S2LatLngRect_Contains : S2LatLngRect -> S2Point -> bool;
  S2LatLngRect_Intersects : S2LatLngRect -> S2LatLngRect -> bool;
  S1Interval_GetLength : S1Interval -> float;
  (** [S2EdgeUtil::RectBounder] *)
  RectBounder : Type;
  RectBounder_new : RectBounder;
  RectBounder_AddPoint : RectBounder -> S2Point -> RectBounder;
  RectBounder_GetBound : RectBounder -> S2LatLngRect;
  RectBounder_ExpandForSubregions : S2LatLngRect -> S2LatLngRect;
  (** [GetSurfaceIntegral(S2::SignedArea)], a template of s2loop.h *)
  GetSurfaceIntegral_SignedArea : list S2Point -> float;
  (** [S2ShapeIndex::Iterator::Locate(S2Point)] on the built index *)
  S2ShapeIndex_Locate : list S2Point -> bool -> S2Point -> option IndexCell;
  (** [s2shapeutil::FindSelfIntersection] on the index of the loop: whether
      it reports an error *)
  s2shapeutil_FindSelfIntersection : list S2Point -> bool -> bool;
  (** Modelled from the spec: "depth: nesting level used by enclosing
      polygon; opaque to core"; [is_hole] reads it (declared in s2loop.h). *)
  depth_is_hole : Z -> bool
}.

(** The two flags this file defines, and [FLAGS_s2debug], which it reads. *)
Class Flags := {
  FLAGS_s2loop_lazy_indexing : bool;
  FLAGS_s2polygon_decode_max_num_vertices : Z;
  FLAGS_s2debug : bool
}.

(** The values the flags are defined with; [FLAGS_s2debug] "is false in
    optimized builds (by default)". *)
Definition default_flags : Flags :=
  {| FLAGS_s2loop_lazy_indexing := true;
     FLAGS_s2polygon_decode_max_num_vertices := 50000000;
     FLAGS_s2debug := false |}.

(** The same with debugging switched on, as in a debug build. *)
Definition debug_flags : Flags :=
  {| FLAGS_s2loop_lazy_indexing := true;
     FLAGS_s2polygon_decode_max_num_vertices := 50000000;
     FLAGS_s2debug := true |}.

(** The errors that [FindValidationErrorNoIndex] reports through
    [S2Error::Init]: the error code, with the vertex or edge number that the
    message is formatted with. *)
Inductive S2Error :=
| NOT_UNIT_LENGTH (i : Z)
| LOOP_NOT_ENOUGH_VERTICES
| DUPLICATE_VERTICES (i : Z).

Definition S2debugOverride_eqb (a b : S2debugOverride) : bool :=
  match a, b with
  | ALLOW_S2DEBUG, ALLOW_S2DEBUG => true
  | DISABLE_S2DEBUG, DISABLE_S2DEBUG => true
  | _, _ => false
  end.

Section Loop.
Context {collab : Collaborators} {flags : Flags}.

Definition is_hole (l : S2Loop) : bool := depth_is_hole (depth_ l).

(** [S2Loop::ResetMutableFields] *)
Definition ResetMutableFields (l : S2Loop) : S2Loop :=
  set_index (set_calls l 0) (S2ShapeIndex_Reset (index_ l)).

(** [S2Loop::FindValidationErrorNoIndex]: [None] is "no error found".  The
    [DCHECK] on the two bounds is a debug-mode assertion. *)
Definition FindValidationErrorNoIndex (l : S2Loop) : option S2Error :=
  match find (fun i => negb (S2_IsUnitLength (vertex l i)))
             (Zrange 0 (length (vertices_ l))) with
  | Some i => Some (NOT_UNIT_LENGTH i)
  | None =>
      if num_vertices l <? 3 then
        if is_empty_or_full l then None else Some LOOP_NOT_ENOUGH_VERTICES
      else
        match find (fun i => S2Point_eqb (vertex l i) (vertex l (i + 1)))
                   (Zrange 0 (length (vertices_ l))) with
        | Some i => Some (DUPLICATE_VERTICES i)
        | None => None
        end
  end.

(** [S2Loop::FindValidationError]: whether an error is found, and the loop
    afterwards.  [FindSelfIntersection] is called only when the first test
    finds nothing; it iterates over the cells of [index_], which builds the
    index. *)
Definition FindValidationError (l : S2Loop) : bool * S2Loop :=
  match FindValidationErrorNoIndex l with
  | Some _ => (true, l)
  | None =>
      (s2shapeutil_FindSelfIntersection (vertices_ l) (origin_inside_ l),
       set_index l (S2ShapeIndex_Iterator (index_ l)))
  end.

(** [S2Loop::IsValid]; the error is logged, not returned. *)
Definition IsValid (l : S2Loop) : bool * S2Loop :=
  let '(error, l) := FindValidationError l in
  if error then (false, l) else (true, l).

(** [S2Loop::InitIndex].  [None] is the failure of [CHECK(IsValid())], which
    aborts the process. *)
Definition InitIndex (l : S2Loop) : option S2Loop :=
  let l := set_index l (S2ShapeIndex_Add (index_ l)) in
  let l := if negb FLAGS_s2loop_lazy_indexing
           then set_index l (S2ShapeIndex_ForceApplyUpdates (index_ l))
           else l in
  if FLAGS_s2debug && S2debugOverride_eqb (s2debug_override_ l) ALLOW_S2DEBUG
  then
    let '(valid, l) := IsValid l in
    if valid then Some l else None
  else Some l.

(** The loop that [InitIndex] returns when it does not validate, and when
    it validates with success. *)
Definition index_added (l : S2Loop) : S2Loop :=
  set_index l (mkS2ShapeIndex (num_shape_ids (index_ l) + 1)
                              (negb FLAGS_s2loop_lazy_indexing)).
Definition index_built (l : S2Loop) : S2Loop :=
  set_index l (mkS2ShapeIndex (num_shape_ids (index_ l) + 1) true).

(** Whether [InitIndex] validates the loop, and whether a loop with these
    vertices passes. *)
Definition validates (l : S2Loop) : bool :=
  FLAGS_s2debug && S2debugOverride_eqb (s2debug_override_ l) ALLOW_S2DEBUG.
Definition passes_validation (l : S2Loop) : bool :=
  negb (fst (FindValidationError l)).

(* ----------------------------------------------------------------- *)
(** *** Point containment *)

(** [S2Loop::BruteForceContains] *)
Definition BruteForceContains (l : S2Loop) (p : S2Point) : bool :=
  if num_vertices l <? 3 then origin_inside_ l
  else
    let origin := S2_Origin in
    snd (fold_left
           (fun (st : S2Point * bool) i =>
              (vertex l i,
               xorb (snd st)
                    (EdgeOrVertexCrossing origin p (fst st) (vertex l i))))
           (Zrange 1 (length (vertices_ l)))
           (vertex l 0, origin_inside_ l)).

(** [S2Loop::Contains(S2ShapeIndex::Iterator const&, S2Point const&)] *)
Definition Contains_it (l : S2Loop) (it : IndexCell) (p : S2Point) : bool :=
  let a_clipped := clipped it in
  let inside := contains_center a_clipped in
  let a_num_clipped := Z.of_nat (length (clipped_edges a_clipped)) in
  if 0 <? a_num_clipped then
    let center := cell_center it in
    snd (fold_left
           (fun (st : S2Point * Z * bool) ai =>
              let '(c, ai_prev, inside) := st in
              let c := if negb (ai =? ai_prev + 1) then vertex l ai else c in
              (vertex l (ai + 1), ai,
               xorb inside
                    (EdgeOrVertexCrossing center p c (vertex l (ai + 1)))))
           (clipped_edges a_clipped)
           (no_vertex, -2, inside))
  else inside.

Definition kMaxBruteForceVertices : Z := 32.
Definition kMaxUnindexedContainsCalls : Z := 20.

(** [base::subtle::Barrier_AtomicIncrement] on an [Atomic32]: the new value. *)
Definition Barrier_AtomicIncrement (v inc : Z) : Z := wrap_int32 (v + inc).

(** Which of its three exits a call of [Contains(S2Point)] took.  The exit
    is not a value of the C++ function; it is recorded to state which code
    ran. *)
Inductive ContainsPath := BoundReject | BruteForce | IndexLookup.

(** The answer of [Contains(S2Point)], the exit taken, and the loop
    afterwards ([unindexed_contains_calls_] and [index_] are mutable). *)
Record ContainsResult := mkContainsResult {
  answer : bool;
  path : ContainsPath;
  after : S2Loop
}.

Definition Contains_brute (l : S2Loop) (p : S2Point) : ContainsResult :=
  mkContainsResult (BruteForceContains l p) BruteForce l.

Definition Contains_indexed (l : S2Loop) (p : S2Point) : ContainsResult :=
  let l' := set_index l (S2ShapeIndex_Iterator (index_ l)) in
  match S2ShapeIndex_Locate (vertices_ l) (origin_inside_ l) p with
  | None => mkContainsResult false IndexLookup l'
  | Some it => mkContainsResult (Contains_it l it p) IndexLookup l'
  end.

(** [S2Loop::Contains(S2Point const&)], with the short-circuit evaluation
    of its conditions written out. *)
Definition Contains (l : S2Loop) (p : S2Point) : ContainsResult :=
  if negb (is_fresh (index_ l)) && negb (S2LatLngRect_Contains (bound_ l) p)
  then mkContainsResult false BoundReject l
  else if num_shape_ids (index_ l) =? 0 then Contains_brute l p
  else if num_vertices l <=? kMaxBruteForceVertices then Contains_brute l p
  else if negb (is_fresh (index_ l)) then
    let c := Barrier_AtomicIncrement (unindexed_contains_calls_ l) 1 in
    let l' := set_calls l c in
    if negb (c =? kMaxUnindexedContainsCalls) then Contains_brute l' p
    else Contains_indexed l' p
  else Contains_indexed l p.

(** [Contains(S2Point)] up to its choice of method: the exit the call is
    going to take, and the loop as other threads see it while the call
    runs, with the counter incremented and the index not yet built. *)
Definition Contains_choice (l : S2Loop) (p : S2Point) : ContainsPath * S2Loop :=
  if negb (is_fresh (index_ l)) && negb (S2LatLngRect_Contains (bound_ l) p)
  then (BoundReject, l)
  else if num_shape_ids (index_ l) =? 0 then (BruteForce, l)
  else if num_vertices l <=? kMaxBruteForceVertices then (BruteForce, l)
  else if negb (is_fresh (index_ l)) then
    let c := Barrier_AtomicIncrement (unindexed_contains_calls_ l) 1 in
    let l' := set_calls l c in
    if negb (c =? kMaxUnindexedContainsCalls) then (BruteForce, l')
    else (IndexLookup, l')
  else (IndexLookup, l).

(* ----------------------------------------------------------------- *)
(** *** Bounds *)

(** [S2Loop::InitBound] *)
Definition InitBound (l : S2Loop) : S2Loop :=
  if is_empty_or_full l then
    if is_empty l
    then set_subregion_bound (set_bound l S2LatLngRect_Empty) S2LatLngRect_Empty
    else set_subregion_bound (set_bound l S2LatLngRect_Full) S2LatLngRect_Full
  else
    let bounder :=
      fold_left (fun b i => RectBounder_AddPoint b (vertex l i))
                (Zrange 0 (S (length (vertices_ l)))) RectBounder_new in
    let b := RectBounder_GetBound bounder in
    let north := Contains l (mkS2Point 0 0 1) in
    let b := if answer north
             then mkS2LatLngRect (mkR1Interval (r1_lo (lat b)) M_PI_2)
                                 S1Interval_Full
             else b in
    let l := after north in
    let '(b, l) :=
      if S1Interval_is_full (lng b) then
        let south := Contains l (mkS2Point 0 0 (-1)) in
        (if answer south then set_lat_lo b (- M_PI_2) else b, after south)
      else (b, l) in
    set_subregion_bound (set_bound l b) (RectBounder_ExpandForSubregions b).

(** [S2Loop::InitOriginAndBound]; [None] when [InitIndex] aborts. *)
Definition InitOriginAndBound (l : S2Loop) : option S2Loop :=
  if num_vertices l <? 3 then
    if negb (is_empty_or_full l) then Some (set_origin_inside l false)
    else
      let l := set_origin_inside l (PrimFloat.ltb (pt_z (vertex l 0)) 0) in
      InitIndex (InitBound l)
  else
    let l := set_origin_inside l false in
    let v1_inside :=
      S2_OrderedCCW (S2_Ortho (vertex l 1)) (vertex l 0) (vertex l 2) (vertex l 1) in
    let v1 := Contains l (vertex l 1) in
    let l := after v1 in
    let l := if negb (Bool.eqb v1_inside (answer v1))
             then set_origin_inside l true else l in
    InitIndex (InitBound l).

(** [S2Loop::Init] *)
Definition Init (l : S2Loop) (vertices : list S2Point) : option S2Loop :=
  let l := ResetMutableFields l in
  InitOriginAndBound (set_vertices l vertices true).

(** [S2Loop::Invert].  [None] is the failure of [CHECK(owns_vertices_)], or
    of the check in [InitIndex]. *)
Definition Invert (l : S2Loop) : option S2Loop :=
  if negb (owns_vertices_ l) then None
  else
    let l := ResetMutableFields l in
    let l :=
      if is_empty_or_full l then
        let v := if is_full l then kEmptyVertex else kFullVertex in
        set_vertices l (v :: tl (vertices_ l)) (owns_vertices_ l)
      else set_vertices l (rev (vertices_ l)) (owns_vertices_ l) in
    let l := set_origin_inside l (xorb (origin_inside_ l) true) in
    let l :=
      if clear_of_poles (bound_ l) then set_subregion_bound (set_bound l S2LatLngRect_Full) S2LatLngRect_Full
      else InitBound l in
    InitIndex l.


(* ----------------------------------------------------------------- *)
(** *** Vertex search *)

(** The search of [FindVertex] through the clipped edges of a cell, from
    the last edge down to the first. *)
Fixpoint FindVertex_edges (l : S2Loop) (p : S2Point) (edges : list Z) : Z :=
  match edges with
  | [] => -1
  | ai :: rest =>
      if S2Point_eqb (vertex l ai) p
      then (if ai =? 0 then num_vertices l else ai)
      else if S2Point_eqb (vertex l (ai + 1)) p then ai + 1
      else FindVertex_edges l p rest
  end.

(** [S2Loop::FindVertex] *)
Definition FindVertex (l : S2Loop) (p : S2Point) : Z :=
  if num_vertices l <? 10 then
    match find (fun i => S2Point_eqb (vertex l i) p)
               (Zrange 1 (length (vertices_ l))) with
    | Some i => i
    | None => -1
    end
  else
    match S2ShapeIndex_Locate (vertices_ l) (origin_inside_ l) p with
    | None => -1
    | Some it => FindVertex_edges l p (rev (clipped_edges (clipped it)))
    end.

(* ----------------------------------------------------------------- *)
(** *** Turning angle and area *)

(** [S2Loop::GetCanonicalFirstVertex]: the pair [(first, dir)]. *)
Definition GetCanonicalFirstVertex (l : S2Loop) : Z * Z :=
  let n := num_vertices l in
  let first :=
    fold_left (fun first i =>
                 if S2Point_ltb (vertex l i) (vertex l first) then i else first)
              (Zrange 1 (length (vertices_ l) - 1)) 0 in
  if S2Point_ltb (vertex l (first + 1)) (vertex l (first + n - 1))
  then (first, 1)
  else (first + n, -1).

(** One round of the Kahan summation loop of [GetTurningAngle]; the state
    is [(i, sum, compensation)]. *)
Definition TurningAngle_step (l : S2Loop) (dir : Z) (st : Z * float * float)
  : Z * float * float :=
  let '(i, sum, compensation) := st in
  let i := i + dir in
  let angle := S2_TurnAngle (vertex l (i - dir)) (vertex l i) (vertex l (i + dir)) in
  let old_sum := sum in
  let angle := (angle + compensation)%float in
  let sum := (sum + angle)%float in
  let compensation := ((old_sum - sum) + angle)%float in
  (i, sum, compensation).

(** [S2Loop::GetTurningAngle] *)
Definition GetTurningAngle (l : S2Loop) : float :=
  if is_empty_or_full l then
    if contains_origin l then (-2 * M_PI)%float else (2 * M_PI)%float
  else if num_vertices l <? 3 then 0%float
  else
    let n := num_vertices l in
    let '(i, dir) := GetCanonicalFirstVertex l in
    let sum := S2_TurnAngle (vertex l (Z.rem (i + n - dir) n)) (vertex l i)
                            (vertex l (Z.rem (i + dir) n)) in
    let '(_, sum, compensation) :=
      Nat.iter (Z.to_nat (n - 1)) (TurningAngle_step l dir) (i, sum, 0%float) in
    (double_of_int dir * (sum + compensation))%float.

(** [S2Loop::GetTurningAngleMaxError]; the literal 9.73 is the double
    0x1.375c28f5c28f6p+3. *)
Definition kMaxErrorPerVertex : float :=
  (0x1.375c28f5c28f6p+3 * DBL_EPSILON)%float.
Definition GetTurningAngleMaxError (l : S2Loop) : float :=
  (kMaxErrorPerVertex * double_of_int (num_vertices l))%float.

(** [S2Loop::IsNormalized] *)
Definition IsNormalized (l : S2Loop) : bool :=
  if PrimFloat.ltb (S1Interval_GetLength (lng (bound_ l))) M_PI then true
  else double_ge (GetTurningAngle l) (- GetTurningAngleMaxError l)%float.

(** [S2Loop::GetArea] *)
Definition GetArea (l : S2Loop) : float :=
  if is_empty_or_full l then
    if contains_origin l then (4 * M_PI)%float else 0%float
  else
    let area := GetSurfaceIntegral_SignedArea (vertices_ l) in
    let max_error := GetTurningAngleMaxError l in
    let area := if PrimFloat.ltb area 0 then (area + 4 * M_PI)%float else area in
    let area := std_max 0 (std_min (4 * M_PI) area) in
    if PrimFloat.ltb area max_error && negb (IsNormalized l) then (4 * M_PI)%float
    else if double_gt area (4 * M_PI - max_error) && IsNormalized l then 0%float
    else area.

End Loop.

(* ================================================================= *)
(** ** Loop relations *)

(** The abstract class [LoopRelation]; [St] is the private state of the
    relation object, which [WedgesCross] may update. *)
Record LoopRelation (St : Type) := mkLoopRelation {
  a_crossing_target : Z;
  b_crossing_target : Z;
  WedgesCross :
    St -> S2Point -> S2Point -> S2Point -> S2Point -> S2Point -> bool * St
}.
Arguments a_crossing_target {St}.
Arguments b_crossing_target {St}.
Arguments WedgesCross {St}.

(** The members of [CompareBoundaryRelation]. *)
Record CompareBoundaryState := mkCompareBoundaryState {
  reverse_b_ : bool;
  found_shared_vertex_ : bool;
  contains_edge_ : bool;
  excludes_edge_ : bool
}.

Section Relations.
Context {collab : Collaborators}.

(** [WedgeContainsSemiwedge] *)
Definition WedgeContainsSemiwedge (a0 ab1 a2 b2 : S2Point) (reverse_b : bool)
  : bool :=
  if S2Point_eqb b2 a0 || S2Point_eqb b2 a2
  then Bool.eqb (S2Point_eqb b2 a0) reverse_b
  else S2_OrderedCCW a0 a2 b2 ab1.

(** [CompareBoundaryRelation]: constructor, accessors and [WedgesCross]. *)
Definition CompareBoundaryRelation_new (reverse_b : bool) : CompareBoundaryState :=
  mkCompareBoundaryState reverse_b false false false.

Definition CompareBoundaryRelation_WedgesCross (st : CompareBoundaryState)
    (a0 ab1 a2 b0 b2 : S2Point) : bool * CompareBoundaryState :=
  let st := mkCompareBoundaryState (reverse_b_ st) true (contains_edge_ st)
                                   (excludes_edge_ st) in
  let st :=
    if WedgeContainsSemiwedge a0 ab1 a2 b2 (reverse_b_ st)
    then mkCompareBoundaryState (reverse_b_ st) (found_shared_vertex_ st) true
                                (excludes_edge_ st)
    else mkCompareBoundaryState (reverse_b_ st) (found_shared_vertex_ st)
                                (contains_edge_ st) true in
  (contains_edge_ st && excludes_edge_ st, st).

Definition CompareBoundaryRelation : LoopRelation CompareBoundaryState :=
  mkLoopRelation CompareBoundaryState (-1) (-1)
                 CompareBoundaryRelation_WedgesCross.

End Relations.

(* ================================================================= *)
(** ** Encoder and Decoder *)

Definition Encoder := list byte.
Definition Decoder := list byte.

(** Modelled from the spec: the fixed-width fields of the wire format are
    little-endian ("Endianness is little-endian for the lossless form");
    [Encoder] and [Decoder] are classes of util/coding/coder.h.  A read
    past the end of the buffer is out of contract and yields zero bytes;
    the decoders check [avail] first. *)
Fixpoint put_le (width : nat) (v : Z) : list byte :=
  match width with
  | O => []
  | S k => byte_of_Z v :: put_le k (v / 256)
  end.

Fixpoint get_le (width : nat) (d : Decoder) : Z * Decoder :=
  match width with
  | O => (0, d)
  | S k =>
      match d with
      | [] => (0, [])
      | b :: r => let '(v, r') := get_le k r in (Z_of_byte b + 256 * v, r')
      end
  end.

Definition avail (d : Decoder) : Z := Z.of_nat (length d).
Definition put8 (e : Encoder) (v : Z) : Encoder := e ++ put_le 1 v.
Definition put32 (e : Encoder) (v : Z) : Encoder := e ++ put_le 4 v.
Definition put64 (e : Encoder) (v : Z) : Encoder := e ++ put_le 8 v.
Definition get8 (d : Decoder) : Z * Decoder := get_le 1 d.
Definition get32 (d : Decoder) : Z * Decoder := get_le 4 d.
Definition get64 (d : Decoder) : Z * Decoder := get_le 8 d.


Fixpoint get_varint (fuel : nat) (d : Decoder) : option (Z * Decoder) :=
  match fuel, d with
  | O, _ => None
  | _, [] => None
  | S k, b :: r =>
      let v := Z_of_byte b in
      match k with
      | O => if v <? 16 then Some (v, r) else None
      | S _ =>
          if v <? 128 then Some (v, r)
          else match get_varint k r with
               | Some (hi, r') => Some (v - 128 + 128 * hi, r')
               | None => None
               end
      end
  end.
Definition get_varint32 (d : Decoder) : option (Z * Decoder) :=
  get_varint 5 d.

(** [putn] and [getn] on one double: its eight bytes. *)
Definition put_double (e : Encoder) (d : double) : Encoder :=
  put64 e (double_bits d).
Definition get_double (d : Decoder) : double * Decoder :=
  let '(v, r) := get64 d in (double_of_bits v, r).

(** [sizeof(S2Point)] and [putn]/[getn] on an array of points. *)
Definition sizeof_S2Point : Z := 24.

Definition put_S2Point (e : Encoder) (p : S2Point) : Encoder :=
  put_double (put_double (put_double e (c_0 p)) (c_1 p)) (c_2 p).
Definition putn_S2Points (e : Encoder) (vs : list S2Point) : Encoder :=
  fold_left put_S2Point vs e.

Definition get_S2Point (d : Decoder) : S2Point * Decoder :=
  let '(x, d) := get_double d in
  let '(y, d) := get_double d in
  let '(z, d) := get_double d in
  (mkVector3 x y z, d).
Fixpoint getn_S2Points (n : nat) (d : Decoder) : list S2Point * Decoder :=
  match n with
  | O => ([], d)
  | S k =>
      let '(p, d) := get_S2Point d in
      let '(ps, d) := getn_S2Points k d in
      (p :: ps, d)
  end.

(* ================================================================= *)
(** ** The wire formats *)

Record S2XYZFaceSiTi := mkS2XYZFaceSiTi {
  xyz : S2Point;
  face : Z;
  si : Z;
  ti : Z;
  cell_level : Z
}.

(** The codecs of other translation units.  An encoder appends to the
    buffer, so it is modelled by the bytes it appends.  A decoder that fails
    may have consumed input and written part of its output, so the decoders
    return their output and the read position also on failure. *)
Class CodecCollaborators := {
  (** [S2LatLngRect::Encode] and [S2LatLngRect::Decode] *)
  S2LatLngRect_Encode : S2LatLngRect -> list byte;
  S2LatLngRect_Decode :
    S2LatLngRect -> Decoder -> bool * S2LatLngRect * Decoder;
  (** [S2::XYZtoFaceSiTi]: the level and the face, si and ti coordinates *)
  S2_XYZtoFaceSiTi : S2Point -> Z * Z * Z * Z;
  (** [S2EncodePointsCompressed], [S2DecodePointsCompressed] (the latter is
      handed the snap level and the array to fill) *)
  S2EncodePointsCompressed : list S2XYZFaceSiTi -> Z -> list byte;
  S2DecodePointsCompressed :
    Decoder -> Z -> list S2Point -> bool * list S2Point * Decoder;
  (** whether [decoder->ptr()] is misaligned for doubles on this platform *)
  decoder_ptr_misaligned : Decoder -> bool
}.

Section Codec.
Context {collab : Collaborators} {flags : Flags} {codec : CodecCollaborators}.

Definition kCurrentLosslessEncodingVersionNumber : Z := 1.

(** [enum CompressedLoopProperty]: bit positions. *)
Definition kOriginInside : Z := 0.
Definition kBoundEncoded : Z := 1.

(** [S2Loop::Encode] *)
Definition Encode (l : S2Loop) (encoder : Encoder) : Encoder :=
  let encoder := put8 encoder kCurrentLosslessEncodingVersionNumber in
  let encoder := put32 encoder (num_vertices l) in
  let encoder := putn_S2Points encoder (vertices_ l) in
  let encoder := put8 encoder (Z.b2z (origin_inside_ l)) in
  let encoder := put32 encoder (depth_ l) in
  encoder ++ S2LatLngRect_Encode (bound_ l).

(** [S2Loop::DecodeInternal]: the value returned, the loop and the decoder
    afterwards; [None] when the call does not return.  The flag is an
    [int32] and is converted to [uint32] for the comparison; the length
    arithmetic is in [size_t] and cannot wrap for a 32-bit count.  The
    count is then stored in the [int] member [num_vertices_]: a count of
    2^31 or more, which only a negative flag lets through, becomes a
    negative length, with which [new S2Point[]] throws and the zero-copy
    branch moves the read position out of the buffer.  Both ways of
    obtaining the vertices (aliasing the buffer, or copying) read the same
    bytes.  The call does not return either when [InitIndex] aborts. *)
Definition DecodeInternal (l : S2Loop) (decoder : Decoder) (within_scope : bool)
  : option (bool * S2Loop * Decoder) :=
  if avail decoder <? 4 then Some (false, l, decoder)
  else
    let '(num_vertices, decoder) := get32 decoder in
    if num_vertices >? wrap_uint32 FLAGS_s2polygon_decode_max_num_vertices
    then Some (false, l, decoder)
    else if avail decoder <? num_vertices * sizeof_S2Point + 1 + 4
    then Some (false, l, decoder)
    else
      let l := ResetMutableFields l in
      if wrap_int32 num_vertices <? 0 then None
      else
        let is_misaligned := decoder_ptr_misaligned decoder in
        let '(vs, decoder) := getn_S2Points (Z.to_nat num_vertices) decoder in
        let l := set_vertices l vs (negb (within_scope && negb is_misaligned)) in
        let '(oi, decoder) := get8 decoder in
        let l := set_origin_inside l (negb (oi =? 0)) in
        let '(dep, decoder) := get32 decoder in
        let l := set_depth l (wrap_int32 dep) in
        let '(ok, b, decoder) := S2LatLngRect_Decode (bound_ l) decoder in
        let l := set_bound l b in
        if negb ok then Some (false, l, decoder)
        else
          let l := set_subregion_bound l
                     (RectBounder_ExpandForSubregions (bound_ l)) in
          if num_vertices >? 0 then
            match InitIndex l with
            | Some l => Some (true, l, decoder)
            | None => None
            end
          else Some (true, l, decoder).

(** [S2Loop::Decode] and [S2Loop::DecodeWithinScope] *)
Definition Decode_version (l : S2Loop) (decoder : Decoder) (within_scope : bool)
  : option (bool * S2Loop * Decoder) :=
  if avail decoder <? 1 then Some (false, l, decoder)
  else
    let '(version, decoder) := get8 decoder in
    if version =? kCurrentLosslessEncodingVersionNumber
    then DecodeInternal l decoder within_scope
    else Some (false, l, decoder).

Definition Decode (l : S2Loop) (decoder : Decoder)
  : option (bool * S2Loop * Decoder) :=
  Decode_version l decoder false.
Definition DecodeWithinScope (l : S2Loop) (decoder : Decoder)
  : option (bool * S2Loop * Decoder) :=
  Decode_version l decoder true.




(** [S2Loop::DecodeCompressed]: the value returned, the loop and the
    decoder afterwards; [None] when the call does not return.  The count is
    stored in the [int] member [num_vertices_]: a count of 2^31 or more,
    which only a negative flag lets through, becomes negative, and
    [new S2Point[num_vertices_]] throws.  Otherwise [new S2Point[n]] holds
    null vectors.  The call does not return either when [InitIndex]
    aborts. *)
Definition DecodeCompressed (l : S2Loop) (decoder : Decoder) (snap_level : Z)
  : option (bool * S2Loop * Decoder) :=
  match get_varint32 decoder with
  | None => Some (false, l, decoder)
  | Some (unsigned_num_vertices, decoder) =>
    if (unsigned_num_vertices =? 0)
       || (unsigned_num_vertices
           >? wrap_uint32 FLAGS_s2polygon_decode_max_num_vertices)
    then Some (false, l, decoder)
    else
      let l := ResetMutableFields l in
      let num_vertices_ := wrap_int32 unsigned_num_vertices in
      if num_vertices_ <? 0 then None
      else
        let l := set_vertices l (repeat no_vertex (Z.to_nat num_vertices_)) true in
        let '(ok, vs, decoder) :=
          S2DecodePointsCompressed decoder snap_level (vertices_ l) in
        let l := set_vertices l vs true in
        if negb ok then Some (false, l, decoder)
        else
          match get_varint32 decoder with
          | None => Some (false, l, decoder)
          | Some (properties_uint32, decoder) =>
            let l := set_origin_inside l
                       (Z.testbit properties_uint32 kOriginInside) in
            match get_varint32 decoder with
            | None => Some (false, l, decoder)
            | Some (unsigned_depth, decoder) =>
              let l := set_depth l (wrap_int32 unsigned_depth) in
              if Z.testbit properties_uint32 kBoundEncoded then
                let '(ok, b, decoder) :=
                  S2LatLngRect_Decode (bound_ l) decoder in
                let l := set_bound l b in
                if negb ok then Some (false, l, decoder)
                else
                  let l := set_subregion_bound l
                             (RectBounder_ExpandForSubregions (bound_ l)) in
                  match InitIndex l with
                  | Some l => Some (true, l, decoder)
                  | None => None
                  end
              else
                match InitIndex (InitBound l) with
                | Some l => Some (true, l, decoder)
                | None => None
                end
            end
          end
  end.

(** The checks of the lossless decoder that come before its first write to
    the loop, spelled out on the input: a version byte equal to 1, four
    bytes of count, a count within the limit, and [24 n + 5] bytes for the
    vertices, the reference-point byte and the depth. *)
Definition lossless_checks_pass (d : Decoder) : bool :=
  let d1 := snd (get8 d) in
  let n := fst (get32 d1) in
  let d2 := snd (get32 d1) in
  (1 <=? avail d) && (fst (get8 d) =? 1) && (4 <=? avail d1)
  && (n <=? wrap_uint32 FLAGS_s2polygon_decode_max_num_vertices)
  && (n * 24 + 5 <=? avail d2).

(** The checks of the compressed decoder that come before its first write:
    a count that decodes, is not zero and is within the limit. *)
Definition compressed_count_ok (d : Decoder) : bool :=
  match get_varint32 d with
  | None => false
  | Some (n, _) =>
      negb (n =? 0)
      && (n <=? wrap_uint32 FLAGS_s2polygon_decode_max_num_vertices)
  end.

End Codec.

(* ================================================================= *)
(** ** A small instance of the collaborators

    Simple stand-ins that compute, so that the model can be run on concrete
    loops: latitude is read off the z coordinate, unit length is the sum of
    the squares being 1, the index is one cell holding every edge, no self
    intersection is ever found, compressed points are stored raw. *)

Definition sample_rect_contains (r : S2LatLngRect) (p : S2Point) : bool :=
  PrimFloat.leb (r1_lo (lat r)) (pt_z p) && PrimFloat.leb (pt_z p) (r1_hi (lat r)).

Definition sample_rect_intersects (a b : S2LatLngRect) : bool :=
  PrimFloat.leb (r1_lo (lat a)) (r1_hi (lat b))
  && PrimFloat.leb (r1_lo (lat b)) (r1_hi (lat a)).

Definition sample_bound (ps : list S2Point) : S2LatLngRect :=
  mkS2LatLngRect
    (mkR1Interval (fold_right (fun p m => std_min (pt_z p) m) 1%float ps)
                  (fold_right (fun p m => std_max (pt_z p) m) (-1)%float ps))
    S1Interval_Full.

Definition sample_turn_angle (a b c : S2Point) : float :=
  (pt_x a + 2 * pt_y b + 4 * pt_z c + 8 * pt_y a)%float.

Definition sample_locate (vs : list S2Point) (oi : bool) (p : S2Point)
  : option IndexCell :=
  Some (mkIndexCell (mkS2Point 1 0 0)
                    (mkS2ClippedShape oi (Zrange 0 (length vs)))).

Definition sample_collab : Collaborators :=
  {| S2_Origin := mkS2Point 0 1 0;
     S2_Ortho := fun p => mkS2Point (pt_z p) (pt_x p) (pt_y p);
     S2_OrderedCCW := fun _ _ _ _ => false;
     S2_TurnAngle := sample_turn_angle;
     S2_IsUnitLength := fun p =>
       PrimFloat.eqb (pt_x p * pt_x p + pt_y p * pt_y p + pt_z p * pt_z p) 1;
     EdgeOrVertexCrossing := fun _ _ _ _ => false;
     S2LatLngRect_Contains := sample_rect_contains;
     S2LatLngRect_Intersects := sample_rect_intersects;
     S1Interval_GetLength := fun i => (s1_hi i - s1_lo i)%float;
     RectBounder := list S2Point;
     RectBounder_new := [];
     RectBounder_AddPoint := fun b p => p :: b;
     RectBounder_GetBound := sample_bound;
     RectBounder_ExpandForSubregions := fun b => b;
     GetSurfaceIntegral_SignedArea := fun _ => 0.5%float;
     S2ShapeIndex_Locate := sample_locate;
     s2shapeutil_FindSelfIntersection := fun _ _ => false;
     depth_is_hole := Z.odd |}.

Definition sample_rect_encode (r : S2LatLngRect) : list byte :=
  put_double (put_double (put_double (put_double (put8 [] 1)
    (double_store (r1_lo (lat r)))) (double_store (r1_hi (lat r))))
    (double_store (s1_lo (lng r)))) (double_store (s1_hi (lng r))).

Definition sample_rect_decode (r0 : S2LatLngRect) (d : Decoder)
  : bool * S2LatLngRect * Decoder :=
  if avail d <? 33 then (false, r0, d)
  else
    let '(version, d) := get8 d in
    if version >? 1 then (false, r0, d)
    else
      let '(a, d) := get_double d in
      let '(b, d) := get_double d in
      let '(c, d) := get_double d in
      let '(e, d) := get_double d in
      (true, mkS2LatLngRect (mkR1Interval (double_value a) (double_value b))
                            (mkS1Interval (double_value c) (double_value e)), d).

Definition sample_points_decode (d : Decoder) (snap_level : Z)
    (arr : list S2Point) : bool * list S2Point * Decoder :=
  if avail d <? sizeof_S2Point * Z.of_nat (length arr) then (false, arr, d)
  else let '(ps, d) := getn_S2Points (length arr) d in (true, ps, d).

Definition sample_codec : CodecCollaborators :=
  {| S2LatLngRect_Encode := sample_rect_encode;
     S2LatLngRect_Decode := sample_rect_decode;
     S2_XYZtoFaceSiTi := fun _ => (-1, 0, 0, 0);
     S2EncodePointsCompressed := fun arr _ => putn_S2Points [] (map xyz arr);
     S2DecodePointsCompressed := sample_points_decode;
     decoder_ptr_misaligned := fun _ => false |}.

(** Sample loops: a loop object with the given vertices, reference-point
    bit, call counter, bound and index state. *)
Definition sample_loop (vs : list S2Point) (oi : bool) (calls : Z)
    (b : S2LatLngRect) (ix : S2ShapeIndex) : S2Loop :=
  mkS2Loop 0 vs true ALLOW_S2DEBUG oi calls b b ix.

Definition octant : list S2Point :=
  [mkS2Point 1 0 0; mkS2Point 0 1 0; mkS2Point 0 0 1].

(** [n] points with distinct coordinates (not a geometric loop; for the
    dispatch on the vertex count). *)
Definition ramp (n : nat) : list S2Point :=
  map (fun k => mkS2Point (double_of_int k) 1 0) (Zrange 0 n).

Definition north_band : S2LatLngRect :=
  mkS2LatLngRect (mkR1Interval 0 1) S1Interval_Full.

(* ================================================================= *)
(** ** The canonical order of summation, on the vertex ring

    Notions used to state and prove the symmetry of the turning angle. *)

(** The vertex ring read cyclically, for any integer index. *)
Definition ring (vs : list S2Point) (i : Z) : S2Point :=
  nth (Z.to_nat (i mod Z.of_nat (length vs))) vs no_vertex.

(** The vertex list rotated to start at its [k]-th element. *)
Definition rotate (k : nat) (vs : list S2Point) : list S2Point :=
  skipn k vs ++ firstn k vs.

(** One addition of the Kahan summation, on [(sum, compensation)]. *)
Definition kahan_add (st : float * float) (angle : float) : float * float :=
  let '(sum, compensation) := st in
  let old_sum := sum in
  let angle := (angle + compensation)%float in
  let sum := (sum + angle)%float in
  (sum, ((old_sum - sum) + angle)%float).

(** The compensated sum of a first term and further terms. *)
Definition kahan_sum (first : float) (more : list float) : float :=
  let '(sum, compensation) := fold_left kahan_add more (first, 0%float) in
  (sum + compensation)%float.

(** The strict total order that [operator<] puts on vertices that are
    pairwise different. *)
Definition strictly_ordered (vs : list S2Point) : Prop :=
  NoDup vs
  /\ (forall a b c, In a vs -> In b vs -> In c vs ->
        S2Point_ltb a b = true -> S2Point_ltb b c = true ->
        S2Point_ltb a c = true)
  /\ (forall a b, In a vs -> In b vs -> a <> b ->
        S2Point_ltb a b = true \/ S2Point_ltb b a = true)
  /\ (forall a b, In a vs -> In b vs ->
        S2Point_ltb a b = true -> S2Point_ltb b a = false).

(** A coordinate that is a number, and a point of three numbers. *)
Definition is_number (x : float) : bool := negb (PrimFloat.is_nan x).

Definition numeric_point (p : S2Point) : bool :=
  is_number (pt_x p) && is_number (pt_y p) && is_number (pt_z p).

(** What validity asks of the vertices, as far as the order needs it: no
    coordinate is a NaN and no two vertices are equal under [operator==]. *)
Definition distinct_vertices (vs : list S2Point) : Prop :=
  Forall (fun p => numeric_point p = true) vs
  /\ ForallOrdPairs (fun a b => S2Point_eqb a b = false) vs.

(** The position of a double in the order of [operator<]: sign class, then
    exponent, then mantissa, the last two negated for negative numbers.
    Both zeros share one position. *)
Definition order_key (x : float) : Z * Z * Z :=
  match Prim2SF x with
  | S754_zero _ | S754_nan => (0, 0, 0)
  | S754_infinity s => (if s then -2 else 2, 0, 0)
  | S754_finite s m e => if s then (-1, - e, - Z.pos m) else (1, e, Z.pos m)
  end.

Definition key_lt (a b : Z * Z * Z) : Prop :=
  let '(a1, a2, a3) := a in
  let '(b1, b2, b3) := b in
  a1 < b1 \/ (a1 = b1 /\ (a2 < b2 \/ (a2 = b2 /\ a3 < b3))).

Definition point_key (p : S2Point) : (Z * Z * Z) * (Z * Z * Z) * (Z * Z * Z) :=
  (order_key (pt_x p), order_key (pt_y p), order_key (pt_z p)).

Definition point_key_lt (a b : (Z * Z * Z) * (Z * Z * Z) * (Z * Z * Z)) : Prop :=
  let '(a1, a2, a3) := a in
  let '(b1, b2, b3) := b in
  key_lt a1 b1 \/ (a1 = b1 /\ (key_lt a2 b2 \/ (a2 = b2 /\ key_lt a3 b3))).

(** The smallest vertex of the ring, as a point. *)
Definition least_vertex (vs : list S2Point) (x : S2Point) : Prop :=
  In x vs /\ forall y, In y vs -> y <> x -> S2Point_ltb x y = true.

Section CanonicalOrder.
Context {collab : Collaborators}.

(** The turn angles that follow the first one, in the order of the walk
    from position [f] in direction [dir]. *)
Definition turn_angles (vs : list S2Point) (f dir : Z) (m : nat) : list float :=
  map (fun t => S2_TurnAngle (ring vs (f + (t - 1) * dir)) (ring vs (f + t * dir))
                             (ring vs (f + (t + 1) * dir)))
      (Zrange 1 m).

(** The scan for the smallest vertex, over the ring. *)
Definition least_index (vs : list S2Point) (len : nat) : Z :=
  fold_left (fun first i =>
               if S2Point_ltb (ring vs i) (ring vs first) then i else first)
            (Zrange 1 len) 0.

End CanonicalOrder.

(* ================================================================= *)
(** ** Loops and points for the concrete runs *)

(** The octant triangle with a built (fresh) index and a bound over the
    northern band, and the south pole, which that bound does not contain. *)
Definition octant_built : S2Loop :=
  sample_loop octant false 0 north_band (mkS2ShapeIndex 1 true).
Definition south_pole : S2Point := mkS2Point 0 0 (-1).
Definition north_pole : S2Point := mkS2Point 0 0 1.

(** A loop of 33 vertices whose index is stale while 20 unindexed calls
    have been counted (another caller is building the index). *)
Definition ramp33_stale : S2Loop :=
  sample_loop (ramp 33) false 20 S2LatLngRect_Full (mkS2ShapeIndex 1 false).

(** The same loop one call earlier, with 19 unindexed calls counted. *)
Definition ramp33_before : S2Loop :=
  sample_loop (ramp 33) false 19 S2LatLngRect_Full (mkS2ShapeIndex 1 false).


(** The empty loop given by the single vertex (1, 0, 0), as [Init] leaves
    it: not containing the origin, with empty bounds and its shape added to
    the index. *)
Definition empty_at_x : S2Loop :=
  sample_loop [mkS2Point 1 0 0] false 0 S2LatLngRect_Empty (mkS2ShapeIndex 1 false).

(** A newly created loop: no vertices, nothing initialized. *)
Definition new_loop : S2Loop :=
  mkS2Loop 0 [] false ALLOW_S2DEBUG false 0 S2LatLngRect_Empty
           S2LatLngRect_Empty (mkS2ShapeIndex 0 true).


(* ================================================================= *)
(** ** Further operations of the loop *)

(** Modelled from the spec: [operator!=] on points is the negation of
    [operator==] (the template [Vector3<double>] is declared outside this
    file). *)
Definition S2Point_neqb (a b : S2Point) : bool := negb (S2Point_eqb a b).

(** What approximate comparison consumes from s2.h. *)
Class PointPredicates := {
  S2_ApproxEquals : S2Point -> S2Point -> float -> bool
}.

Section MoreLoop.
Context {collab : Collaborators} {flags : Flags} {preds : PointPredicates}.



(** [S2Loop::Normalize].  [None] is the failure of [CHECK(owns_vertices_)],
    here or in [Invert]. *)
Definition Normalize (l : S2Loop) : option S2Loop :=
  if negb (owns_vertices_ l) then None
  else if negb (IsNormalized l) then Invert l
  else Some l.

(** Successive calls of [Contains(S2Point)] on one loop object: the exits
    taken, in order, and the loop after the last call. *)
Fixpoint Contains_calls (l : S2Loop) (ps : list S2Point)
  : list ContainsPath * S2Loop :=
  match ps with
  | [] => ([], l)
  | p :: rest =>
      let r := Contains l p in
      let '(paths, l') := Contains_calls (after r) rest in
      (path r :: paths, l')
  end.

(** [S2Loop::Equals] *)
Definition Equals (a b : S2Loop) : bool :=
  if negb (num_vertices a =? num_vertices b) then false
  else negb (existsb (fun i => S2Point_neqb (vertex a i) (vertex b i))
                     (Zrange 0 (length (vertices_ a)))).

(** [S2Loop::BoundaryEquals]: the first offset at which the loop meets
    vertex 0 of [b] decides. *)
Definition BoundaryEquals (a b : S2Loop) : bool :=
  if negb (num_vertices a =? num_vertices b) then false
  else if is_empty_or_full a then Bool.eqb (is_empty a) (is_empty b)
  else
    match find (fun offset => S2Point_eqb (vertex a offset) (vertex b 0))
               (Zrange 0 (length (vertices_ a))) with
    | Some offset =>
        negb (existsb (fun i => S2Point_neqb (vertex a (i + offset)) (vertex b i))
                      (Zrange 0 (length (vertices_ a))))
    | None => false
    end.

(** [S2Loop::BoundaryApproxEquals]: every offset that matches vertex 0 of
    [b] approximately is tried. *)
Definition BoundaryApproxEquals (a b : S2Loop) (max_error : float) : bool :=
  if negb (num_vertices a =? num_vertices b) then false
  else if is_empty_or_full a then Bool.eqb (is_empty a) (is_empty b)
  else
    existsb
      (fun offset =>
         S2_ApproxEquals (vertex a offset) (vertex b 0) max_error
         && negb (existsb
                    (fun i => negb (S2_ApproxEquals (vertex a (i + offset))
                                                    (vertex b i) max_error))
                    (Zrange 0 (length (vertices_ a)))))
      (Zrange 0 (length (vertices_ a))).

End MoreLoop.

(** A stand-in for the point predicates: approximate equality by equality
    or by the coordinate differences. *)
Definition sample_preds : PointPredicates :=
  {| S2_ApproxEquals := fun p q e =>
       S2Point_eqb p q
       || (PrimFloat.leb (PrimFloat.abs (pt_x p - pt_x q)) e
           && PrimFloat.leb (PrimFloat.abs (pt_y p - pt_y q)) e
           && PrimFloat.leb (PrimFloat.abs (pt_z p - pt_z q)) e) |}.

(* ================================================================= *)
(** ** Relations between loops, and loops against cells *)

(** What the loop relations consume from s2edgeutil.h and s2latlngrect.h. *)
Class RelationCollaborators := {
  S2EdgeUtil_WedgeContains :
    S2Point -> S2Point -> S2Point -> S2Point -> S2Point -> bool;
  S2EdgeUtil_WedgeIntersects :
    S2Point -> S2Point -> S2Point -> S2Point -> S2Point -> bool;
  (** [EdgeCrosser::RobustCrossing]: the sign of the crossing of the edge
      [a b] with the edge from the crosser's current vertex [c] to [d] *)
  S2EdgeUtil_RobustCrossing : S2Point -> S2Point -> S2Point -> S2Point -> Z;
  S2LatLngRect_ContainsRect : S2LatLngRect -> S2LatLngRect -> bool;
  S2LatLngRect_Union : S2LatLngRect -> S2LatLngRect -> S2LatLngRect;
  S2LatLngRect_is_full : S2LatLngRect -> bool
}.

(** The relation of an index cell to a target cell that
    [S2ShapeIndex::Iterator::Locate(S2CellId)] reports. *)
Inductive CellRelation := INDEXED | SUBDIVIDED | DISJOINT.

(** What the tests against a cell consume from s2cell.h, s2shapeindex.h and
    s2edgeutil.h.  [Locate] leaves the iterator at an index cell; the model
    returns the relation with the id and the contents of that cell.  The
    test of one loop edge against the target cell,
    [ClipToPaddedFace(v, w, target.face(), kMaxError, &v0, &v1) &&
    IntersectsRect(v0, v1, bound)], is one collaborator. *)
Class CellCollaborators := {
  S2Cell : Type;
  S2CellId : Type;
  (** [S2CellId::id()], the 64-bit number that identifies and orders the
      cell ids *)
  S2CellId_id : S2CellId -> Z;
  S2Cell_id : S2Cell -> S2CellId;
  S2Cell_GetCenter : S2Cell -> S2Point;
  S2ShapeIndex_LocateCell :
    list S2Point -> bool -> S2CellId -> CellRelation * S2CellId * IndexCell;
  clipped_edge_intersects_cell : S2Point -> S2Point -> S2Cell -> bool
}.

(** The comparisons of s2cellid.h compare the ids. *)
Definition S2CellId_eqb {cells : CellCollaborators} (x y : S2CellId) : bool :=
  S2CellId_id x =? S2CellId_id y.
Definition S2CellId_ltb {cells : CellCollaborators} (x y : S2CellId) : bool :=
  S2CellId_id x <? S2CellId_id y.
Definition S2CellId_leb {cells : CellCollaborators} (x y : S2CellId) : bool :=
  S2CellId_id x <=? S2CellId_id y.

(** What the walk over two indexes consumes from s2cellid.h,
    s2shapeindex.h and s2edgequery.h.  A built index is the list of its
    cells in the order of its iterator, each with its id and the clipped
    shape of the loop.  [S2EdgeQuery::GetCells(a0, a1, root, &cells)] on
    the index of a loop answers whether it found a cell and leaves the
    clipped shapes of the cells it found. *)
Class WalkCollaborators {cells : CellCollaborators} := {
  (** [S2CellId::End(0)] *)
  S2CellId_End0 : S2CellId;
  S2CellId_range_min : S2CellId -> S2CellId;
  S2CellId_range_max : S2CellId -> S2CellId;
  S2CellId_next : S2CellId -> S2CellId;
  (** [S2CellId::lsb()], a [uint64] *)
  S2CellId_lsb : S2CellId -> Z;
  S2ShapeIndex_cells : list S2Point -> bool -> list (S2CellId * S2ClippedShape);
  S2EdgeQuery_GetCells :
    list S2Point -> bool -> S2Point -> S2Point -> S2CellId
    -> bool * list S2ClippedShape
}.

(** A step of the walk that is outside the contract of the iterator
    (reading the cell of an iterator that is done, advancing it past the
    end, stepping back from the first cell) has no result. *)
Notation "' p <- e ;; k" :=
  (match e with Some p => k | None => None end)
  (at level 10, p pattern, e at level 100, k at level 200, only parsing).

(** The members of [LoopCrosser] that its edge tests read and write: the
    edge crosser (its fixed edge and its current vertex) and the two edge
    numbers.  The two crossing targets are fixed by the constructor from
    the relation and [swapped_]; see [LoopCrosser_a_crossing_target]. *)
Record LoopCrosser := mkLoopCrosser {
  swapped_ : bool;
  crosser_a : S2Point;
  crosser_b : S2Point;
  crosser_c : S2Point;
  aj_ : Z;
  bj_prev_ : Z
}.

Section MoreRelations.
Context {collab : Collaborators} {flags : Flags}
        {rel : RelationCollaborators} {cells : CellCollaborators}
        {walk : WalkCollaborators}.

(** [LoopCrosser::StartEdge].  [EdgeCrosser::Init] leaves the crosser
    without a current vertex; the model keeps the null vector there. *)
Definition StartEdge (a : S2Loop) (lc : LoopCrosser) (aj : Z) : LoopCrosser :=
  mkLoopCrosser (swapped_ lc) (vertex a aj) (vertex a (aj + 1)) no_vertex aj (-2).

(** [LoopCrosser::EdgeCrossesCell], over the edges of the clipped shape;
    [a] and [b] are the loops [a_] and [b_] of the crosser. *)
Fixpoint EdgeCrossesCell_edges {St : Type} (a b : S2Loop)
    (relation : LoopRelation St) (edges : list Z) (lc : LoopCrosser) (st : St)
  : bool * LoopCrosser * St :=
  match edges with
  | [] => (false, lc, st)
  | bj :: rest =>
      let c := if negb (bj =? bj_prev_ lc + 1) then vertex b bj
               else crosser_c lc in
      let crossing :=
        S2EdgeUtil_RobustCrossing (crosser_a lc) (crosser_b lc) c
                                  (vertex b (bj + 1)) in
      let lc := mkLoopCrosser (swapped_ lc) (crosser_a lc) (crosser_b lc)
                              (vertex b (bj + 1)) (aj_ lc) bj in
      if crossing <? 0 then EdgeCrossesCell_edges a b relation rest lc st
      else if crossing >? 0 then (true, lc, st)
      else if S2Point_eqb (vertex a (aj_ lc + 1)) (vertex b (bj + 1)) then
        let '(r, st) :=
          if swapped_ lc
          then WedgesCross relation st
                 (vertex b bj) (vertex b (bj + 1)) (vertex b (bj + 2))
                 (vertex a (aj_ lc)) (vertex a (aj_ lc + 2))
          else WedgesCross relation st
                 (vertex a (aj_ lc)) (vertex a (aj_ lc + 1)) (vertex a (aj_ lc + 2))
                 (vertex b bj) (vertex b (bj + 2)) in
        if r then (true, lc, st)
        else EdgeCrossesCell_edges a b relation rest lc st
      else EdgeCrossesCell_edges a b relation rest lc st
  end.

Definition EdgeCrossesCell {St : Type} (a b : S2Loop) (relation : LoopRelation St)
    (b_clipped : S2ClippedShape) (lc : LoopCrosser) (st : St)
  : bool * LoopCrosser * St :=
  EdgeCrossesCell_edges a b relation (clipped_edges b_clipped) lc st.

(** [LoopCrosser::CellCrossesCell] *)
Fixpoint CellCrossesCell_edges {St : Type} (a b : S2Loop)
    (relation : LoopRelation St) (a_edges : list Z) (b_clipped : S2ClippedShape)
    (lc : LoopCrosser) (st : St) : bool * LoopCrosser * St :=
  match a_edges with
  | [] => (false, lc, st)
  | aj :: rest =>
      let lc := StartEdge a lc aj in
      let '(r, lc, st) := EdgeCrossesCell a b relation b_clipped lc st in
      if r then (true, lc, st)
      else CellCrossesCell_edges a b relation rest b_clipped lc st
  end.

Definition CellCrossesCell {St : Type} (a b : S2Loop) (relation : LoopRelation St)
    (a_clipped b_clipped : S2ClippedShape) (lc : LoopCrosser) (st : St)
  : bool * LoopCrosser * St :=
  CellCrossesCell_edges a b relation (clipped_edges a_clipped) b_clipped lc st.

(** The calls of [WedgesCross] that a walk makes on one relation object,
    one for each shared vertex it meets, up to the first call that reports
    a crossing: the last answer and the state of the relation. *)
Fixpoint WedgesCross_calls {St : Type} (relation : LoopRelation St) (st : St)
    (wedges : list (S2Point * S2Point * S2Point * S2Point * S2Point))
  : bool * St :=
  match wedges with
  | [] => (false, st)
  | (a0, ab1, a2, b0, b2) :: rest =>
      let '(r, st) := WedgesCross relation st a0 ab1 a2 b0 b2 in
      if r then (true, st) else WedgesCross_calls relation st rest
  end.

(** The constructor of [LoopCrosser] leaves the edge crosser and the two
    edge numbers unset; [StartEdge] sets them before they are read.  The
    model starts them at the null vector and 0. *)
Definition LoopCrosser_new (swapped : bool) : LoopCrosser :=
  mkLoopCrosser swapped no_vertex no_vertex no_vertex 0 0.

(** [LoopCrosser::a_crossing_target] and [b_crossing_target]: the targets
    of the relation, exchanged by the constructor when the loops are
    swapped. *)
Definition LoopCrosser_a_crossing_target {St : Type} (relation : LoopRelation St)
    (lc : LoopCrosser) : Z :=
  if swapped_ lc then b_crossing_target relation else a_crossing_target relation.

Definition LoopCrosser_b_crossing_target {St : Type} (relation : LoopRelation St)
    (lc : LoopCrosser) : Z :=
  if swapped_ lc then a_crossing_target relation else b_crossing_target relation.

(** [S2ClippedShape::num_edges] *)
Definition num_edges (c : S2ClippedShape) : Z := Z.of_nat (length (clipped_edges c)).

(** [RangeIterator]: the index iterator [it_] is a position in the cells
    of the index; what [Refresh] caches in [id_], [range_min_],
    [range_max_] and [clipped_] is read off the position. *)
Record RangeIterator := mkRangeIterator {
  it_cells : list (S2CellId * S2ClippedShape);
  it_ : nat
}.

(** [S2ShapeIndex::Iterator::Done] and [Seek]: [Seek] moves to the first
    cell whose id is not below the target, or to the end. *)
Definition Iterator_Done (it : RangeIterator) : bool :=
  (length (it_cells it) <=? it_ it)%nat.

Fixpoint Iterator_Seek (cs : list (S2CellId * S2ClippedShape)) (target : S2CellId)
  : nat :=
  match cs with
  | [] => O
  | (id, _) :: rest =>
      if S2CellId_ltb id target then S (Iterator_Seek rest target) else O
  end.

(** [RangeIterator::id], [range_min], [range_max], [clipped] and [Done]:
    at the end of the index the id is [End(0)] and there is no clipped
    shape. *)
Definition RangeIterator_id (it : RangeIterator) : S2CellId :=
  match nth_error (it_cells it) (it_ it) with
  | Some (id, _) => id
  | None => S2CellId_End0
  end.

Definition RangeIterator_range_min (it : RangeIterator) : S2CellId :=
  S2CellId_range_min (RangeIterator_id it).

Definition RangeIterator_range_max (it : RangeIterator) : S2CellId :=
  S2CellId_range_max (RangeIterator_id it).

Definition RangeIterator_clipped (it : RangeIterator) : option S2ClippedShape :=
  match nth_error (it_cells it) (it_ it) with
  | Some (_, c) => Some c
  | None => None
  end.

Definition RangeIterator_Done (it : RangeIterator) : bool :=
  S2CellId_eqb (RangeIterator_id it) S2CellId_End0.

(** [RangeIterator::Next] *)
Definition RangeIterator_Next (it : RangeIterator) : option RangeIterator :=
  if Iterator_Done it then None
  else Some (mkRangeIterator (it_cells it) (S (it_ it))).

(** [RangeIterator::SeekTo] *)
Definition RangeIterator_SeekTo (it target : RangeIterator)
  : option RangeIterator :=
  let cs := it_cells it in
  let pos := Iterator_Seek cs (RangeIterator_range_min target) in
  let past :=
    match nth_error cs pos with
    | None => true
    | Some (id, _) =>
        S2CellId_ltb (RangeIterator_range_max target) (S2CellId_range_min id)
    end in
  if past then
    match pos with
    | O => None
    | S prev =>
        match nth_error cs prev with
        | Some (id, _) =>
            if S2CellId_ltb (S2CellId_range_max id) (RangeIterator_id target)
            then Some (mkRangeIterator cs pos)
            else Some (mkRangeIterator cs prev)
        | None => None
        end
    end
  else Some (mkRangeIterator cs pos).

(** [RangeIterator::SeekBeyond] *)
Definition RangeIterator_SeekBeyond (it target : RangeIterator) : RangeIterator :=
  let cs := it_cells it in
  let pos := Iterator_Seek cs (S2CellId_next (RangeIterator_range_max target)) in
  match nth_error cs pos with
  | Some (id, _) =>
      if S2CellId_leb (S2CellId_range_min id) (RangeIterator_range_max target)
      then mkRangeIterator cs (S pos)
      else mkRangeIterator cs pos
  | None => mkRangeIterator cs pos
  end.

(** The cells of the index from the position of the iterator on. *)
Definition cells_left (it : RangeIterator) : nat :=
  (length (it_cells it) - it_ it)%nat.

(** The inner loop of [LoopCrosser::CellCrossesAnySubcell], over the cells
    that the edge query found. *)
Fixpoint EdgeCrossesCells {St : Type} (a b : S2Loop) (relation : LoopRelation St)
    (b_cells : list S2ClippedShape) (lc : LoopCrosser) (st : St)
  : bool * LoopCrosser * St :=
  match b_cells with
  | [] => (false, lc, st)
  | b_clipped :: rest =>
      let '(r, lc, st) := EdgeCrossesCell a b relation b_clipped lc st in
      if r then (true, lc, st)
      else EdgeCrossesCells a b relation rest lc st
  end.

(** [LoopCrosser::CellCrossesAnySubcell] *)
Fixpoint CellCrossesAnySubcell_edges {St : Type} (a b : S2Loop)
    (relation : LoopRelation St) (a_edges : list Z) (b_id : S2CellId)
    (lc : LoopCrosser) (st : St) : bool * LoopCrosser * St :=
  match a_edges with
  | [] => (false, lc, st)
  | aj :: rest =>
      let '(found, b_cells) :=
        S2EdgeQuery_GetCells (vertices_ b) (origin_inside_ b)
                             (vertex a aj) (vertex a (aj + 1)) b_id in
      if negb found
      then CellCrossesAnySubcell_edges a b relation rest b_id lc st
      else
        let lc := StartEdge a lc aj in
        let '(r, lc, st) := EdgeCrossesCells a b relation b_cells lc st in
        if r then (true, lc, st)
        else CellCrossesAnySubcell_edges a b relation rest b_id lc st
  end.

Definition CellCrossesAnySubcell {St : Type} (a b : S2Loop)
    (relation : LoopRelation St) (a_clipped : S2ClippedShape) (b_id : S2CellId)
    (lc : LoopCrosser) (st : St) : bool * LoopCrosser * St :=
  CellCrossesAnySubcell_edges a b relation (clipped_edges a_clipped) b_id lc st.

Definition kEdgeQueryMinEdges : Z := 20.

(** The last loop of [LoopCrosser::HasCrossing], over the cells it
    collected in [b_cells_]. *)
Fixpoint HasCrossing_cells {St : Type} (a b : S2Loop) (relation : LoopRelation St)
    (a_clipped : S2ClippedShape) (b_cells : list S2ClippedShape)
    (lc : LoopCrosser) (st : St) : bool * LoopCrosser * St :=
  match b_cells with
  | [] => (false, lc, st)
  | b_clipped :: rest =>
      let '(r, lc, st) := CellCrossesCell a b relation a_clipped b_clipped lc st in
      if r then (true, lc, st)
      else HasCrossing_cells a b relation a_clipped rest lc st
  end.

(** [LoopCrosser::HasCrossing]; its [DCHECK] is a precondition.  Every
    turn of the [do] loop reads the cell [bi] is at and advances [bi], so
    the loop is written by recursion on the cells left from [bi] on; with
    none left the read of the cell has no result. *)
Fixpoint HasCrossing_scan {St : Type} (todo : nat) (a b : S2Loop)
    (relation : LoopRelation St) (ai bi : RangeIterator) (total_edges : Z)
    (b_cells : list S2ClippedShape) (lc : LoopCrosser) (st : St)
  : option (bool * RangeIterator * LoopCrosser * St) :=
  match todo with
  | O => None
  | S todo =>
      ' b_clipped <- RangeIterator_clipped bi ;;
      let total_edges :=
        if 0 <? num_edges b_clipped then total_edges + num_edges b_clipped
        else total_edges in
      if (0 <? num_edges b_clipped) && (kEdgeQueryMinEdges <=? total_edges) then
        ' a_clipped <- RangeIterator_clipped ai ;;
        let '(r, lc, st) :=
          CellCrossesAnySubcell a b relation a_clipped (RangeIterator_id ai) lc st in
        if r then Some (true, bi, lc, st)
        else Some (false, RangeIterator_SeekBeyond bi ai, lc, st)
      else
        let b_cells :=
          if 0 <? num_edges b_clipped then b_cells ++ [b_clipped] else b_cells in
        ' bi <- RangeIterator_Next bi ;;
        if S2CellId_leb (RangeIterator_id bi) (RangeIterator_range_max ai)
        then HasCrossing_scan todo a b relation ai bi total_edges b_cells lc st
        else
          match b_cells with
          | [] => Some (false, bi, lc, st)
          | _ :: _ =>
              ' a_clipped <- RangeIterator_clipped ai ;;
              let '(r, lc, st) :=
                HasCrossing_cells a b relation a_clipped b_cells lc st in
              Some (r, bi, lc, st)
          end
  end.

Definition HasCrossing {St : Type} (a b : S2Loop) (relation : LoopRelation St)
    (ai bi : RangeIterator) (lc : LoopCrosser) (st : St)
  : option (bool * RangeIterator * LoopCrosser * St) :=
  HasCrossing_scan (cells_left bi) a b relation ai bi 0 [] lc st.

(** The [do] loop of [LoopCrosser::HasCrossingRelation] over the cell
    centres of B, written like the one of [HasCrossing].  The source
    compares the [bool] with the [int] target. *)
Fixpoint HasCrossingRelation_centers {St : Type} (todo : nat)
    (relation : LoopRelation St) (ai bi : RangeIterator) (lc : LoopCrosser)
  : option (bool * RangeIterator) :=
  match todo with
  | O => None
  | S todo =>
      ' b_clipped <- RangeIterator_clipped bi ;;
      if Z.b2z (contains_center b_clipped)
         =? LoopCrosser_b_crossing_target relation lc
      then Some (true, bi)
      else
        ' bi <- RangeIterator_Next bi ;;
        if S2CellId_leb (RangeIterator_id bi) (RangeIterator_range_max ai)
        then HasCrossingRelation_centers todo relation ai bi lc
        else Some (false, bi)
  end.

(** [LoopCrosser::HasCrossingRelation]; its [DCHECK] is a precondition.
    [a] and [b] are the loops [a_] and [b_] of the crosser.  Returns the
    answer with the two iterators, the crosser and the state of the
    relation. *)
Definition LoopCrosser_HasCrossingRelation {St : Type} (a b : S2Loop)
    (relation : LoopRelation St) (ai bi : RangeIterator) (lc : LoopCrosser)
    (st : St)
  : option (bool * RangeIterator * RangeIterator * LoopCrosser * St) :=
  ' a_clipped <- RangeIterator_clipped ai ;;
  ' (r, bi, lc, st) <-
      (if num_edges a_clipped =? 0 then
         if Z.b2z (contains_center a_clipped)
            =? LoopCrosser_a_crossing_target relation lc
         then
           ' (r, bi) <-
               HasCrossingRelation_centers (cells_left bi) relation ai bi lc ;;
           Some (r, bi, lc, st)
         else Some (false, RangeIterator_SeekBeyond bi ai, lc, st)
       else HasCrossing a b relation ai bi lc st) ;;
  if r then Some (true, ai, bi, lc, st)
  else
    ' ai <- RangeIterator_Next ai ;;
    Some (false, ai, bi, lc, st).

(** The conversion of a [uint64] difference to [int64]. *)
Definition wrap_int64 (v : Z) : Z := (v + 2 ^ 63) mod 2 ^ 64 - 2 ^ 63.

(** The [while] loop of [S2Loop::HasCrossingRelation].  [fuel] bounds the
    number of turns: the loop ends when both iterators are done, and a
    turn that is left to run without fuel has no result. *)
Fixpoint HasCrossingRelation_loop {St : Type} (fuel : nat) (a b : S2Loop)
    (relation : LoopRelation St) (ai bi : RangeIterator) (ab ba : LoopCrosser)
    (st : St) : option (bool * St) :=
  if negb (RangeIterator_Done ai) || negb (RangeIterator_Done bi) then
    match fuel with
    | O => None
    | S fuel =>
        if S2CellId_ltb (RangeIterator_range_max ai) (RangeIterator_range_min bi)
        then
          ' ai <- RangeIterator_SeekTo ai bi ;;
          HasCrossingRelation_loop fuel a b relation ai bi ab ba st
        else if S2CellId_ltb (RangeIterator_range_max bi)
                             (RangeIterator_range_min ai)
        then
          ' bi <- RangeIterator_SeekTo bi ai ;;
          HasCrossingRelation_loop fuel a b relation ai bi ab ba st
        else
          let ab_relation :=
            wrap_int64 (S2CellId_lsb (RangeIterator_id ai)
                        - S2CellId_lsb (RangeIterator_id bi)) in
          if 0 <? ab_relation then
            ' (r, ai, bi, ab, st) <-
                LoopCrosser_HasCrossingRelation a b relation ai bi ab st ;;
            if r then Some (true, st)
            else HasCrossingRelation_loop fuel a b relation ai bi ab ba st
          else if ab_relation <? 0 then
            ' (r, bi, ai, ba, st) <-
                LoopCrosser_HasCrossingRelation b a relation bi ai ba st ;;
            if r then Some (true, st)
            else HasCrossingRelation_loop fuel a b relation ai bi ab ba st
          else
            ' a_clipped <- RangeIterator_clipped ai ;;
            ' centers <-
                (if Z.b2z (contains_center a_clipped)
                    =? LoopCrosser_a_crossing_target relation ab
                 then
                   ' b_clipped <- RangeIterator_clipped bi ;;
                   Some (Z.b2z (contains_center b_clipped)
                         =? LoopCrosser_b_crossing_target relation ab)
                 else Some false) ;;
            if centers then Some (true, st)
            else
              ' (r, ab, st) <-
                  (if 0 <? num_edges a_clipped then
                     ' b_clipped <- RangeIterator_clipped bi ;;
                     if 0 <? num_edges b_clipped
                     then Some (CellCrossesCell a b relation a_clipped b_clipped
                                                ab st)
                     else Some (false, ab, st)
                   else Some (false, ab, st)) ;;
              if r then Some (true, st)
              else
                ' ai <- RangeIterator_Next ai ;;
                ' bi <- RangeIterator_Next bi ;;
                HasCrossingRelation_loop fuel a b relation ai bi ab ba st
    end
  else Some (false, st).

(** [S2Loop::HasCrossingRelation]: constructing the two [RangeIterator]s
    builds both indexes and places them at the first cells; the two
    crossers read the vertices of the loops, which building the index
    leaves alone.  Returns the answer, the state of the relation and the
    two loops afterwards. *)
Definition HasCrossingRelation {St : Type} (fuel : nat) (a b : S2Loop)
    (relation : LoopRelation St) (st : St)
  : option (bool * St * S2Loop * S2Loop) :=
  let a' := set_index a (S2ShapeIndex_Iterator (index_ a)) in
  let b' := set_index b (S2ShapeIndex_Iterator (index_ b)) in
  let ai :=
    mkRangeIterator (S2ShapeIndex_cells (vertices_ a) (origin_inside_ a)) 0 in
  let bi :=
    mkRangeIterator (S2ShapeIndex_cells (vertices_ b) (origin_inside_ b)) 0 in
  ' (r, st) <-
      HasCrossingRelation_loop fuel a b relation ai bi
                               (LoopCrosser_new false) (LoopCrosser_new true) st ;;
  Some (r, st, a', b').

(** [ContainsRelation] and [IntersectsRelation]; the state is
    [found_shared_vertex_]. *)
Definition ContainsRelation : LoopRelation bool :=
  mkLoopRelation bool 0 1
    (fun _ a0 ab1 a2 b0 b2 =>
       (negb (S2EdgeUtil_WedgeContains a0 ab1 a2 b0 b2), true)).

Definition IntersectsRelation : LoopRelation bool :=
  mkLoopRelation bool 1 1
    (fun _ a0 ab1 a2 b0 b2 =>
       (S2EdgeUtil_WedgeIntersects a0 ab1 a2 b0 b2, true)).

(** [S2Loop::Contains(S2Loop const* b)].  After the walk both indexes are
    built, so the point tests that follow change neither loop. *)
Definition Contains_loop (fuel : nat) (a b : S2Loop) : option bool :=
  if negb (S2LatLngRect_ContainsRect (subregion_bound_ a) (bound_ b))
  then Some false
  else if is_empty_or_full a || is_empty_or_full b
  then Some (is_full a || is_empty b)
  else
    ' (crossing, found_shared_vertex, a', b') <-
        HasCrossingRelation fuel a b ContainsRelation false ;;
    if crossing then Some false
    else if found_shared_vertex then Some true
    else if negb (answer (Contains a' (vertex b 0))) then Some false
    else if (S2LatLngRect_ContainsRect (subregion_bound_ b) (bound_ a)
             || S2LatLngRect_is_full (S2LatLngRect_Union (bound_ b) (bound_ a)))
            && answer (Contains b' (vertex a 0))
    then Some false
    else Some true.

(** [S2Loop::Intersects] *)
Definition Intersects (fuel : nat) (a b : S2Loop) : option bool :=
  if negb (S2LatLngRect_Intersects (bound_ a) (bound_ b)) then Some false
  else
    ' (crossing, found_shared_vertex, a', b') <-
        HasCrossingRelation fuel a b IntersectsRelation false ;;
    if crossing then Some true
    else if found_shared_vertex then Some false
    else if (S2LatLngRect_ContainsRect (subregion_bound_ a) (bound_ b)
             || S2LatLngRect_is_full (S2LatLngRect_Union (bound_ a) (bound_ b)))
            && answer (Contains a' (vertex b 0))
    then Some true
    else if S2LatLngRect_ContainsRect (subregion_bound_ b) (bound_ a)
            && answer (Contains b' (vertex a 0))
    then Some true
    else Some false.

(** [S2Loop::CompareBoundary].  Its two [DCHECK]s are preconditions. *)
Definition CompareBoundary (fuel : nat) (a b : S2Loop) : option Z :=
  if negb (S2LatLngRect_Intersects (bound_ a) (bound_ b)) then Some (-1)
  else if is_full a then Some 1
  else if is_full b then Some (-1)
  else
    ' (crossing, relation, a', _) <-
        HasCrossingRelation fuel a b CompareBoundaryRelation
                            (CompareBoundaryRelation_new (is_hole b)) ;;
    if crossing then Some 0
    else if found_shared_vertex_ relation
    then Some (if contains_edge_ relation then 1 else -1)
    else Some (if answer (Contains a' (vertex b 0)) then 1 else -1).

(** The loop after a call of [FindVertex]: from ten vertices on, the search
    constructs an index iterator, which builds the index. *)
Definition FindVertex_after (l : S2Loop) : S2Loop :=
  if num_vertices l <? 10 then l
  else set_index l (S2ShapeIndex_Iterator (index_ l)).

(** [S2Loop::ContainsNonCrossingBoundary].  Its two [DCHECK]s are
    preconditions. *)
Definition ContainsNonCrossingBoundary (a b : S2Loop) (reverse_b : bool) : bool :=
  if negb (S2LatLngRect_Intersects (bound_ a) (bound_ b)) then false
  else if is_full a then true
  else if is_full b then false
  else
    let m := FindVertex a (vertex b 0) in
    if m <? 0 then answer (Contains (FindVertex_after a) (vertex b 0))
    else WedgeContainsSemiwedge (vertex a (m - 1)) (vertex a m) (vertex a (m + 1))
                                (vertex b 1) reverse_b.

(** [S2Loop::ContainsNested] *)
Definition ContainsNested (a b : S2Loop) : bool :=
  if negb (S2LatLngRect_ContainsRect (subregion_bound_ a) (bound_ b)) then false
  else if is_empty_or_full a || (num_vertices b <? 2) then is_full a || is_empty b
  else
    let m := FindVertex a (vertex b 1) in
    if m <? 0 then answer (Contains (FindVertex_after a) (vertex b 1))
    else S2EdgeUtil_WedgeContains (vertex a (m - 1)) (vertex a m) (vertex a (m + 1))
                                  (vertex b 0) (vertex b 2).

(** [S2Loop::BoundaryApproxIntersects], with the id of the cell the
    iterator is at. *)
Definition BoundaryApproxIntersects (l : S2Loop) (it_id : S2CellId)
    (it : IndexCell) (target : S2Cell) : bool :=
  let a_clipped := clipped it in
  let a_num_clipped := Z.of_nat (length (clipped_edges a_clipped)) in
  if a_num_clipped =? 0 then false
  else if S2CellId_eqb it_id (S2Cell_id target) then true
  else existsb (fun ai => clipped_edge_intersects_cell
                            (vertex l ai) (vertex l (ai + 1)) target)
               (clipped_edges a_clipped).

(** [S2Loop::Contains(S2Cell const&)].  Constructing the iterator builds
    the index, as in [FindVertex_after]; the model gives the answer. *)
Definition Contains_cell (l : S2Loop) (target : S2Cell) : bool :=
  let '(relation, it_id, it) :=
    S2ShapeIndex_LocateCell (vertices_ l) (origin_inside_ l) (S2Cell_id target) in
  match relation with
  | INDEXED =>
      if BoundaryApproxIntersects l it_id it target then false
      else Contains_it l it (S2Cell_GetCenter target)
  | _ => false
  end.

(** [S2Loop::MayIntersect]; the index is built as for the containment
    test. *)
Definition MayIntersect (l : S2Loop) (target : S2Cell) : bool :=
  let '(relation, it_id, it) :=
    S2ShapeIndex_LocateCell (vertices_ l) (origin_inside_ l) (S2Cell_id target) in
  match relation with
  | DISJOINT => false
  | SUBDIVIDED => true
  | INDEXED =>
      if S2CellId_eqb it_id (S2Cell_id target) then true
      else if BoundaryApproxIntersects l it_id it target then true
      else Contains_it l it (S2Cell_GetCenter target)
  end.

End MoreRelations.

(* ================================================================= *)
(** ** Notions used to state what the walk over two indexes does *)

(** The arguments of one call of [WedgesCross]. *)
Definition Wedge : Type := S2Point * S2Point * S2Point * S2Point * S2Point.

(** A pair of wedges at a vertex that A and B share: the edges of A around
    its vertex [i + 1] and the two neighbours in B of its vertex [j + 1],
    which is the same point. *)
Definition shared_wedge (a b : S2Loop) (w : Wedge) : Prop :=
  exists i j,
    S2Point_eqb (vertex a (i + 1)) (vertex b (j + 1)) = true
    /\ w = (vertex a i, vertex a (i + 1), vertex a (i + 2),
            vertex b j, vertex b (j + 2)).

(** An edge of [la] that the edge crosser found to cross an edge [j] of
    [lb] properly.  The crosser tests the edge between its current vertex
    and vertex [j + 1]; its current vertex is vertex [j], unless an edge
    numbered -1 is the first it is shown. *)
Definition edges_cross {rel : RelationCollaborators} (la lb : S2Loop) : Prop :=
  exists i j c,
    (j <> -1 -> c = vertex lb j)
    /\ 0 < S2EdgeUtil_RobustCrossing (vertex la i) (vertex la (i + 1)) c
                                     (vertex lb (j + 1)).

Section WalkNotions.
Context {rel : RelationCollaborators} {cells : CellCollaborators}
        {walk : WalkCollaborators}.
Context {St : Type} (relation : LoopRelation St) (a b : S2Loop).

(** A cell of A and a cell of B whose "centre inside" bits are the two
    crossing targets of the relation. *)
Definition centers_match : Prop :=
  exists ca cb : S2ClippedShape,
    Z.b2z (contains_center ca) = a_crossing_target relation
    /\ Z.b2z (contains_center cb) = b_crossing_target relation.

(** A stretch of the walk that takes the relation from [st0] to [st] and
    answers [r]: it consulted the relation at shared vertices only, it
    stopped at the first call that reported a crossing, and an answer
    [true] without such a call comes from a proper crossing of two edges
    or from matching cell centres. *)
Definition walked (st0 : St) (r : bool) (st : St) : Prop :=
  exists (ws : list Wedge) (rw : bool),
    Forall (shared_wedge a b) ws
    /\ WedgesCross_calls relation st0 ws = (rw, st)
    /\ (rw = true -> r = true)
    /\ (r = true ->
        rw = true \/ edges_cross a b \/ edges_cross b a \/ centers_match).

(** The crosser [lc] over the loops [la] and [lb] is one of the two that
    [HasCrossingRelation] constructs. *)
Definition crosser_of (la lb : S2Loop) (lc : LoopCrosser) : Prop :=
  (swapped_ lc = false /\ la = a /\ lb = b)
  \/ (swapped_ lc = true /\ la = b /\ lb = a).

(** The state of the crosser after [StartEdge] and between the edges it is
    shown. *)
Definition crosser_started (la lb : S2Loop) (lc : LoopCrosser) : Prop :=
  crosser_a lc = vertex la (aj_ lc)
  /\ crosser_b lc = vertex la (aj_ lc + 1)
  /\ (bj_prev_ lc = -2 \/ crosser_c lc = vertex lb (bj_prev_ lc + 1)).

(** What the walk relies on in the cell ids of an index: the ids
    increase along the index; a cell id lies within its range of leaf
    ids, which ends below the range of [End(0)] and below its own
    successor. *)
Fixpoint ids_increase (ids : list S2CellId) : bool :=
  match ids with
  | [] => true
  | id :: rest => forallb (S2CellId_ltb id) rest && ids_increase rest
  end.

Definition cell_id_ok (id : S2CellId) : bool :=
  S2CellId_leb (S2CellId_range_min id) id
  && S2CellId_leb id (S2CellId_range_max id)
  && S2CellId_ltb (S2CellId_range_max id) (S2CellId_range_min S2CellId_End0)
  && S2CellId_ltb (S2CellId_range_max id)
                  (S2CellId_next (S2CellId_range_max id)).

(** Two cells whose ranges of leaf ids meet are nested, and the one with
    the higher lowest set bit contains the other. *)
Definition cells_nested (x y : S2CellId) : bool :=
  if S2CellId_ltb (S2CellId_range_max x) (S2CellId_range_min y)
     || S2CellId_ltb (S2CellId_range_max y) (S2CellId_range_min x)
  then true
  else
    let xy := wrap_int64 (S2CellId_lsb x - S2CellId_lsb y) in
    if 0 <? xy
    then S2CellId_leb (S2CellId_range_min x) (S2CellId_range_min y)
         && S2CellId_leb (S2CellId_range_max y) (S2CellId_range_max x)
    else if xy <? 0
    then S2CellId_leb (S2CellId_range_min y) (S2CellId_range_min x)
         && S2CellId_leb (S2CellId_range_max x) (S2CellId_range_max y)
    else true.

Definition index_contract : bool :=
  let ids_a := map fst (S2ShapeIndex_cells (vertices_ a) (origin_inside_ a)) in
  let ids_b := map fst (S2ShapeIndex_cells (vertices_ b) (origin_inside_ b)) in
  ids_increase ids_a && ids_increase ids_b
  && forallb cell_id_ok ids_a && forallb cell_id_ok ids_b
  && S2CellId_leb (S2CellId_range_min S2CellId_End0) S2CellId_End0
  && S2CellId_leb S2CellId_End0 (S2CellId_range_max S2CellId_End0)
  && forallb (fun x => forallb (cells_nested x) ids_b) ids_a.

(** The number of turns of the walk that two indexes can take. *)
Definition walk_turns : nat :=
  (length (S2ShapeIndex_cells (vertices_ a) (origin_inside_ a))
   + length (S2ShapeIndex_cells (vertices_ b) (origin_inside_ b)))%nat.

End WalkNotions.

(** Stand-ins for the relation and cell collaborators: edges cross when
    their first coordinates interleave, a cell is a point with a number,
    and the index is one cell numbered 0 that holds every edge. *)
Definition sample_rel : RelationCollaborators :=
  {| S2EdgeUtil_WedgeContains := fun a0 ab1 a2 b0 b2 => S2Point_ltb b0 b2;
     S2EdgeUtil_WedgeIntersects := fun a0 ab1 a2 b0 b2 => S2Point_ltb a0 a2;
     S2EdgeUtil_RobustCrossing := fun a b c d =>
       if S2Point_eqb b d then 0
       else if PrimFloat.ltb (pt_x a) (pt_x c) && PrimFloat.ltb (pt_x c) (pt_x b)
       then 1 else -1;
     S2LatLngRect_ContainsRect := fun r q =>
       PrimFloat.leb (r1_lo (lat r)) (r1_lo (lat q))
       && PrimFloat.leb (r1_hi (lat q)) (r1_hi (lat r));
     S2LatLngRect_Union := fun r q =>
       mkS2LatLngRect (mkR1Interval (std_min (r1_lo (lat r)) (r1_lo (lat q)))
                                    (std_max (r1_hi (lat r)) (r1_hi (lat q))))
                      (lng r);
     S2LatLngRect_is_full := fun r =>
       PrimFloat.leb (r1_lo (lat r)) (- M_PI_2) && PrimFloat.leb M_PI_2 (r1_hi (lat r)) |}.

Definition sample_cells : CellCollaborators :=
  {| S2Cell := Z * S2Point;
     S2CellId := Z;
     S2CellId_id := fun id => id;
     S2Cell_id := fst;
     S2Cell_GetCenter := snd;
     S2ShapeIndex_LocateCell := fun vs oi id =>
       (if id <? 0 then DISJOINT else INDEXED, 0,
        mkIndexCell (mkS2Point 1 0 0) (mkS2ClippedShape oi (Zrange 0 (length vs))));
     clipped_edge_intersects_cell := fun v w t =>
       S2Point_eqb v (snd t) || S2Point_eqb w (snd t) |}.

(** A stand-in for the index that the walk runs over, with the cell ids
    of s2cellid.h as numbers: a cell id carries its level in its lowest
    set bit and covers the leaf ids within that bit of it.  A loop of up
    to three vertices has its edges in the cell of face 0; a longer one
    has its first two edges in the first quarter of that face and the
    others in the third quarter.  The edge query returns every edge. *)
Definition sample_lsb (id : Z) : Z := Z.land id (- id).

Definition sample_cell_list (vs : list S2Point) (oi : bool)
  : list (Z * S2ClippedShape) :=
  if (length vs <=? 3)%nat
  then [(2 ^ 60, mkS2ClippedShape oi (Zrange 0 (length vs)))]
  else [(2 ^ 58, mkS2ClippedShape oi [0; 1]);
        (5 * 2 ^ 58, mkS2ClippedShape oi (Zrange 2 (length vs - 2)))].

Definition sample_index : @WalkCollaborators sample_cells :=
  @Build_WalkCollaborators sample_cells
    (13 * 2 ^ 60)
    (fun id : Z => id - (sample_lsb id - 1))
    (fun id : Z => id + (sample_lsb id - 1))
    (fun id : Z => (id + 2 * sample_lsb id) mod 2 ^ 64)
    sample_lsb
    sample_cell_list
    (fun vs oi a0 a1 root =>
       (true, [mkS2ClippedShape oi (Zrange 0 (length vs))])).

(* ================================================================= *)
(** * Properties *)

Section ContainsFacts.
Context {collab : Collaborators} {flags : Flags}.

Lemma Contains_brute_path l p : path (Contains_brute l p) = BruteForce.
Proof. reflexivity. Qed.

Lemma Contains_indexed_path l p : path (Contains_indexed l p) = IndexLookup.
Proof. unfold Contains_indexed. destruct (S2ShapeIndex_Locate _ _ _); reflexivity. Qed.

Lemma Contains_indexed_after l p :
  after (Contains_indexed l p) = set_index l (S2ShapeIndex_Iterator (index_ l)).
Proof. unfold Contains_indexed. destruct (S2ShapeIndex_Locate _ _ _); reflexivity. Qed.

(** Past the pre-filter, [Contains] ends in one of the two counting
    methods. *)
Lemma Contains_dispatch_path l p :
  negb (is_fresh (index_ l)) && negb (S2LatLngRect_Contains (bound_ l) p) = false ->
  path (Contains l p) = BruteForce \/ path (Contains l p) = IndexLookup.
Proof.
  intros Hc. unfold Contains. rewrite Hc.
  repeat match goal with
         | |- context [if ?c then _ else _] => destruct c
         end;
    rewrite ?Contains_brute_path, ?Contains_indexed_path; auto.
Qed.

(** [Contains] takes the exit it chose; on the way to the index it builds
    the index, otherwise it leaves the loop as it was when it chose. *)
Lemma Contains_choice_spec l p :
  path (Contains l p) = fst (Contains_choice l p)
  /\ after (Contains l p)
     = (let l' := snd (Contains_choice l p) in
        match fst (Contains_choice l p) with
        | IndexLookup => set_index l' (S2ShapeIndex_Iterator (index_ l'))
        | _ => l'
        end).
Proof.
  unfold Contains, Contains_choice.
  repeat match goal with
         | |- context [if ?c then _ else _] => destruct c
         end;
    rewrite ?Contains_indexed_path, ?Contains_indexed_after; split; reflexivity.
Qed.

(** When the pre-filter applies, the call is over at once. *)
Lemma Contains_prefilter_hit l p :
  is_fresh (index_ l) = false -> S2LatLngRect_Contains (bound_ l) p = false ->
  Contains l p = mkContainsResult false BoundReject l.
Proof. intros Hf Hb. unfold Contains. rewrite Hf, Hb. reflexivity. Qed.

(** C1 (amended): the bound pre-filter of [Contains(p)] rejects exactly when
    the index is NOT fresh and the bound does not contain [p]; a rejected
    call answers false and leaves the loop untouched.  With a fresh index
    the pre-filter never rejects, whatever the bound. *)
Theorem Contains_bound_prefilter (l : S2Loop) (p : S2Point) :
  (path (Contains l p) = BoundReject <->
     is_fresh (index_ l) = false /\ S2LatLngRect_Contains (bound_ l) p = false)
  /\ (path (Contains l p) = BoundReject ->
        answer (Contains l p) = false /\ after (Contains l p) = l)
  /\ (is_fresh (index_ l) = true -> path (Contains l p) <> BoundReject).
Proof.
  destruct (negb (is_fresh (index_ l))
            && negb (S2LatLngRect_Contains (bound_ l) p)) eqn:Hc.
  - apply andb_prop in Hc as [Hf Hb].
    apply negb_true_iff in Hf, Hb.
    rewrite (Contains_prefilter_hit l p Hf Hb); simpl. repeat split; auto; congruence.
  - pose proof (Contains_dispatch_path l p Hc) as Hp.
    assert (Hn : path (Contains l p) <> BoundReject)
      by (destruct Hp as [-> | ->]; discriminate).
    split; [split | split].
    + intros; contradiction.
    + intros [Hf Hb]. rewrite Hf, Hb in Hc. discriminate.
    + intros; contradiction.
    + intros _. exact Hn.
Qed.

(** C2 (amended): past the pre-filter, [Contains(p)] counts crossings by
    brute force exactly when the index has no shapes, or the loop has at
    most 32 vertices, or the index is not fresh and the incremented call
    counter DIFFERS from 20 (below or above it).  Otherwise it looks the
    point up in the index.  The counter is incremented exactly on the calls
    that reach the third test with a stale index, and the index is built by
    this call exactly when that increment yields 20. *)
Theorem Contains_dispatch (l : S2Loop) (p : S2Point) :
  path (Contains l p) <> BoundReject ->
  let post := Barrier_AtomicIncrement (unindexed_contains_calls_ l) 1 in
  let counted := num_shape_ids (index_ l) <> 0 /\ 32 < num_vertices l
                 /\ is_fresh (index_ l) = false in
  (path (Contains l p) = BruteForce <->
     num_shape_ids (index_ l) = 0 \/ num_vertices l <= 32
     \/ (is_fresh (index_ l) = false /\ post <> 20))
  /\ (path (Contains l p) = IndexLookup <->
        num_shape_ids (index_ l) <> 0 /\ 32 < num_vertices l
        /\ (is_fresh (index_ l) = true \/ post = 20))
  /\ (is_fresh (index_ l) = false
       /\ is_fresh (index_ (after (Contains l p))) = true <->
        counted /\ post = 20)
  /\ (counted -> unindexed_contains_calls_ (after (Contains l p)) = post)
  /\ (~ counted ->
        unindexed_contains_calls_ (after (Contains l p))
        = unindexed_contains_calls_ l).
Proof.
  intros Hrej post counted. subst post counted.
  assert (Hc : negb (is_fresh (index_ l))
               && negb (S2LatLngRect_Contains (bound_ l) p) = false).
  { destruct (negb (is_fresh (index_ l))
              && negb (S2LatLngRect_Contains (bound_ l) p)) eqn:E; auto.
    apply andb_prop in E as [Hf Hb]. apply negb_true_iff in Hf, Hb.
    exfalso. apply Hrej. rewrite (Contains_prefilter_hit l p Hf Hb).
    reflexivity. }
  unfold Contains in *. rewrite Hc in *. clear Hc Hrej.
  unfold kMaxBruteForceVertices, kMaxUnindexedContainsCalls.
  destruct (Z.eqb_spec (num_shape_ids (index_ l)) 0) as [Hs | Hs];
    [ simpl; intuition (try discriminate; try lia; try congruence) | ].
  destruct (Z.leb_spec (num_vertices l) 32) as [Hn | Hn];
    [ simpl; intuition (try discriminate; try lia; try congruence) | ].
  destruct (is_fresh (index_ l)) eqn:Hf; simpl.
  - rewrite Contains_indexed_path, Contains_indexed_after. simpl.
    intuition (try discriminate; try lia; try congruence).
  - destruct (Z.eqb_spec (Barrier_AtomicIncrement (unindexed_contains_calls_ l) 1) 20)
      as [He | He]; simpl.
    + rewrite Contains_indexed_path, Contains_indexed_after. simpl.
      intuition (try discriminate; try lia; try congruence).
    + rewrite Hf. intuition (try discriminate; try lia; try congruence).
Qed.

End ContainsFacts.

(* ----------------------------------------------------------------- *)
(** *** Concrete runs of the containment test *)

(** C1 (as stated) fails: with a fresh index and a bound that does not
    contain the point, the call is not rejected by the pre-filter; it goes
    on to count edge crossings. *)
Lemma Contains_fresh_index_not_prefiltered :
  ~ (is_fresh (index_ octant_built) = true ->
     @S2LatLngRect_Contains sample_collab (bound_ octant_built) south_pole = false ->
     path (@Contains sample_collab octant_built south_pole) = BoundReject).
Proof.
  intros H. specialize (H eq_refl eq_refl). vm_compute in H. discriminate.
Qed.

(** With the index of the octant triangle stale, the south pole is
    rejected by the bound. *)
Lemma Contains_bound_prefilter_witness :
  let l := sample_loop octant false 0 north_band (mkS2ShapeIndex 1 false) in
  path (@Contains sample_collab l south_pole) = BoundReject
  /\ answer (@Contains sample_collab l south_pole) = false
  /\ after (@Contains sample_collab l south_pole) = l.
Proof.
  intros l.
  destruct (@Contains_bound_prefilter sample_collab l south_pole)
    as (Hiff & Hrej & _).
  assert (Hp : path (@Contains sample_collab l south_pole) = BoundReject)
    by (apply Hiff; split; reflexivity).
  split; [exact Hp | exact (Hrej Hp)].
Defined.

(** The twentieth unindexed call chooses the index; until it has built
    it, other callers see the loop with 20 calls counted and a stale
    index. *)
Example Contains_choice_twentieth_call :
  @Contains_choice sample_collab ramp33_before north_pole
  = (IndexLookup, ramp33_stale).
Proof. vm_compute. reflexivity. Qed.

(** C2 (as stated) fails: with a stale index and the counter incremented
    to 21, which is not less than 20, the call still uses brute force. *)
Lemma Contains_brute_force_above_threshold :
  ~ (path (@Contains sample_collab ramp33_stale north_pole) = BruteForce <->
     num_shape_ids (index_ ramp33_stale) = 0
     \/ num_vertices ramp33_stale <= 32
     \/ (is_fresh (index_ ramp33_stale) = false
         /\ Barrier_AtomicIncrement (unindexed_contains_calls_ ramp33_stale) 1 < 20)).
Proof.
  intros [H _].
  assert (Hp : path (@Contains sample_collab ramp33_stale north_pole) = BruteForce)
    by (vm_compute; reflexivity).
  destruct (H Hp) as [H0 | [H0 | [_ H0]]]; vm_compute in H0.
  - discriminate.
  - apply H0; reflexivity.
  - discriminate.
Qed.

Lemma Contains_dispatch_witness :
  path (@Contains sample_collab ramp33_stale north_pole) = BruteForce
  /\ unindexed_contains_calls_
       (after (@Contains sample_collab ramp33_stale north_pole)) = 21.
Proof.
  assert (Hrej : path (@Contains sample_collab ramp33_stale north_pole)
                 <> BoundReject) by (vm_compute; discriminate).
  destruct (@Contains_dispatch sample_collab ramp33_stale north_pole Hrej)
    as (Hb & _ & _ & Hc & _).
  split.
  - apply Hb. right; right. split; [reflexivity | vm_compute; discriminate].
  - rewrite Hc; [reflexivity | ].
    repeat split; vm_compute; congruence.
Defined.

(* ================================================================= *)
(** ** Vertex addressing and [FindVertex] *)

Lemma In_Zrange lo len i :
  In i (Zrange lo len) <-> lo <= i < lo + Z.of_nat len.
Proof.
  unfold Zrange. rewrite in_map_iff. split.
  - intros (k & <- & Hk). apply in_seq in Hk. lia.
  - intros H. exists (Z.to_nat (i - lo)). split; [lia | ].
    apply in_seq. lia.
Qed.

Lemma vertex_in_range l i :
  0 <= i < 2 * num_vertices l ->
  vertex l i = nth (Z.to_nat (i mod num_vertices l)) (vertices_ l) no_vertex.
Proof.
  intros H. unfold vertex.
  destruct (Z.leb_spec 0 i); [ | lia].
  destruct (Z.ltb_spec i (2 * num_vertices l)); [reflexivity | lia].
Qed.

(** The second lap of the index range addresses the same vertices. *)
Lemma vertex_wrap l i :
  0 <= i < num_vertices l -> vertex l (i + num_vertices l) = vertex l i.
Proof.
  intros H. rewrite !vertex_in_range by lia.
  replace (i + num_vertices l) with (i + 1 * num_vertices l) by lia.
  rewrite Z.mod_add by lia. reflexivity.
Qed.

Lemma vertex_last_is_first l :
  0 < num_vertices l -> vertex l (num_vertices l) = vertex l 0.
Proof. intros H. apply (vertex_wrap l 0). lia. Qed.

Section VertexFacts.
Context {collab : Collaborators}.

(** The scan of a cell's edges yields -1 or the index, in [1, n], of a
    vertex that equals [p]. *)
Lemma FindVertex_edges_range l p edges :
  (forall ai, In ai edges -> 0 <= ai < num_vertices l) ->
  FindVertex_edges l p edges = -1
  \/ (1 <= FindVertex_edges l p edges <= num_vertices l
      /\ S2Point_eqb (vertex l (FindVertex_edges l p edges)) p = true).
Proof.
  induction edges as [ | ai rest IH]; intros Hr; simpl; [now left | ].
  assert (Hai : 0 <= ai < num_vertices l) by (apply Hr; now left).
  destruct (S2Point_eqb (vertex l ai) p) eqn:E0.
  - right. destruct (Z.eqb_spec ai 0) as [-> | Hne].
    + split; [lia | ]. rewrite vertex_last_is_first by lia. exact E0.
    + split; [lia | exact E0].
  - destruct (S2Point_eqb (vertex l (ai + 1)) p) eqn:E1.
    + right. split; [lia | exact E1].
    + apply IH. intros a Ha. apply Hr. now right.
Qed.



End VertexFacts.


(** On the octant triangle the exhaustive search reports vertex 0 as 3. *)
Example FindVertex_octant_first :
  @FindVertex sample_collab octant_built (mkS2Point 1 0 0) = 3.
Proof. vm_compute. reflexivity. Qed.

Example FindVertex_octant_absent :
  @FindVertex sample_collab octant_built south_pole = -1.
Proof. vm_compute. reflexivity. Qed.

(** C10 (as stated) fails: on the ring A B A C the point A equals vertex 0
    and vertex 2; the search starts at index 1 and returns 2, not
    [num_vertices] = 4. *)
Lemma FindVertex_repeated_vertex_not_last :
  let A := mkS2Point 1 0 0 in
  let l := sample_loop [A; mkS2Point 0 1 0; A; mkS2Point 0 0 1] false 0
                       north_band (mkS2ShapeIndex 1 true) in
  S2Point_eqb (vertex l 0) A = true
  /\ @FindVertex sample_collab l A = 2
  /\ @FindVertex sample_collab l A <> num_vertices l.
Proof.
  split; [vm_compute; reflexivity | split; [vm_compute; reflexivity | ]].
  vm_compute. discriminate.
Qed.

(* ================================================================= *)
(** ** Area *)

Lemma double_ltb_leb (a b : float) :
  PrimFloat.ltb a b = true -> PrimFloat.leb a b = true.
Proof.
  rewrite FloatAxioms.ltb_spec, FloatAxioms.leb_spec.
  unfold SFltb, SFleb. destruct (SFcompare _ _) as [[ | | ] | ]; congruence.
Qed.

(** [max(lo, min(hi, a))] lies between [lo] and [hi] whenever [lo <= hi],
    for every double [a], a NaN included. *)
Lemma clamp_bounds (lo hi a : float) :
  PrimFloat.leb lo lo = true -> PrimFloat.leb lo hi = true ->
  PrimFloat.leb hi hi = true ->
  PrimFloat.leb lo (std_max lo (std_min hi a)) = true
  /\ PrimFloat.leb (std_max lo (std_min hi a)) hi = true.
Proof.
  intros Hll Hlh Hhh. unfold std_max, std_min.
  destruct (PrimFloat.ltb a hi) eqn:Eah.
  - destruct (PrimFloat.ltb lo a) eqn:Ela.
    + split; now apply double_ltb_leb.
    + split; assumption.
  - destruct (PrimFloat.ltb lo hi) eqn:Elh; split; assumption.
Qed.

Section AreaFacts.
Context {collab : Collaborators}.

(** C3: [GetArea] of a sentinel is 0 (empty) or 4 pi (full).  Otherwise,
    with [signed] the surface integral of the signed area, [max_err] =
    9.73 * epsilon * n, [shifted] = [signed] plus 4 pi when [signed < 0], and
    [area] = [shifted] clamped to [0, 4 pi] (it lies in that range, and is
    [shifted] itself when that lies strictly inside): the result is 4 pi when
    [area < max_err] and the loop is not normalized, 0 when
    [area > 4 pi - max_err] and the loop is normalized, and [area]
    otherwise.  A loop is normalized iff its longitude span is below pi or
    its turning angle is at least minus the maximal turning-angle error. *)
Theorem GetArea_spec (l : S2Loop) :
  let signed := GetSurfaceIntegral_SignedArea (vertices_ l) in
  let max_err :=
    (0x1.375c28f5c28f6p+3 * DBL_EPSILON * double_of_int (num_vertices l))%float in
  let shifted :=
    if PrimFloat.ltb signed 0 then (signed + 4 * M_PI)%float else signed in
  let area := std_max 0 (std_min (4 * M_PI) shifted) in
  (is_empty l = true -> GetArea l = 0%float)
  /\ (is_full l = true -> GetArea l = (4 * M_PI)%float)
  /\ (PrimFloat.leb 0 area = true /\ PrimFloat.leb area (4 * M_PI) = true
      /\ (PrimFloat.ltb 0 shifted = true ->
          PrimFloat.ltb shifted (4 * M_PI) = true -> area = shifted))
  /\ (is_empty_or_full l = false ->
      (PrimFloat.ltb area max_err = true -> IsNormalized l = false ->
         GetArea l = (4 * M_PI)%float)
      /\ (PrimFloat.ltb (4 * M_PI - max_err) area = true ->
          IsNormalized l = true -> GetArea l = 0%float)
      /\ (~ (PrimFloat.ltb area max_err = true /\ IsNormalized l = false) ->
          ~ (PrimFloat.ltb (4 * M_PI - max_err) area = true
             /\ IsNormalized l = true) ->
          GetArea l = area))
  /\ (IsNormalized l = true <->
        PrimFloat.ltb (S1Interval_GetLength (lng (bound_ l))) M_PI = true
        \/ PrimFloat.leb (- max_err) (GetTurningAngle l) = true).
Proof.
  intros signed max_err shifted area.
  split; [ | split; [ | split; [ | split]]].
  - unfold is_empty, GetArea. intros H. apply andb_prop in H as [H1 H2].
    rewrite H1. apply negb_true_iff in H2. rewrite H2. reflexivity.
  - unfold is_full, GetArea. intros H. apply andb_prop in H as [H1 H2].
    rewrite H1, H2. reflexivity.
  - destruct (clamp_bounds 0 (4 * M_PI) shifted) as [Hlo Hhi];
      try (vm_compute; reflexivity).
    repeat (apply conj); [exact Hlo | exact Hhi | ].
    intros H0 H4. unfold area, std_max, std_min. rewrite H4, H0. reflexivity.
  - intros Hs. unfold GetArea. rewrite Hs.
    change (GetTurningAngleMaxError l) with max_err.
    fold signed. fold shifted. fold area. unfold double_gt.
    split; [ | split].
    + intros H1 H2. rewrite H1, H2. reflexivity.
    + intros H1 H2. rewrite H1, H2.
      destruct (PrimFloat.ltb area max_err); reflexivity.
    + intros N1 N2.
      destruct (PrimFloat.ltb area max_err) eqn:E1,
               (IsNormalized l) eqn:E2,
               (PrimFloat.ltb (4 * M_PI - max_err) area) eqn:E3;
        simpl; try reflexivity; exfalso; auto.
  - unfold IsNormalized, double_ge.
    change (GetTurningAngleMaxError l) with max_err.
    destruct (PrimFloat.ltb _ M_PI); [tauto | ].
    split; [auto | intros [H | H]; [discriminate | exact H]].
Qed.

End AreaFacts.

(** The areas of the two sentinels, and of the octant triangle under the
    sample collaborators (whose surface integral is the constant 0.5). *)
Example GetArea_empty :
  @GetArea sample_collab
    (sample_loop [kEmptyVertex] false 0 S2LatLngRect_Empty (mkS2ShapeIndex 1 false))
  = 0%float.
Proof. vm_compute. reflexivity. Qed.

Example GetArea_full :
  @GetArea sample_collab
    (sample_loop [kFullVertex] true 0 S2LatLngRect_Full (mkS2ShapeIndex 1 false))
  = (4 * M_PI)%float.
Proof. vm_compute. reflexivity. Qed.

Lemma GetArea_spec_witness :
  @GetArea sample_collab
    (sample_loop [kFullVertex] true 0 S2LatLngRect_Full (mkS2ShapeIndex 1 false))
  = (4 * M_PI)%float.
Proof.
  destruct (@GetArea_spec sample_collab
              (sample_loop [kFullVertex] true 0 S2LatLngRect_Full
                           (mkS2ShapeIndex 1 false))) as (_ & Hfull & _).
  apply Hfull. reflexivity.
Defined.

Example GetArea_octant : @GetArea sample_collab octant_built = 0.5%float.
Proof. vm_compute. reflexivity. Qed.

(* ================================================================= *)
(** ** Fixed-width fields *)

Lemma Z_of_byte_range b : 0 <= Z_of_byte b < 256.
Proof.
  unfold Z_of_byte. pose proof (Byte.to_N_bounded b). lia.
Qed.

Lemma Z_of_byte_of_Z v : Z_of_byte (byte_of_Z v) = v mod 256.
Proof.
  unfold Z_of_byte, byte_of_Z.
  pose proof (Z.mod_pos_bound v 256 ltac:(lia)) as Hr.
  destruct (Byte.of_N (Z.to_N (v mod 256))) as [b | ] eqn:E.
  - apply Byte.to_of_N in E. rewrite E. lia.
  - apply Byte.of_N_None_iff in E. lia.
Qed.

Lemma put_le_length w v : length (put_le w v) = w.
Proof. revert v. induction w; intros v; simpl; auto. Qed.

Lemma get_le_put_le_mod w v rest :
  get_le w (put_le w v ++ rest) = (v mod 256 ^ Z.of_nat w, rest).
Proof.
  revert v. induction w as [ | k IH]; intros v.
  - simpl. now rewrite Z.mod_1_r.
  - cbn [put_le get_le app]. rewrite IH, Z_of_byte_of_Z. f_equal.
    rewrite Nat2Z.inj_succ, Z.pow_succ_r by lia.
    rewrite Z.rem_mul_r by lia. reflexivity.
Qed.

Lemma get_le_put_le w v rest :
  0 <= v < 256 ^ Z.of_nat w -> get_le w (put_le w v ++ rest) = (v, rest).
Proof.
  intros Hv. rewrite get_le_put_le_mod. now rewrite Z.mod_small.
Qed.

Lemma avail_app (a b : list byte) : avail (a ++ b) = avail a + avail b.
Proof. unfold avail. rewrite length_app. lia. Qed.

Lemma avail_put_le w v : avail (put_le w v) = Z.of_nat w.
Proof. unfold avail. now rewrite put_le_length. Qed.

Lemma avail_nonneg (d : Decoder) : 0 <= avail d.
Proof. unfold avail. lia. Qed.

Lemma wrap_uint32_small v : 0 <= v < 2 ^ 32 -> wrap_uint32 v = v.
Proof. intros H. unfold wrap_uint32. now apply Z.mod_small. Qed.



(* ================================================================= *)
(** ** [InitIndex] and the validation it may run *)

Section InitIndexFacts.
Context {collab : Collaborators} {flags : Flags}.

(** Validation looks at the vertices only (the index it hands to
    [FindSelfIntersection] is built from them and [origin_inside_]). *)
Lemma FindValidationErrorNoIndex_ext l l' :
  vertices_ l = vertices_ l' ->
  FindValidationErrorNoIndex l = FindValidationErrorNoIndex l'.
Proof.
  intros Hv. unfold FindValidationErrorNoIndex, is_empty_or_full, num_vertices,
    vertex, num_vertices. rewrite Hv. reflexivity.
Qed.

Lemma passes_validation_ext l l' :
  vertices_ l = vertices_ l' -> origin_inside_ l = origin_inside_ l' ->
  passes_validation l = passes_validation l'.
Proof.
  intros Hv Ho. unfold passes_validation, FindValidationError.
  rewrite (FindValidationErrorNoIndex_ext l l' Hv), Hv, Ho.
  destruct (FindValidationErrorNoIndex l'); reflexivity.
Qed.

(** [InitIndex] adds the shape of the loop to the index.  When it
    validates, it returns only for a loop that passes, and the index is
    then built; otherwise the index is built at once or not according to
    the lazy-indexing flag. *)
Lemma InitIndex_spec l :
  InitIndex l = if validates l
                then (if passes_validation l then Some (index_built l) else None)
                else Some (index_added l).
Proof.
  unfold InitIndex, validates, index_built, index_added. cbv zeta.
  assert (Ho : forall ix, s2debug_override_ (set_index l ix) = s2debug_override_ l)
    by reflexivity.
  destruct FLAGS_s2loop_lazy_indexing; cbn [negb];
    cbn [s2debug_override_ set_index index_ S2ShapeIndex_Add
         S2ShapeIndex_ForceApplyUpdates num_shape_ids];
    (destruct (FLAGS_s2debug && _); [ | reflexivity]);
    match goal with
    | |- (let '(_, _) := IsValid ?l1 in _) = _ =>
        rewrite (passes_validation_ext l l1) by reflexivity;
        unfold passes_validation, IsValid, FindValidationError;
        destruct (FindValidationErrorNoIndex l1); cbn [fst negb];
        [reflexivity | ];
        destruct (s2shapeutil_FindSelfIntersection _ _); reflexivity
    end.
Qed.

Lemma InitIndex_Some l l1 :
  InitIndex l = Some l1 ->
  l1 = (if validates l then index_built l else index_added l)
  /\ (validates l = true -> passes_validation l = true).
Proof.
  rewrite InitIndex_spec. destruct (validates l).
  - destruct (passes_validation l); [ | discriminate].
    intros [= <-]. auto.
  - intros [= <-]. split; [reflexivity | discriminate].
Qed.

(** [InitIndex] touches nothing but the index, to which it adds one
    shape. *)
Lemma InitIndex_frame l l1 :
  InitIndex l = Some l1 ->
  vertices_ l1 = vertices_ l /\ origin_inside_ l1 = origin_inside_ l
  /\ owns_vertices_ l1 = owns_vertices_ l /\ depth_ l1 = depth_ l
  /\ bound_ l1 = bound_ l /\ subregion_bound_ l1 = subregion_bound_ l
  /\ unindexed_contains_calls_ l1 = unindexed_contains_calls_ l
  /\ s2debug_override_ l1 = s2debug_override_ l
  /\ num_shape_ids (index_ l1) = num_shape_ids (index_ l) + 1
  /\ is_fresh (index_ l1) = validates l || negb FLAGS_s2loop_lazy_indexing.
Proof.
  intros H. apply InitIndex_Some in H as [-> _].
  destruct (validates l); repeat split.
Qed.



End InitIndexFacts.

Section DecoderFacts.
Context {collab : Collaborators} {flags : Flags} {codec : CodecCollaborators}.

(** The lossless decoder on an input that starts with the version byte and
    a vertex count. *)
Lemma Decode_version_header l n rest ws :
  0 <= n < 2 ^ 32 ->
  Decode_version l (put_le 1 1 ++ put_le 4 n ++ rest) ws =
  if n >? wrap_uint32 FLAGS_s2polygon_decode_max_num_vertices
  then Some (false, l, rest)
  else DecodeInternal l (put_le 4 n ++ rest) ws.
Proof.
  intros Hn. unfold Decode_version.
  rewrite avail_app, avail_put_le.
  pose proof (avail_nonneg (put_le 4 n ++ rest)).
  destruct (Z.ltb_spec (Z.of_nat 1 + avail (put_le 4 n ++ rest)) 1); [lia | ].
  unfold get8. rewrite get_le_put_le by (simpl; lia).
  change (1 =? kCurrentLosslessEncodingVersionNumber) with true. cbv iota.
  destruct (n >? _) eqn:E; [ | reflexivity].
  unfold DecodeInternal.
  rewrite avail_app, avail_put_le.
  pose proof (avail_nonneg rest).
  destruct (Z.ltb_spec (Z.of_nat 4 + avail rest) 4); [lia | ].
  unfold get32. rewrite get_le_put_le by (simpl; lia).
  rewrite E. reflexivity.
Qed.

(** C9: the two decoders disagree on a vertex count of zero.
    [DecodeCompressed] returns false whenever the decoded count is zero;
    [Decode] accepts the encoding of zero vertices (given a bound that
    decodes) and yields a loop without vertices whose index holds no shape,
    that is an uninitialized loop.  Both return false on a count above
    [decode_max_num_vertices]. *)
Theorem decoders_on_zero_and_limit (l : S2Loop) :
  0 <= FLAGS_s2polygon_decode_max_num_vertices < 2 ^ 31 ->
  (forall d d' lvl, get_varint32 d = Some (0, d') ->
     DecodeCompressed l d lvl = Some (false, l, d'))
  /\ (forall oi dep tail b d',
        0 <= oi < 256 -> 0 <= dep < 2 ^ 32 ->
        S2LatLngRect_Decode (bound_ l) tail = (true, b, d') ->
        exists l',
          Decode l (put_le 1 1 ++ put_le 4 0 ++ put_le 1 oi ++ put_le 4 dep ++ tail)
          = Some (true, l', d')
          /\ vertices_ l' = [] /\ num_shape_ids (index_ l') = 0)
  /\ (forall n rest,
        FLAGS_s2polygon_decode_max_num_vertices < n < 2 ^ 32 ->
        Decode l (put_le 1 1 ++ put_le 4 n ++ rest) = Some (false, l, rest))
  /\ (forall d n d' lvl, get_varint32 d = Some (n, d') ->
        FLAGS_s2polygon_decode_max_num_vertices < n ->
        DecodeCompressed l d lvl = Some (false, l, d')).
Proof.
  intros Hflag.
  assert (Hw : wrap_uint32 FLAGS_s2polygon_decode_max_num_vertices
               = FLAGS_s2polygon_decode_max_num_vertices)
    by (apply wrap_uint32_small; lia).
  split; [ | split; [ | split]].
  - intros d d' lvl Hv. unfold DecodeCompressed. rewrite Hv. reflexivity.
  - intros oi dep tail b d' Hoi Hdep Hb.
    unfold Decode. rewrite Decode_version_header by lia. rewrite Hw.
    destruct (Z.gtb_spec 0 FLAGS_s2polygon_decode_max_num_vertices); [lia | ].
    unfold DecodeInternal.
    rewrite !avail_app, !avail_put_le.
    pose proof (avail_nonneg tail).
    destruct (Z.ltb_spec (Z.of_nat 4 + (Z.of_nat 1 + (Z.of_nat 4 + avail tail))) 4);
      [lia | ].
    unfold get32 at 1. rewrite get_le_put_le by (simpl; lia). rewrite Hw.
    destruct (Z.gtb_spec 0 FLAGS_s2polygon_decode_max_num_vertices); [lia | ].
    rewrite !avail_app, !avail_put_le.
    destruct (Z.ltb_spec (Z.of_nat 1 + (Z.of_nat 4 + avail tail))
                         (0 * sizeof_S2Point + 1 + 4)); [unfold sizeof_S2Point in *; lia | ].
    change (wrap_int32 0 <? 0) with false. cbv iota.
    cbn [Z.to_nat getn_S2Points].
    unfold get8. rewrite get_le_put_le by (simpl; lia).
    unfold get32. rewrite get_le_put_le by (simpl; lia).
    cbn [bound_ set_depth set_origin_inside set_vertices ResetMutableFields
         set_index set_calls].
    rewrite Hb. cbn [negb].
    change (0 >? 0) with false. cbv iota.
    eexists. split; [reflexivity | ]. split; reflexivity.
  - intros n rest Hn. unfold Decode.
    rewrite Decode_version_header by lia. rewrite Hw.
    destruct (Z.gtb_spec n FLAGS_s2polygon_decode_max_num_vertices);
      [reflexivity | lia].
  - intros d n d' lvl Hv Hn. unfold DecodeCompressed. rewrite Hv, Hw.
    destruct (Z.gtb_spec n FLAGS_s2polygon_decode_max_num_vertices); [ | lia].
    rewrite orb_true_r. reflexivity.
Qed.

End DecoderFacts.

Section DecodeFailure.
Context {collab : Collaborators} {flags : Flags} {codec : CodecCollaborators}.

(** A lossless decode that passes its early checks and still returns false
    has failed in [bound_.Decode], after the loop was written. *)
Lemma Decode_version_late_failure l d within_scope l' d' :
  lossless_checks_pass d = true ->
  Decode_version l d within_scope = Some (false, l', d') ->
  let n := fst (get32 (snd (get8 d))) in
  unindexed_contains_calls_ l' = 0
  /\ index_ l' = mkS2ShapeIndex 0 true
  /\ vertices_ l' = fst (getn_S2Points (Z.to_nat n) (snd (get32 (snd (get8 d))))).
Proof.
  unfold lossless_checks_pass, Decode_version, DecodeInternal.
  unfold kCurrentLosslessEncodingVersionNumber, sizeof_S2Point.
  intros H.
  apply andb_prop in H as [H Hlen]. apply andb_prop in H as [H Hlim].
  apply andb_prop in H as [H Hcnt]. apply andb_prop in H as [Hav Hver].
  destruct (get8 d) as [version d1]. cbn [fst snd] in *.
  destruct (get32 d1) as [n d2]. cbn [fst snd] in *.
  destruct (Z.ltb_spec (avail d) 1); [lia | ].
  rewrite Hver.
  destruct (Z.ltb_spec (avail d1) 4); [lia | ].
  destruct (Z.gtb_spec n (wrap_uint32 FLAGS_s2polygon_decode_max_num_vertices));
    [lia | ].
  destruct (Z.ltb_spec (avail d2) (n * 24 + 1 + 4)); [lia | ].
  destruct (wrap_int32 n <? 0); [discriminate | ].
  destruct (getn_S2Points (Z.to_nat n) d2) as [vs d3].
  destruct (get8 d3) as [oi d4]. destruct (get32 d4) as [dep d5].
  destruct (S2LatLngRect_Decode _ d5) as [[ok b] d6].
  destruct ok; cbn [negb fst snd].
  - destruct (n >? 0); [destruct (InitIndex _) | ]; discriminate.
  - intros [= <- <-]. repeat split.
Qed.

(** The value of a varint of at most five bytes fits 32 bits. *)
Lemma get_varint_range fuel d n d' :
  get_varint fuel d = Some (n, d') -> 0 <= n < 16 * 128 ^ (Z.of_nat fuel - 1).
Proof.
  revert d n d'. induction fuel as [ | k IH]; intros d n d'; [discriminate | ].
  destruct d as [ | b r]; [discriminate | ].
  cbn [get_varint]. pose proof (Z_of_byte_range b) as Hb.
  replace (Z.of_nat (S k) - 1) with (Z.of_nat k) by lia.
  destruct k as [ | k'].
  - destruct (Z.ltb_spec (Z_of_byte b) 16); [ | discriminate].
    intros [= <- <-]. simpl. lia.
  - assert (Hp : 128 <= 16 * 128 ^ Z.of_nat (S k')).
    { rewrite Nat2Z.inj_succ, Z.pow_succ_r by lia.
      assert (0 < 128 ^ Z.of_nat k') by (apply Z.pow_pos_nonneg; lia). lia. }
    destruct (Z.ltb_spec (Z_of_byte b) 128).
    + intros [= <- <-]. lia.
    + destruct (get_varint (S k') r) as [[hi r'] | ] eqn:E; [ | discriminate].
      intros [= <- <-]. apply IH in E.
      replace (Z.of_nat (S k') - 1) with (Z.of_nat k') in E by lia.
      rewrite Nat2Z.inj_succ, Z.pow_succ_r by lia.
      change (0 <= Z_of_byte b - 128 + 128 * hi < 16 * (128 * 128 ^ Z.of_nat k')).
      lia.
Qed.

Lemma get_varint32_range d n d' :
  get_varint32 d = Some (n, d') -> 0 <= n < 2 ^ 32.
Proof.
  intros H. apply get_varint_range in H. simpl in H. lia.
Qed.

(** A compressed decode that passes the check of the count and still
    returns false has by then reset the loop and given it a new vertex
    array. *)
Lemma DecodeCompressed_late_failure l d snap_level l' d' :
  compressed_count_ok d = true ->
  DecodeCompressed l d snap_level = Some (false, l', d') ->
  unindexed_contains_calls_ l' = 0
  /\ index_ l' = mkS2ShapeIndex 0 true
  /\ owns_vertices_ l' = true
  /\ exists n d1,
       get_varint32 d = Some (n, d1)
       /\ vertices_ l'
          = snd (fst (S2DecodePointsCompressed
                        d1 snap_level (repeat no_vertex (Z.to_nat n)))).
Proof.
  unfold compressed_count_ok, DecodeCompressed.
  destruct (get_varint32 d) as [[n d1] | ] eqn:Ev; [ | discriminate].
  pose proof (get_varint32_range _ _ _ Ev) as Hn.
  intros H. apply andb_prop in H as [H0 H1].
  apply negb_true_iff in H0. rewrite H0. cbn [orb].
  destruct (Z.gtb_spec n (wrap_uint32 FLAGS_s2polygon_decode_max_num_vertices));
    [lia | ].
  cbv zeta.
  destruct (Z.ltb_spec (wrap_int32 n) 0) as [ | Hw]; [discriminate | ].
  assert (Ew : wrap_int32 n = n).
  { unfold wrap_int32 in *.
    destruct (Z.lt_ge_cases n (2 ^ 31)) as [Hs | Hb].
    - rewrite Z.mod_small by lia. lia.
    - exfalso. replace (n + 2 ^ 31) with (n - 2 ^ 31 + 1 * 2 ^ 32) in Hw by lia.
      rewrite Z.mod_add in Hw by lia. rewrite Z.mod_small in Hw by lia. lia. }
  rewrite Ew.
  cbn [vertices_ set_vertices].
  destruct (S2DecodePointsCompressed _ _ _) as [[ok vs] d2] eqn:Ep.
  assert (Hex : exists n0 d0,
            Some (n, d1) = Some (n0, d0)
            /\ vs = snd (fst (S2DecodePointsCompressed
                                d0 snap_level (repeat no_vertex (Z.to_nat n0)))))
    by (exists n, d1; rewrite Ep; auto).
  destruct ok; cbn [negb fst snd];
    [ | intros [= <- <-]; repeat (apply conj); try reflexivity; exact Hex].
  destruct (get_varint32 d2) as [[props d3] | ];
    [ | intros [= <- <-]; repeat (apply conj); try reflexivity; exact Hex].
  destruct (get_varint32 d3) as [[dep d4] | ];
    [ | intros [= <- <-]; repeat (apply conj); try reflexivity; exact Hex].
  destruct (Z.testbit props kBoundEncoded);
    [ | destruct (InitIndex _); discriminate].
  destruct (S2LatLngRect_Decode _ d4) as [[ok b] d5].
  destruct ok; cbn [negb fst snd]; [destruct (InitIndex _); discriminate | ].
  intros [= <- <-]; repeat (apply conj); try reflexivity; exact Hex.
Qed.

(** C4 (amended): a decode that fails one of the checks made before the
    first write returns false and leaves the loop as it was.  For [Decode]
    and [DecodeWithinScope] these are the version, count, limit and length
    checks; for [DecodeCompressed] it is the check of the count.  Put the
    other way round, a decode that returns with a different loop has passed
    these checks.  A decode that returns false after these checks has reset
    the call counter and the index of the loop and replaced its vertices. *)
Theorem Decode_failure_before_commit (l : S2Loop) (d : Decoder)
    (within_scope : bool) (snap_level : Z) :
  (lossless_checks_pass d = false ->
     exists d', Decode_version l d within_scope = Some (false, l, d'))
  /\ (forall b l' d',
        Decode_version l d within_scope = Some (b, l', d') -> l' <> l ->
        lossless_checks_pass d = true)
  /\ (compressed_count_ok d = false ->
      exists d', DecodeCompressed l d snap_level = Some (false, l, d'))
  /\ (forall b l' d',
        DecodeCompressed l d snap_level = Some (b, l', d') -> l' <> l ->
        compressed_count_ok d = true)
  /\ (lossless_checks_pass d = true ->
      forall l' d',
        Decode_version l d within_scope = Some (false, l', d') ->
        unindexed_contains_calls_ l' = 0 /\ index_ l' = mkS2ShapeIndex 0 true
        /\ vertices_ l'
           = fst (getn_S2Points (Z.to_nat (fst (get32 (snd (get8 d)))))
                                (snd (get32 (snd (get8 d))))))
  /\ (compressed_count_ok d = true ->
      forall l' d',
        DecodeCompressed l d snap_level = Some (false, l', d') ->
        unindexed_contains_calls_ l' = 0 /\ index_ l' = mkS2ShapeIndex 0 true
        /\ owns_vertices_ l' = true
        /\ exists n d1,
             get_varint32 d = Some (n, d1)
             /\ vertices_ l'
                = snd (fst (S2DecodePointsCompressed
                              d1 snap_level (repeat no_vertex (Z.to_nat n))))).
Proof.
  assert (H1 : lossless_checks_pass d = false ->
               exists d', Decode_version l d within_scope = Some (false, l, d')).
  { unfold lossless_checks_pass, Decode_version, DecodeInternal.
    unfold kCurrentLosslessEncodingVersionNumber, sizeof_S2Point.
    intros H.
    destruct (Z.ltb_spec (avail d) 1) as [ | Ha]; [eexists; reflexivity | ].
    destruct (get8 d) as [version d1]. cbn [fst snd] in H.
    destruct (Z.eqb_spec version 1) as [-> | ]; [ | eexists; reflexivity].
    destruct (Z.ltb_spec (avail d1) 4) as [ | Hb]; [eexists; reflexivity | ].
    destruct (get32 d1) as [n d2]. cbn [fst snd] in H.
    destruct (Z.gtb_spec n (wrap_uint32 FLAGS_s2polygon_decode_max_num_vertices))
      as [ | Hc]; [eexists; reflexivity | ].
    destruct (Z.ltb_spec (avail d2) (n * 24 + 1 + 4)) as [ | Hd];
      [eexists; reflexivity | exfalso].
    apply andb_false_iff in H as [H | H];
      [apply andb_false_iff in H as [H | H];
       [apply andb_false_iff in H as [H | H];
        [apply andb_false_iff in H as [H | H] | ] | ] | ].
    - apply Z.leb_gt in H. lia.
    - discriminate.
    - apply Z.leb_gt in H. lia.
    - apply Z.leb_gt in H. lia.
    - apply Z.leb_gt in H. lia. }
  assert (H2 : compressed_count_ok d = false ->
               exists d', DecodeCompressed l d snap_level = Some (false, l, d')).
  { unfold compressed_count_ok, DecodeCompressed. intros H.
    destruct (get_varint32 d) as [[n d1] | ]; [ | eexists; reflexivity].
    destruct (Z.eqb_spec n 0); [eexists; reflexivity | ].
    cbn [negb andb orb] in *.
    apply Z.leb_gt in H.
    destruct (Z.gtb_spec n (wrap_uint32 FLAGS_s2polygon_decode_max_num_vertices));
      [eexists; reflexivity | lia]. }
  split; [exact H1 | ]. split; [ | split; [exact H2 | split; [ | split]]].
  - intros b l' d' E Hne. destruct (lossless_checks_pass d); [reflexivity | ].
    exfalso. apply Hne. destruct (H1 eq_refl) as [d0 E0]. congruence.
  - intros b l' d' E Hne. destruct (compressed_count_ok d); [reflexivity | ].
    exfalso. apply Hne. destruct (H2 eq_refl) as [d0 E0]. congruence.
  - intros Hp l' d' E. exact (Decode_version_late_failure _ _ _ _ _ Hp E).
  - intros Hp l' d' E. exact (DecodeCompressed_late_failure _ _ _ _ _ Hp E).
Qed.

End DecodeFailure.

(* ----------------------------------------------------------------- *)
(** *** Concrete runs of the decoders *)

Lemma decoders_on_zero_and_limit_witness :
  @DecodeCompressed sample_collab default_flags sample_codec
    octant_built [x00] 0 = Some (false, octant_built, []).
Proof.
  assert (Hflag : 0 <= @FLAGS_s2polygon_decode_max_num_vertices default_flags
                  < 2 ^ 31) by (simpl; lia).
  apply (proj1 (@decoders_on_zero_and_limit sample_collab default_flags
                  sample_codec octant_built Hflag) [x00] [] 0).
  reflexivity.
Defined.

(** The lossless encoding of zero vertices (with reference-point byte 0,
    depth 0 and the sample encoding of the empty rectangle) decodes. *)
Example Decode_zero_vertices :
  let input := put_le 1 1 ++ put_le 4 0 ++ put_le 1 0 ++ put_le 4 0
               ++ sample_rect_encode S2LatLngRect_Empty in
  exists l',
    @Decode sample_collab default_flags sample_codec octant_built input
    = Some (true, l', [])
    /\ vertices_ l' = [] /\ index_ l' = mkS2ShapeIndex 0 true.
Proof.
  eexists. split; [vm_compute; reflexivity | ].
  vm_compute. repeat split; reflexivity.
Qed.

(** A count of zero fails the first check of the compressed decoder, and
    the loop stays as it was. *)
Lemma Decode_failure_before_commit_witness :
  exists d',
    @DecodeCompressed sample_collab default_flags sample_codec
      octant_built [x00] 0 = Some (false, octant_built, d').
Proof.
  destruct (@Decode_failure_before_commit sample_collab default_flags
              sample_codec octant_built [x00] false 0) as (_ & _ & Hcount & _).
  apply Hcount. reflexivity.
Defined.

(** C4 (as stated) fails: the compressed decoder reads the count 5, resets
    the loop and allocates five vertices, and then fails because the
    points are missing.  It returns false, and the loop, which had three
    vertices, now has five. *)
Lemma DecodeCompressed_failure_commits :
  ~ (forall l' d',
       @DecodeCompressed sample_collab default_flags sample_codec
         octant_built [x05] 0 = Some (false, l', d') ->
       l' = octant_built).
Proof.
  intros H.
  assert (E : exists l' d',
             @DecodeCompressed sample_collab default_flags sample_codec
               octant_built [x05] 0 = Some (false, l', d')
             /\ num_vertices l' = 5)
    by (eexists; eexists; split; vm_compute; reflexivity).
  destruct E as (l' & d' & E & Hn).
  rewrite (H l' d' E) in Hn. vm_compute in Hn. discriminate.
Qed.

(* ================================================================= *)
(** ** Inversion *)

Section InvertFacts.
Context {collab : Collaborators} {flags : Flags}.

(** [Contains] touches nothing but the call counter and the index. *)
Lemma Contains_frame l p :
  vertices_ (after (Contains l p)) = vertices_ l
  /\ origin_inside_ (after (Contains l p)) = origin_inside_ l
  /\ owns_vertices_ (after (Contains l p)) = owns_vertices_ l
  /\ depth_ (after (Contains l p)) = depth_ l.
Proof.
  unfold Contains.
  repeat match goal with
         | |- context [if ?c then _ else _] => destruct c
         end;
    rewrite ?Contains_indexed_after; simpl; auto.
Qed.

(** On a reset index (no shape, fresh) [Contains] is the brute-force count
    and changes nothing. *)
Lemma Contains_reset_index l p :
  index_ l = mkS2ShapeIndex 0 true -> Contains l p = Contains_brute l p.
Proof. intros H. unfold Contains. rewrite H. reflexivity. Qed.

Lemma InitBound_frame l :
  vertices_ (InitBound l) = vertices_ l
  /\ origin_inside_ (InitBound l) = origin_inside_ l
  /\ owns_vertices_ (InitBound l) = owns_vertices_ l
  /\ depth_ (InitBound l) = depth_ l.
Proof.
  unfold InitBound.
  destruct (is_empty_or_full l); [destruct (is_empty l); simpl; auto | ].
  cbv zeta.
  pose proof (Contains_frame l (mkS2Point 0 0 1)) as (H1 & H2 & H3 & H4).
  destruct (S1Interval_is_full _).
  - pose proof (Contains_frame (after (Contains l (mkS2Point 0 0 1)))
                               (mkS2Point 0 0 (-1))) as (K1 & K2 & K3 & K4).
    simpl. repeat split; congruence.
  - simpl. auto.
Qed.



(** With a reset index the bounds that [InitBound] derives are a function
    of the vertices and of [origin_inside_] alone. *)
Lemma InitBound_ext l l' :
  vertices_ l = vertices_ l' -> origin_inside_ l = origin_inside_ l' ->
  index_ l = mkS2ShapeIndex 0 true -> index_ l' = mkS2ShapeIndex 0 true ->
  bound_ (InitBound l) = bound_ (InitBound l')
  /\ subregion_bound_ (InitBound l) = subregion_bound_ (InitBound l').
Proof.
  intros Hvs Hoi Hix Hix'.
  unfold InitBound, is_empty_or_full, is_empty, contains_origin. cbv zeta.
  rewrite (Contains_reset_index l _ Hix), (Contains_reset_index l' _ Hix').
  cbn [after answer Contains_brute].
  rewrite (Contains_reset_index l _ Hix), (Contains_reset_index l' _ Hix').
  cbn [after answer Contains_brute].
  unfold BruteForceContains, is_empty_or_full, vertex, num_vertices.
  rewrite Hvs, Hoi.
  repeat match goal with
         | |- context [if ?c then _ else _] => destruct c
         end; simpl; auto.
Qed.

(** The fields of an inverted loop. *)
Lemma Invert_fields l l1 :
  Invert l = Some l1 ->
  owns_vertices_ l = true /\ owns_vertices_ l1 = true
  /\ depth_ l1 = depth_ l
  /\ origin_inside_ l1 = negb (origin_inside_ l)
  /\ vertices_ l1 =
       (if is_empty_or_full l
        then (if is_full l then kEmptyVertex else kFullVertex) :: tl (vertices_ l)
        else rev (vertices_ l))
  /\ (clear_of_poles (bound_ l) = true ->
      bound_ l1 = S2LatLngRect_Full /\ subregion_bound_ l1 = S2LatLngRect_Full)
  /\ (clear_of_poles (bound_ l) = false ->
      forall l', vertices_ l' = vertices_ l1 ->
                 origin_inside_ l' = origin_inside_ l1 ->
                 index_ l' = mkS2ShapeIndex 0 true ->
                 bound_ l1 = bound_ (InitBound l')
                 /\ subregion_bound_ l1 = subregion_bound_ (InitBound l')).
Proof.
  unfold Invert. destruct (owns_vertices_ l) eqn:Ho; [ | discriminate].
  cbn [negb]. cbv zeta. intros H.
  apply InitIndex_frame in H as (Fv & Foi & Fow & Fd & Fb & Fsb & _).
  rewrite Fv, Foi, Fow, Fd, Fb, Fsb. clear Fv Foi Fow Fd Fb Fsb.
  change (is_empty_or_full (ResetMutableFields l)) with (is_empty_or_full l).
  change (is_full (ResetMutableFields l)) with (is_full l).
  destruct (is_empty_or_full l) eqn:Eef;
    cbn [origin_inside_ bound_ vertices_ owns_vertices_ set_vertices
         set_origin_inside ResetMutableFields set_index set_calls];
    rewrite ?xorb_true_r;
    set (la := set_origin_inside _ _);
    (destruct (clear_of_poles (bound_ l)) eqn:Ec;
     [ simpl; rewrite ?Ho; repeat (apply conj); auto; intros; discriminate
     | pose proof (InitBound_frame la) as (F1 & F2 & F3 & F4);
       rewrite F1, F2, F3, F4; subst la; simpl; rewrite ?Ho;
       repeat (apply conj); auto; try (intros; discriminate);
       intros _ l' Hv Ho' Hi; apply InitBound_ext; simpl; auto ]).
Qed.


(** The bounds of a loop made by [Init] (a sentinel, or three or more
    vertices) are the ones [InitBound] derives from it. *)
Lemma Init_bounds l0 vs l :
  Init l0 vs = Some l ->
  length vs = 1%nat \/ 3 <= Z.of_nat (length vs) ->
  vertices_ l = vs /\ owns_vertices_ l = true
  /\ bound_ l = bound_ (InitBound (ResetMutableFields l))
  /\ subregion_bound_ l = subregion_bound_ (InitBound (ResetMutableFields l)).
Proof.
  intros HI Hn. revert HI. unfold Init, InitOriginAndBound.
  set (la := set_vertices (ResetMutableFields l0) vs true).
  assert (Hix : index_ la = mkS2ShapeIndex 0 true) by reflexivity.
  assert (Hvs : vertices_ la = vs) by reflexivity.
  unfold is_empty_or_full, num_vertices. rewrite Hvs.
  assert (Hframe : forall lb, vertices_ lb = vs -> owns_vertices_ lb = true ->
            index_ lb = mkS2ShapeIndex 0 true ->
            InitIndex (InitBound lb) = Some l ->
            vertices_ l = vs /\ owns_vertices_ l = true
            /\ bound_ l = bound_ (InitBound (ResetMutableFields l))
            /\ subregion_bound_ l = subregion_bound_ (InitBound (ResetMutableFields l))).
  { intros lb Hv Ho Hi HI.
    apply InitIndex_frame in HI as (Fv & Foi & Fow & _ & Fb & Fsb & _).
    destruct (InitBound_frame lb) as (F1 & F2 & F3 & _).
    assert (E : bound_ (InitBound lb) = bound_ (InitBound (ResetMutableFields l))
                /\ subregion_bound_ (InitBound lb)
                   = subregion_bound_ (InitBound (ResetMutableFields l))).
    { apply InitBound_ext; simpl; auto; congruence. }
    repeat (apply conj); try congruence; rewrite ?Fb, ?Fsb; apply E. }
  destruct (Z.ltb_spec (Z.of_nat (length vs)) 3) as [Hlt | Hge].
  - destruct Hn as [H1 | H3]; [ | lia]. rewrite H1. cbn [Z.of_nat Z.eqb negb Pos.eqb Pos.of_succ_nat].
    apply Hframe; reflexivity.
  - cbv zeta.
    rewrite (Contains_reset_index (set_origin_inside la false)) by reflexivity.
    cbn [after answer Contains_brute].
    destruct (negb _); apply Hframe; reflexivity.
Qed.



End InvertFacts.

(* ----------------------------------------------------------------- *)
(** *** Concrete runs of [Invert] *)

(** [Init] with the single vertex (1, 0, 0) gives that empty loop. *)
Example Init_empty_at_x :
  @Init sample_collab default_flags new_loop [mkS2Point 1 0 0]
  = Some empty_at_x.
Proof. vm_compute. reflexivity. Qed.


(** Why the bounds have to be the derived ones: a bound that came from
    elsewhere (a decoded loop carries the bound it was sent) is replaced by
    the bound that [InitBound] computes. *)
Example Invert_twice_recomputes_bound :
  let l := sample_loop octant false 0
             (mkS2LatLngRect (mkR1Interval 0.25 0.5) S1Interval_Full)
             (mkS2ShapeIndex 1 true) in
  exists l1 l2,
    @Invert sample_collab default_flags l = Some l1
    /\ @Invert sample_collab default_flags l1 = Some l2
    /\ bound_ l2 = north_band
    /\ bound_ l2 <> bound_ l.
Proof.
  eexists. eexists. split; [vm_compute; reflexivity | ].
  split; [vm_compute; reflexivity | ].
  split; [reflexivity | ].
  intros H.
  apply (f_equal (fun b => PrimFloat.eqb (r1_lo (lat b)) 0)) in H.
  vm_compute in H. discriminate.
Qed.


(* ================================================================= *)
(** ** Boundary comparison *)

Section RelationFacts.
Context {collab : Collaborators}.

(** One call of [CompareBoundaryRelation::WedgesCross]: it records the
    shared vertex, raises [contains_edge_] or [excludes_edge_] according to
    the semiwedge test, and reports whether both are now raised. *)
Lemma CompareBoundaryRelation_WedgesCross_flags st a0 ab1 a2 b0 b2 :
  let w := WedgeContainsSemiwedge a0 ab1 a2 b2 (reverse_b_ st) in
  let r := CompareBoundaryRelation_WedgesCross st a0 ab1 a2 b0 b2 in
  reverse_b_ (snd r) = reverse_b_ st
  /\ found_shared_vertex_ (snd r) = true
  /\ contains_edge_ (snd r) = contains_edge_ st || w
  /\ excludes_edge_ (snd r) = excludes_edge_ st || negb w
  /\ fst r = contains_edge_ (snd r) && excludes_edge_ (snd r).
Proof.
  unfold CompareBoundaryRelation_WedgesCross. cbn [reverse_b_].
  destruct (WedgeContainsSemiwedge a0 ab1 a2 b2 (reverse_b_ st)); simpl;
    rewrite ?orb_true_r, ?orb_false_r; auto.
Qed.

End RelationFacts.

(* ================================================================= *)
(** ** The object representation of doubles and points *)

Lemma digits2_pos_bounds (m : positive) :
  2 ^ (Z.pos (digits2_pos m) - 1) <= Z.pos m < 2 ^ Z.pos (digits2_pos m).
Proof.
  induction m as [p IH | p IH | ]; cbn [digits2_pos].
  - rewrite Pos2Z.inj_succ.
    replace (Z.succ (Z.pos (digits2_pos p)) - 1)
      with (Z.succ (Z.pos (digits2_pos p) - 1)) by lia.
    rewrite !Z.pow_succ_r by lia. lia.
  - rewrite Pos2Z.inj_succ.
    replace (Z.succ (Z.pos (digits2_pos p)) - 1)
      with (Z.succ (Z.pos (digits2_pos p) - 1)) by lia.
    rewrite !Z.pow_succ_r by lia. lia.
  - simpl. lia.
Qed.

(** Sign, biased exponent and fraction can be read back from a binary64
    word. *)
Lemma binary64_fields (s : bool) (E M : Z) :
  0 <= E < 2048 -> 0 <= M < 2 ^ 52 ->
  let b := sign_bit s + E * 2 ^ 52 + M in
  (2 ^ 63 <=? b) = s /\ (b / 2 ^ 52) mod 2048 = E /\ b mod 2 ^ 52 = M
  /\ 0 <= b < 2 ^ 64.
Proof.
  intros HE HM b.
  assert (Hq : b / 2 ^ 52 = (if s then 2048 else 0) + E).
  { symmetry. apply (Z.div_unique b (2 ^ 52) _ M); [left; lia | ].
    subst b. unfold sign_bit. destruct s; lia. }
  assert (Hr : b mod 2 ^ 52 = M).
  { symmetry.
    apply (Z.mod_unique b (2 ^ 52) ((if s then 2048 else 0) + E) M);
      [left; lia | ].
    subst b. unfold sign_bit. destruct s; lia. }
  repeat split.
  - subst b. unfold sign_bit. destruct s.
    + apply Z.leb_le. lia.
    + apply Z.leb_gt. lia.
  - rewrite Hq. destruct s.
    + replace (2048 + E) with (E + 1 * 2048) by lia.
      rewrite Z.mod_add by lia. apply Z.mod_small. lia.
    + apply Z.mod_small. lia.
  - exact Hr.
  - subst b. unfold sign_bit. destruct s; lia.
  - subst b. unfold sign_bit. destruct s; lia.
Qed.

(** A finite binary64 number is subnormal with the least exponent, or has a
    53-bit mantissa. *)
Lemma valid_binary64_finite s m e :
  FloatAxioms.valid_binary (S754_finite s m e) = true ->
  (Z.pos m < 2 ^ 52 /\ e = -1074)
  \/ (2 ^ 52 <= Z.pos m < 2 ^ 53 /\ -1074 <= e <= 971).
Proof.
  unfold SpecFloat.valid_binary, bounded, canonical_mantissa, fexp, emin,
    prec, emax.
  intros H. apply andb_prop in H as [H1 H2].
  apply Z.eqb_eq in H1. apply Z.leb_le in H2.
  pose proof (digits2_pos_bounds m) as [Hlo Hhi].
  set (d := Z.pos (digits2_pos m)) in *.
  assert (Hd : 1 <= d) by (subst d; lia).
  destruct (Z.lt_ge_cases d 53) as [Hs | Hb].
  - left. split; [ | lia].
    apply Z.lt_le_trans with (2 ^ d); [assumption | ].
    apply Z.pow_le_mono_r; lia.
  - assert (d = 53) by lia. right.
    replace d with 53 in * by lia. simpl in Hlo. lia.
Qed.

Lemma binary64_value_bits (f : float) : binary64_value (binary64_bits f) = f.
Proof.
  rewrite <- (SF2Prim_Prim2SF f) at 2.
  unfold binary64_value, binary64_bits.
  pose proof (Prim2SF_valid f) as Hv.
  destruct (Prim2SF f) as [s | s | | s m e]; cbv zeta; f_equal.
  - destruct (binary64_fields s 0 0 ltac:(lia) ltac:(lia)) as (H1 & H2 & H3 & _).
    rewrite Z.add_0_r in *. change (0 * 2 ^ 52) with 0 in *.
    rewrite Z.add_0_r in *. rewrite H1, H2, H3. reflexivity.
  - destruct (binary64_fields s 2047 0 ltac:(lia) ltac:(lia))
      as (H1 & H2 & H3 & _).
    rewrite Z.add_0_r in *. rewrite H1, H2, H3. reflexivity.
  - apply valid_binary64_finite in Hv as [[Hm He] | [Hm He]].
    + destruct (Z.ltb_spec (Z.pos m) (2 ^ 52)); [ | lia].
      destruct (binary64_fields s 0 (Z.pos m) ltac:(lia) ltac:(lia))
        as (H1 & H2 & H3 & _).
      change (0 * 2 ^ 52) with 0 in *. rewrite Z.add_0_r in *.
      rewrite H1, H2, H3. simpl. subst e. reflexivity.
    + destruct (Z.ltb_spec (Z.pos m) (2 ^ 52)); [lia | ].
      destruct (binary64_fields s (e + 1075) (Z.pos m - 2 ^ 52)
                                ltac:(lia) ltac:(lia)) as (H1 & H2 & H3 & _).
      rewrite H1, H2, H3.
      destruct (Z.eqb_spec (e + 1075) 0); [lia | ].
      destruct (Z.eqb_spec (e + 1075) 2047); [lia | ].
      replace (Z.pos m - 2 ^ 52 + 2 ^ 52) with (Z.pos m) by lia.
      replace (e + 1075 - 1075) with e by lia. reflexivity.
Qed.

Lemma binary64_bits_range (f : float) : 0 <= binary64_bits f < 2 ^ 64.
Proof.
  unfold binary64_bits.
  pose proof (Prim2SF_valid f) as Hv.
  destruct (Prim2SF f) as [s | s | | s m e].
  - destruct s; simpl; lia.
  - destruct s; simpl; lia.
  - simpl; lia.
  - apply valid_binary64_finite in Hv as [[Hm He] | [Hm He]].
    + destruct (Z.ltb_spec (Z.pos m) (2 ^ 52)); [ | lia].
      destruct s; unfold sign_bit; lia.
    + destruct (Z.ltb_spec (Z.pos m) (2 ^ 52)); [lia | ].
      apply (binary64_fields s (e + 1075) (Z.pos m - 2 ^ 52)); lia.
Qed.





Lemma double_bits_of_bits v :
  0 <= v < 2 ^ 64 -> double_bits (double_of_bits v) = v.
Proof.
  intros Hr.
  pose proof (get_le_put_le 8 v [] ltac:(simpl; lia)) as H.
  unfold double_of_bits, double_bits. cbv zeta.
  cbn [byte_0 byte_1 byte_2 byte_3 byte_4 byte_5 byte_6 byte_7].
  cbn [put_le get_le app] in H.
  apply (f_equal fst) in H. cbn [fst] in H.
  rewrite Z.mul_0_r, Z.add_0_r in H. exact H.
Qed.

(** A value that is stored and read again is the same value. *)
Lemma double_value_store (f : float) : double_value (double_store f) = f.
Proof.
  unfold double_value, double_store.
  rewrite double_bits_of_bits by apply binary64_bits_range.
  apply binary64_value_bits.
Qed.

Lemma pt_mkS2Point x y z :
  pt_x (mkS2Point x y z) = x /\ pt_y (mkS2Point x y z) = y
  /\ pt_z (mkS2Point x y z) = z.
Proof.
  unfold pt_x, pt_y, pt_z, mkS2Point. cbn [c_0 c_1 c_2].
  now rewrite !double_value_store.
Qed.

Lemma put_double_app e f : put_double e f = e ++ put_le 8 (double_bits f).
Proof. reflexivity. Qed.


(** The 24 bytes of a point. *)
Lemma put_S2Point_app e p :
  put_S2Point e p =
  e ++ put_le 8 (double_bits (c_0 p)) ++ put_le 8 (double_bits (c_1 p))
    ++ put_le 8 (double_bits (c_2 p)).
Proof.
  unfold put_S2Point. rewrite !put_double_app, <- !app_assoc. reflexivity.
Qed.

Lemma putn_S2Points_app e vs :
  putn_S2Points e vs = e ++ putn_S2Points [] vs.
Proof.
  unfold putn_S2Points. revert e.
  induction vs as [ | p vs IH]; intros e; simpl.
  - now rewrite app_nil_r.
  - rewrite IH, (IH (put_S2Point [] p)), (put_S2Point_app e p),
      (put_S2Point_app [] p).
    cbn [app]. now rewrite <- !app_assoc.
Qed.

Lemma putn_S2Points_cons p vs :
  putn_S2Points [] (p :: vs) = put_S2Point [] p ++ putn_S2Points [] vs.
Proof.
  unfold putn_S2Points at 1. cbn [fold_left].
  exact (putn_S2Points_app (put_S2Point [] p) vs).
Qed.



Lemma avail_putn_S2Points vs :
  avail (putn_S2Points [] vs) = sizeof_S2Point * Z.of_nat (length vs).
Proof.
  unfold sizeof_S2Point.
  induction vs as [ | p vs IH]; [reflexivity | ].
  rewrite putn_S2Points_cons, avail_app, IH, put_S2Point_app.
  cbn [app length]. rewrite !avail_app, !avail_put_le. lia.
Qed.

(* ================================================================= *)
(** ** Varints *)





(* ================================================================= *)
(** ** Encoding followed by decoding *)

Section RoundTrip.
Context {collab : Collaborators} {flags : Flags} {codec : CodecCollaborators}.

Lemma Encode_bytes l :
  Encode l [] =
  put_le 1 1 ++ put_le 4 (num_vertices l) ++ putn_S2Points [] (vertices_ l)
    ++ put_le 1 (Z.b2z (origin_inside_ l)) ++ put_le 4 (depth_ l)
    ++ S2LatLngRect_Encode (bound_ l).
Proof.
  unfold Encode, put8, put32. cbn [app].
  rewrite putn_S2Points_app. cbn [app].
  rewrite <- !app_assoc. reflexivity.
Qed.







End RoundTrip.

(* ----------------------------------------------------------------- *)
(** *** Concrete runs of the codecs *)





(** With debugging on, the encoding of a loop that is not valid (here two
    vertices) does not decode: the decoder aborts in [InitIndex]. *)
Example Decode_aborts_on_invalid_loop :
  let l := sample_loop [mkS2Point 1 0 0; mkS2Point 0 1 0] false 0 north_band
                       (mkS2ShapeIndex 0 true) in
  @Decode sample_collab debug_flags sample_codec new_loop
    (@Encode sample_codec l []) = None
  /\ exists l',
       @Decode sample_collab default_flags sample_codec new_loop
         (@Encode sample_codec l []) = Some (true, l', [])
       /\ vertices_ l' = vertices_ l.
Proof.
  split; [vm_compute; reflexivity | ].
  eexists. split; vm_compute; reflexivity.
Qed.

(* ================================================================= *)
(** ** The vertex ring and the canonical order of summation *)

Lemma ring_shift vs i k :
  vs <> [] -> ring vs (i + k * Z.of_nat (length vs)) = ring vs i.
Proof.
  intros Hne. unfold ring. rewrite Z.mod_add; [reflexivity | ].
  destruct vs; [congruence | simpl; lia].
Qed.

Lemma ring_mod vs i : ring vs (i mod Z.of_nat (length vs)) = ring vs i.
Proof.
  unfold ring. destruct vs as [ | v vs]; [now destruct (Z.to_nat _), (Z.to_nat _) | ].
  rewrite Z.mod_mod by (simpl; lia). reflexivity.
Qed.

Lemma ring_congr vs i j :
  vs <> [] -> (i - j) mod Z.of_nat (length vs) = 0 -> ring vs i = ring vs j.
Proof.
  intros Hne H.
  assert (Hn : 0 < Z.of_nat (length vs)) by (destruct vs; [congruence | simpl; lia]).
  apply Z.mod_divide in H; [ | lia]. destruct H as [q Hq].
  replace i with (j + q * Z.of_nat (length vs)) by lia.
  now apply ring_shift.
Qed.

Lemma vertex_ring l i :
  0 <= i < 2 * num_vertices l -> vertex l i = ring (vertices_ l) i.
Proof. intros H. now rewrite vertex_in_range. Qed.

Lemma ring_In vs i : vs <> [] -> In (ring vs i) vs.
Proof.
  intros Hne. unfold ring. apply nth_In.
  assert (Hn : 0 < Z.of_nat (length vs)) by (destruct vs; [congruence | simpl; lia]).
  pose proof (Z.mod_pos_bound i _ Hn). lia.
Qed.

(** In a ring without repeated vertices, equal vertices have congruent
    indices. *)
Lemma ring_inj vs i j :
  NoDup vs -> vs <> [] -> ring vs i = ring vs j ->
  (i - j) mod Z.of_nat (length vs) = 0.
Proof.
  intros Hnd Hne H.
  assert (Hn : 0 < Z.of_nat (length vs)) by (destruct vs; [congruence | simpl; lia]).
  unfold ring in H.
  pose proof (Z.mod_pos_bound i _ Hn). pose proof (Z.mod_pos_bound j _ Hn).
  apply (proj1 (NoDup_nth vs no_vertex) Hnd) in H; [ | lia | lia].
  assert (Hij : i mod Z.of_nat (length vs) = j mod Z.of_nat (length vs)) by lia.
  rewrite Zminus_mod, Hij, Z.sub_diag. apply Z.mod_0_l. lia.
Qed.

Lemma rotate_length k vs :
  (k <= length vs)%nat -> length (rotate k vs) = length vs.
Proof.
  intros H. unfold rotate.
  rewrite length_app, length_skipn, length_firstn. lia.
Qed.

Lemma ring_rotate k vs i :
  (k <= length vs)%nat -> ring (rotate k vs) i = ring vs (i + Z.of_nat k).
Proof.
  intros Hk. unfold ring. rewrite rotate_length by exact Hk.
  destruct vs as [ | v0 vs0] eqn:Evs.
  { simpl in *. assert (k = 0)%nat by lia. subst k. unfold rotate. simpl.
    now destruct (Z.to_nat _), (Z.to_nat _). }
  rewrite <- Evs in *.
  assert (Hn : 0 < Z.of_nat (length vs)) by (subst vs; simpl; lia).
  set (n := Z.of_nat (length vs)) in *.
  pose proof (Z.mod_pos_bound i n Hn) as Hi.
  set (j := i mod n) in *.
  assert (Hmod : (i + Z.of_nat k) mod n = (j + Z.of_nat k) mod n)
    by (subst j; now rewrite Zplus_mod_idemp_l).
  rewrite Hmod. unfold rotate.
  destruct (Z.lt_ge_cases (j + Z.of_nat k) n) as [Hlt | Hge].
  - rewrite Z.mod_small by lia.
    rewrite app_nth1 by (rewrite length_skipn; lia).
    rewrite nth_skipn. f_equal. lia.
  - replace ((j + Z.of_nat k) mod n) with (j + Z.of_nat k - n).
    + rewrite app_nth2 by (rewrite length_skipn; lia).
      rewrite length_skipn, nth_firstn.
      destruct (Nat.ltb_spec (Z.to_nat j - (length vs - k)) k); [ | lia].
      f_equal. lia.
    + apply (Z.mod_unique _ _ 1); [left | ]; lia.
Qed.

Lemma ring_rev vs i :
  ring (rev vs) i = ring vs (Z.of_nat (length vs) - 1 - i).
Proof.
  unfold ring. rewrite length_rev.
  destruct vs as [ | v0 vs0] eqn:Evs.
  { simpl. now destruct (Z.to_nat _), (Z.to_nat _). }
  rewrite <- Evs in *.
  assert (Hn : 0 < Z.of_nat (length vs)) by (subst vs; simpl; lia).
  set (n := Z.of_nat (length vs)) in *.
  pose proof (Z.mod_pos_bound i n Hn) as Hi.
  assert (Hmod : (n - 1 - i) mod n = n - 1 - i mod n).
  { symmetry. apply (Z.mod_unique _ _ (- (i / n))); [left; lia | ].
    pose proof (Z.div_mod i n ltac:(lia)). lia. }
  rewrite Hmod, rev_nth by lia. f_equal. lia.
Qed.

Lemma Zrange_S lo len : Zrange lo (S len) = Zrange lo len ++ [lo + Z.of_nat len].
Proof. unfold Zrange. now rewrite seq_S, map_app. Qed.

Lemma Zrange_length lo len : length (Zrange lo len) = len.
Proof. unfold Zrange. now rewrite length_map, length_seq. Qed.

Section TurningAngleFacts.
Context {collab : Collaborators}.

Lemma least_index_S vs len :
  least_index vs (S len) =
  if S2Point_ltb (ring vs (1 + Z.of_nat len)) (ring vs (least_index vs len))
  then 1 + Z.of_nat len else least_index vs len.
Proof. unfold least_index. now rewrite Zrange_S, fold_left_app. Qed.

Lemma least_index_range vs len : 0 <= least_index vs len <= Z.of_nat len.
Proof.
  induction len as [ | len IH]; [unfold least_index; simpl; lia | ].
  rewrite least_index_S. destruct (S2Point_ltb _ _); lia.
Qed.

(** The scan of [GetCanonicalFirstVertex] is the scan over the ring. *)
Lemma first_scan_ring l len :
  Z.of_nat len < num_vertices l ->
  fold_left (fun first i =>
               if S2Point_ltb (vertex l i) (vertex l first) then i else first)
            (Zrange 1 len) 0
  = least_index (vertices_ l) len.
Proof.
  induction len as [ | len IH]; intros Hlen; [reflexivity | ].
  rewrite least_index_S, Zrange_S, fold_left_app, IH by lia.
  cbn [fold_left].
  pose proof (least_index_range (vertices_ l) len).
  now rewrite !vertex_ring by lia.
Qed.

(** The vertex the scan stops at is below every other vertex it has seen. *)
Lemma least_index_least vs len :
  strictly_ordered vs -> (len < length vs)%nat ->
  forall j, 0 <= j <= Z.of_nat len -> j <> least_index vs len ->
            S2Point_ltb (ring vs (least_index vs len)) (ring vs j) = true.
Proof.
  intros (Hnd & Htrans & Htotal & Hasym) Hlen.
  assert (Hne : vs <> []) by (destruct vs; [simpl in Hlen; lia | congruence]).
  assert (Hdiff : forall a b, 0 <= a < Z.of_nat (length vs) ->
                              0 <= b < Z.of_nat (length vs) -> a <> b ->
                              ring vs a <> ring vs b).
  { intros a b Ha Hb Hab Heq. apply ring_inj in Heq; auto.
    apply Z.mod_divide in Heq; [ | lia]. destruct Heq as [q Hq].
    assert (q = 0) by nia. lia. }
  induction len as [ | len IH]; intros j Hj Hjf.
  - unfold least_index in *. simpl in *. lia.
  - specialize (IH ltac:(lia)).
    pose proof (least_index_range vs len) as Hr.
    rewrite least_index_S in *.
    destruct (S2Point_ltb (ring vs (1 + Z.of_nat len))
                          (ring vs (least_index vs len))) eqn:E.
    + destruct (Z.eq_dec j (least_index vs len)) as [-> | Hne']; [exact E | ].
      apply (Htrans _ (ring vs (least_index vs len)) _);
        auto using ring_In. apply IH; lia.
    + destruct (Z.eq_dec j (1 + Z.of_nat len)) as [-> | Hne'].
      * destruct (Htotal (ring vs (least_index vs len))
                         (ring vs (1 + Z.of_nat len))) as [H | H];
          auto using ring_In; [ | congruence].
        apply Hdiff; lia.
      * apply IH; lia.
Qed.

Lemma least_vertex_unique vs x y :
  strictly_ordered vs -> least_vertex vs x -> least_vertex vs y -> x = y.
Proof.
  intros (Hnd & Htrans & Htotal & Hasym) [Hx Hlx] [Hy Hly].
  destruct (In_nth vs x no_vertex Hx) as (i & Hi & Ex).
  destruct (In_nth vs y no_vertex Hy) as (j & Hj & Ey).
  destruct (Nat.eq_dec i j) as [-> | Hij]; [congruence | exfalso].
  assert (Hne : x <> y).
  { intros Heq. apply Hij. apply (proj1 (NoDup_nth vs no_vertex) Hnd); auto.
    congruence. }
  assert (Hxy : S2Point_ltb x y = true) by (apply Hlx; auto).
  assert (Hyx : S2Point_ltb y x = true) by (apply Hly; auto).
  rewrite (Hasym x y Hx Hy Hxy) in Hyx. discriminate.
Qed.

(** The full scan ends at the smallest vertex. *)
Lemma least_index_least_vertex vs :
  strictly_ordered vs -> vs <> [] ->
  least_vertex vs (ring vs (least_index vs (length vs - 1))).
Proof.
  intros Hso Hne. split; [now apply ring_In | ].
  intros y Hy Hyx.
  destruct (In_nth vs y no_vertex Hy) as (k & Hk & <-).
  assert (Hlen : (length vs - 1 < length vs)%nat)
    by (destruct vs; [congruence | simpl; lia]).
  assert (Hring : nth k vs no_vertex = ring vs (Z.of_nat k)).
  { unfold ring. rewrite Z.mod_small by lia. now rewrite Nat2Z.id. }
  rewrite Hring in *.
  apply least_index_least; auto; [lia | ].
  intros Heq. apply Hyx. now rewrite Heq.
Qed.

Lemma strictly_ordered_Permutation vs ws :
  Permutation vs ws -> strictly_ordered vs -> strictly_ordered ws.
Proof.
  intros Hp (Hnd & Htrans & Htotal & Hasym).
  assert (Hin : forall a, In a ws -> In a vs)
    by (intros a; apply Permutation_in; now apply Permutation_sym).
  repeat split.
  - now apply (Permutation_NoDup Hp).
  - intros a b c Ha Hb Hc. apply Htrans; auto.
  - intros a b Ha Hb. apply Htotal; auto.
  - intros a b Ha Hb. apply Hasym; auto.
Qed.

Lemma least_vertex_Permutation vs ws x :
  Permutation vs ws -> least_vertex vs x -> least_vertex ws x.
Proof.
  intros Hp [Hx Hl]. split; [now apply (Permutation_in _ Hp) | ].
  intros y Hy. apply Hl. apply (Permutation_in _ (Permutation_sym Hp) Hy).
Qed.

Lemma rotate_Permutation k vs : Permutation vs (rotate k vs).
Proof.
  unfold rotate. rewrite <- (firstn_skipn k vs) at 1.
  apply Permutation_app_comm.
Qed.

Lemma turn_angles_S vs f dir m :
  turn_angles vs f dir (S m) =
  turn_angles vs f dir m
    ++ [S2_TurnAngle (ring vs (f + Z.of_nat m * dir))
                     (ring vs (f + (Z.of_nat m + 1) * dir))
                     (ring vs (f + (Z.of_nat m + 2) * dir))].
Proof.
  unfold turn_angles. rewrite Zrange_S, map_app. cbn [map].
  f_equal. f_equal. f_equal; f_equal; lia.
Qed.

(** Walks that meet the same vertices give the same angles. *)
Lemma turn_angles_congr vs ws f g dir dir' m :
  (forall t, 0 <= t <= Z.of_nat m + 1 ->
             ring vs (f + t * dir) = ring ws (g + t * dir')) ->
  turn_angles vs f dir m = turn_angles ws g dir' m.
Proof.
  intros H. unfold turn_angles. apply map_ext_in.
  intros t Ht. apply In_Zrange in Ht.
  now rewrite !H by lia.
Qed.

(** The Kahan loop of [GetTurningAngle], run for [m] rounds from index
    [i0], adds up the angles of the walk from [i0]. *)
Lemma TurningAngle_iter l dir i0 m s0 c0 :
  (forall s, 0 <= s <= Z.of_nat m + 1 ->
             0 <= i0 + s * dir < 2 * num_vertices l) ->
  Nat.iter m (TurningAngle_step l dir) (i0, s0, c0) =
  let '(s, c) := fold_left kahan_add (turn_angles (vertices_ l) i0 dir m) (s0, c0) in
  (i0 + Z.of_nat m * dir, s, c).
Proof.
  induction m as [ | m IH]; intros Hr.
  - simpl. f_equal. f_equal. lia.
  - rewrite Nat.iter_succ, IH by (intros s Hs; apply Hr; lia).
    rewrite turn_angles_S, fold_left_app.
    destruct (fold_left kahan_add _ (s0, c0)) as [s c].
    cbn [fold_left]. unfold TurningAngle_step, kahan_add.
    replace (i0 + Z.of_nat m * dir + dir - dir) with (i0 + Z.of_nat m * dir) by lia.
    replace (i0 + Z.of_nat m * dir + dir) with (i0 + (Z.of_nat m + 1) * dir) by lia.
    replace (i0 + (Z.of_nat m + 1) * dir + dir)
      with (i0 + (Z.of_nat m + 2) * dir) by lia.
    rewrite !vertex_ring by (apply Hr; lia).
    f_equal. f_equal. lia.
Qed.

(** [GetTurningAngle] of a loop of three or more vertices, in terms of the
    ring: the direction times the compensated sum of the angles met on the
    walk from the scan's vertex. *)
Lemma GetTurningAngle_canonical l vs :
  vertices_ l = vs -> 3 <= Z.of_nat (length vs) ->
  let f := least_index vs (length vs - 1) in
  let dir := if S2Point_ltb (ring vs (f + 1)) (ring vs (f - 1)) then 1 else -1 in
  GetTurningAngle l =
  (double_of_int dir
   * kahan_sum (S2_TurnAngle (ring vs (f - dir)) (ring vs f) (ring vs (f + dir)))
               (turn_angles vs f dir (length vs - 1)))%float.
Proof.
  intros Evs Hn f dir.
  assert (Hnv : num_vertices l = Z.of_nat (length vs))
    by (unfold num_vertices; now rewrite Evs).
  assert (Hv : forall i, 0 <= i < 2 * Z.of_nat (length vs) -> vertex l i = ring vs i)
    by (intros i Hi; rewrite <- Evs; apply vertex_ring; lia).
  assert (Hscan : fold_left
                    (fun first i =>
                       if S2Point_ltb (vertex l i) (vertex l first) then i else first)
                    (Zrange 1 (length (vertices_ l) - 1)) 0 = f).
  { rewrite first_scan_ring by (rewrite Hnv, Evs; lia). now rewrite Evs. }
  assert (Hiter : forall dir i0 s0 c0,
             (forall s, 0 <= s <= Z.of_nat (length vs - 1) + 1 ->
                        0 <= i0 + s * dir < 2 * Z.of_nat (length vs)) ->
             Nat.iter (length vs - 1) (TurningAngle_step l dir) (i0, s0, c0) =
             let '(s, c) := fold_left kahan_add
                              (turn_angles vs i0 dir (length vs - 1)) (s0, c0) in
             (i0 + Z.of_nat (length vs - 1) * dir, s, c)).
  { intros d i0 s0 c0 Hr.
    rewrite TurningAngle_iter by now rewrite Hnv. now rewrite Evs. }
  unfold GetTurningAngle, GetCanonicalFirstVertex, is_empty_or_full.
  rewrite Hscan, Hnv. clear Hscan Hnv Evs.
  assert (Hne : vs <> []) by (intros E; rewrite E in Hn; simpl in Hn; lia).
  pose proof (least_index_range vs (length vs - 1)) as Hf. fold f in Hf.
  clearbody f.
  set (n := Z.of_nat (length vs)) in *.
  assert (Hshift : forall i k, ring vs (i + k * n) = ring vs i)
    by (intros; now apply ring_shift).
  destruct (Z.eqb_spec n 1); [lia | ].
  destruct (Z.ltb_spec n 3); [lia | ].
  rewrite !Hv by lia.
  replace (ring vs (f + n - 1)) with (ring vs (f - 1))
    by (rewrite <- (Hshift (f - 1) 1); f_equal; lia).
  replace (Z.to_nat (n - 1)) with (length vs - 1)%nat by lia.
  subst dir.
  destruct (S2Point_ltb (ring vs (f + 1)) (ring vs (f - 1))).
  - rewrite !Z.rem_mod_nonneg by lia.
    pose proof (Z.mod_pos_bound (f + n - 1) n ltac:(lia)).
    pose proof (Z.mod_pos_bound (f + 1) n ltac:(lia)).
    rewrite !Hv by lia.
    rewrite Hiter by (intros s Hs; nia).
    unfold n at 1 2. rewrite !ring_mod. fold n.
    replace (ring vs (f + n - 1)) with (ring vs (f - 1))
      by (rewrite <- (Hshift (f - 1) 1); f_equal; lia).
    unfold kahan_sum.
    destruct (fold_left kahan_add _ _) as [s c]. reflexivity.
  - rewrite !Z.rem_mod_nonneg by lia.
    pose proof (Z.mod_pos_bound (f + n + n - -1) n ltac:(lia)).
    pose proof (Z.mod_pos_bound (f + n + -1) n ltac:(lia)).
    rewrite !Hv by lia.
    rewrite Hiter by (intros s Hs; nia).
    unfold n at 1 4. rewrite !ring_mod. fold n.
    replace (ring vs (f + n + n - -1)) with (ring vs (f - -1))
      by (rewrite <- (Hshift (f - -1) 2); f_equal; lia).
    replace (ring vs (f + n + -1)) with (ring vs (f + -1))
      by (rewrite <- (Hshift (f + -1) 1); f_equal; lia).
    replace (ring vs (f + n)) with (ring vs f)
      by (rewrite <- (Hshift f 1); f_equal; lia).
    rewrite (turn_angles_congr vs vs (f + n) f (-1) (-1))
      by (intros t Ht; rewrite <- (Hshift (f + t * -1) 1); f_equal; lia).
    unfold kahan_sum.
    destruct (fold_left kahan_add _ _) as [s c]. reflexivity.
Qed.

End TurningAngleFacts.

(** Multiplying a double by -1 and by 1 gives opposite results. *)
Lemma double_mul_minus_one (x : float) :
  (double_of_int (-1) * x = - (double_of_int 1 * x))%float.
Proof.
  change (double_of_int (-1)) with (-1)%float.
  change (double_of_int 1) with 1%float.
  apply Prim2SF_inj. rewrite FloatAxioms.opp_spec, !FloatAxioms.mul_spec.
  change (Prim2SF (-1)) with (S754_finite true 4503599627370496 (-52)).
  change (Prim2SF 1) with (S754_finite false 4503599627370496 (-52)).
  destruct (Prim2SF x) as [s | s | | s m e]; try reflexivity.
  unfold SF64mul, SFmul, binary_round_aux.
  destruct (shr_fexp _ _ _ _ _) as [m1 e1].
  destruct (shr_fexp _ _ _ _ _) as [m2 e2].
  destruct (shr_m m2); try reflexivity.
  destruct (_ <=? _); reflexivity.
Qed.

Lemma double_opp_involutive (x : float) : (- - x = x)%float.
Proof.
  apply Prim2SF_inj. rewrite !FloatAxioms.opp_spec.
  destruct (Prim2SF x) as [s | s | | s m e]; simpl;
    rewrite ?negb_involutive; reflexivity.
Qed.

Lemma double_mul_one (x : float) :
  (double_of_int 1 * x = - (double_of_int (-1) * x))%float.
Proof. now rewrite double_mul_minus_one, double_opp_involutive. Qed.

(* ----------------------------------------------------------------- *)
(** *** The order of [operator<] on vertices without NaN coordinates *)

Lemma is_number_Prim2SF x : is_number x = true -> Prim2SF x <> S754_nan.
Proof.
  unfold is_number, PrimFloat.is_nan. rewrite FloatAxioms.eqb_spec.
  intros H E. rewrite E in H. discriminate.
Qed.

Lemma double_ltb_key x y :
  is_number x = true -> is_number y = true ->
  (PrimFloat.ltb x y = true <-> key_lt (order_key x) (order_key y)).
Proof.
  intros Hx%is_number_Prim2SF Hy%is_number_Prim2SF.
  rewrite FloatAxioms.ltb_spec. unfold order_key, SFltb, SFcompare.
  destruct (Prim2SF x) as [[|] | [|] | | [|] m1 e1]; try congruence;
  destruct (Prim2SF y) as [[|] | [|] | | [|] m2 e2]; try congruence;
    cbn [key_lt];
    try (split; [intros; lia | reflexivity]);
    try (split; [discriminate | intros; lia]).
  all: change (Pos.compare_cont Eq m1 m2) with (m1 ?= m2)%positive.
  all: destruct (Z.compare_spec e1 e2); try destruct (Pos.compare_spec m1 m2);
    cbn [CompOpp];
    try (split; [intros; lia | reflexivity]);
    try (split; [discriminate | intros; lia]).
Qed.

Lemma double_eqb_key x y :
  is_number x = true -> is_number y = true ->
  (PrimFloat.eqb x y = true <-> order_key x = order_key y).
Proof.
  intros Hx%is_number_Prim2SF Hy%is_number_Prim2SF.
  rewrite FloatAxioms.eqb_spec. unfold order_key, SFeqb, SFcompare.
  destruct (Prim2SF x) as [[|] | [|] | | [|] m1 e1]; try congruence;
  destruct (Prim2SF y) as [[|] | [|] | | [|] m2 e2]; try congruence;
    try (split; [intros; congruence | reflexivity]);
    try (split; discriminate).
  all: change (Pos.compare_cont Eq m1 m2) with (m1 ?= m2)%positive.
  all: destruct (Z.compare_spec e1 e2); try destruct (Pos.compare_spec m1 m2);
    cbn [CompOpp];
    try (split; [intros; congruence | reflexivity]);
    try (split; [discriminate | intros [= ? ?]; lia]).
Qed.

Lemma key_lt_irrefl a : ~ key_lt a a.
Proof. destruct a as [[a1 a2] a3]. cbn. lia. Qed.

Lemma key_lt_trans a b c : key_lt a b -> key_lt b c -> key_lt a c.
Proof. destruct a as [[a1 a2] a3], b as [[b1 b2] b3], c as [[c1 c2] c3]. cbn. lia. Qed.

Lemma key_lt_total a b : key_lt a b \/ a = b \/ key_lt b a.
Proof.
  destruct a as [[a1 a2] a3], b as [[b1 b2] b3]. cbn.
  destruct (Z.lt_total a1 b1) as [? | [-> | ?]]; [lia | | lia].
  destruct (Z.lt_total a2 b2) as [? | [-> | ?]]; [lia | | lia].
  destruct (Z.lt_total a3 b3) as [? | [-> | ?]]; [lia | | lia].
  right; left; reflexivity.
Qed.

Lemma S2Point_ltb_key a b :
  numeric_point a = true -> numeric_point b = true ->
  (S2Point_ltb a b = true <-> point_key_lt (point_key a) (point_key b)).
Proof.
  unfold numeric_point, S2Point_ltb, point_key, point_key_lt.
  generalize (pt_x a) (pt_y a) (pt_z a) (pt_x b) (pt_y b) (pt_z b).
  intros xa ya za xb yb zb. rewrite !andb_true_iff.
  intros [[Hax Hay] Haz] [[Hbx Hby] Hbz].
  pose proof (double_ltb_key _ _ Hax Hbx) as Hx.
  pose proof (double_ltb_key _ _ Hbx Hax) as Hx'.
  pose proof (double_ltb_key _ _ Hay Hby) as Hy.
  pose proof (double_ltb_key _ _ Hby Hay) as Hy'.
  pose proof (double_ltb_key _ _ Haz Hbz) as Hz.
  pose proof (key_lt_total (order_key xa) (order_key xb)) as Tx.
  pose proof (key_lt_total (order_key ya) (order_key yb)) as Ty.
  pose proof (key_lt_irrefl (order_key xa)) as Ix.
  pose proof (key_lt_irrefl (order_key ya)) as Iy.
  pose proof (key_lt_trans (order_key xa) (order_key xb) (order_key xa)) as Ax.
  pose proof (key_lt_trans (order_key ya) (order_key yb) (order_key ya)) as Ay.
  destruct (PrimFloat.ltb xa xb); [tauto | ].
  destruct (PrimFloat.ltb xb xa).
  { split; [discriminate | ]. intros [H | [E _]]; [tauto | ].
    rewrite E in *. tauto. }
  destruct (PrimFloat.ltb ya yb).
  { split; [ | reflexivity]. intros _. right. split; [ | tauto].
    destruct Tx as [? | [? | ?]]; [ | assumption | ].
    - apply Hx in H. discriminate.
    - apply Hx' in H. discriminate. }
  destruct (PrimFloat.ltb yb ya).
  { split; [discriminate | ]. intros [H | [_ [H | [E _]]]].
    - apply Hx in H. discriminate.
    - apply Hy in H. discriminate.
    - rewrite E in *. tauto. }
  rewrite Hz. split.
  - intros H. right. split.
    { destruct Tx as [T | [T | T]]; [apply Hx in T; discriminate | assumption
                                     | apply Hx' in T; discriminate]. }
    right. split; [ | assumption].
    destruct Ty as [T | [T | T]]; [apply Hy in T; discriminate | assumption
                                   | apply Hy' in T; discriminate].
  - intros [H | [_ [H | [_ H]]]]; [apply Hx in H; discriminate
                                  | apply Hy in H; discriminate | assumption].
Qed.

Lemma point_key_lt_irrefl a : ~ point_key_lt a a.
Proof.
  destruct a as [[a1 a2] a3]. cbn.
  pose proof (key_lt_irrefl a1). pose proof (key_lt_irrefl a2).
  pose proof (key_lt_irrefl a3). tauto.
Qed.

Lemma point_key_lt_trans a b c :
  point_key_lt a b -> point_key_lt b c -> point_key_lt a c.
Proof.
  destruct a as [[a1 a2] a3], b as [[b1 b2] b3], c as [[c1 c2] c3]. cbn.
  pose proof (key_lt_trans a1 b1 c1). pose proof (key_lt_trans a2 b2 c2).
  pose proof (key_lt_trans a3 b3 c3).
  intros [? | [-> [? | [-> ?]]]] [? | [E1 [? | [E2 ?]]]];
    try rewrite <- E1; try rewrite <- E2; try subst; tauto.
Qed.

Lemma point_key_lt_total a b : point_key_lt a b \/ a = b \/ point_key_lt b a.
Proof.
  destruct a as [[a1 a2] a3], b as [[b1 b2] b3]. cbn.
  destruct (key_lt_total a1 b1) as [? | [-> | ?]]; [tauto | | tauto].
  destruct (key_lt_total a2 b2) as [? | [-> | ?]]; [tauto | | tauto].
  destruct (key_lt_total a3 b3) as [? | [-> | ?]]; tauto.
Qed.

Lemma S2Point_eqb_key a b :
  numeric_point a = true -> numeric_point b = true ->
  (S2Point_eqb a b = true <-> point_key a = point_key b).
Proof.
  unfold numeric_point. rewrite !andb_true_iff.
  intros [[Hax Hay] Haz] [[Hbx Hby] Hbz].
  unfold S2Point_eqb, point_key. rewrite !andb_true_iff.
  rewrite (double_eqb_key _ _ Hax Hbx), (double_eqb_key _ _ Hay Hby),
    (double_eqb_key _ _ Haz Hbz).
  split; [intros [[-> ->] ->]; reflexivity | intros [= -> -> ->]; auto].
Qed.

Lemma distinct_vertices_strictly_ordered vs :
  distinct_vertices vs -> strictly_ordered vs.
Proof.
  intros [Hnum Hd]. rewrite Forall_forall in Hnum.
  assert (Hrefl : forall a, In a vs -> S2Point_eqb a a = true).
  { intros a Ha. now apply S2Point_eqb_key; auto. }
  assert (Hne : forall a b, In a vs -> In b vs -> a <> b ->
                            point_key a <> point_key b).
  { intros a b Ha Hb Hab E.
    apply (S2Point_eqb_key a b) in E; auto.
    assert (E' : S2Point_eqb b a = true).
    { apply S2Point_eqb_key; auto. symmetry. now apply S2Point_eqb_key; auto. }
    destruct (ForallOrdPairs_In Hd a b Ha Hb) as [? | [? | ?]]; congruence. }
  repeat (apply conj).
  - induction Hd as [ | a l Ha Hl IH]; constructor.
    + intros Hin. rewrite Forall_forall in Ha.
      specialize (Ha a Hin). rewrite Hrefl in Ha by now left. discriminate.
    + apply IH.
      * intros x Hx. apply Hnum. now right.
      * intros x Hx. apply Hrefl. now right.
      * intros x y Hx Hy. apply Hne; now right.
  - intros a b c Ha Hb Hc Hab Hbc.
    apply S2Point_ltb_key in Hab, Hbc; auto.
    apply S2Point_ltb_key; auto. eapply point_key_lt_trans; eauto.
  - intros a b Ha Hb Hab.
    destruct (point_key_lt_total (point_key a) (point_key b)) as [H | [H | H]].
    + left. now apply S2Point_ltb_key; auto.
    + now apply Hne in H.
    + right. now apply S2Point_ltb_key; auto.
  - intros a b Ha Hb Hab.
    apply S2Point_ltb_key in Hab; auto.
    destruct (S2Point_ltb b a) eqn:E; [ | reflexivity].
    apply S2Point_ltb_key in E; auto.
    destruct (point_key_lt_irrefl (point_key a)).
    eapply point_key_lt_trans; eauto.
Qed.

Section TurningAngleSymmetry.
Context {collab : Collaborators}.

(** The scans of two rings with the same vertices stop at the same
    vertex. *)
Lemma least_index_same_vertex vs ws :
  strictly_ordered vs -> vs <> [] -> Permutation vs ws ->
  ring ws (least_index ws (length ws - 1)) = ring vs (least_index vs (length vs - 1)).
Proof.
  intros Hso Hne Hp.
  assert (Hso' : strictly_ordered ws) by (eapply strictly_ordered_Permutation; eauto).
  assert (Hne' : ws <> []).
  { intros ->. apply Permutation_sym, Permutation_nil in Hp. contradiction. }
  apply (least_vertex_unique vs); auto.
  - apply (least_vertex_Permutation ws vs); [now apply Permutation_sym | ].
    now apply least_index_least_vertex.
  - now apply least_index_least_vertex.
Qed.

(** C7 (amended): for a loop of three or more vertices, none with a NaN
    coordinate and no two equal under [operator==] (as in a valid loop),
    [GetTurningAngle] returns the very same double for every loop
    whose vertex list is a rotation of the list, and that double negated
    for every loop whose vertex list is the reversed list. *)
Theorem GetTurningAngle_rotation_reversal (l : S2Loop) :
  3 <= num_vertices l ->
  distinct_vertices (vertices_ l) ->
  (forall l' k, (k <= length (vertices_ l))%nat ->
                vertices_ l' = rotate k (vertices_ l) ->
                GetTurningAngle l' = GetTurningAngle l)
  /\ (forall l', vertices_ l' = rev (vertices_ l) ->
                 GetTurningAngle l' = (- GetTurningAngle l)%float).
Proof.
  intros Hn Hso%distinct_vertices_strictly_ordered. unfold num_vertices in Hn.
  set (vs := vertices_ l) in *.
  assert (Hne : vs <> []) by (intros E; rewrite E in Hn; simpl in Hn; lia).
  set (n := Z.of_nat (length vs)) in *.
  set (f := least_index vs (length vs - 1)).
  rewrite (GetTurningAngle_canonical l vs eq_refl Hn). fold f.
  split.
  - (* rotation *)
    intros l' k Hk Hv'.
    assert (Hlen : length (rotate k vs) = length vs) by now apply rotate_length.
    rewrite (GetTurningAngle_canonical l' _ Hv') by (rewrite Hlen; exact Hn).
    rewrite Hlen.
    set (f' := least_index (rotate k vs) (length vs - 1)).
    assert (Hsame : ring (rotate k vs) f' = ring vs f).
    { subst f' f. rewrite <- Hlen at 1.
      apply least_index_same_vertex; auto using rotate_Permutation. }
    rewrite ring_rotate in Hsame by exact Hk.
    apply ring_inj in Hsame; [ | apply Hso | exact Hne].
    assert (Hring : forall t, ring (rotate k vs) (f' + t) = ring vs (f + t)).
    { intros t. rewrite ring_rotate by exact Hk.
      apply ring_congr; [exact Hne | ].
      replace (f' + t + Z.of_nat k - (f + t)) with (f' + Z.of_nat k - f) by lia.
      exact Hsame. }
    replace (f' - 1) with (f' + -1) by lia.
    replace (f - 1) with (f + -1) by lia.
    rewrite !Hring.
    set (dir := if S2Point_ltb (ring vs (f + 1)) (ring vs (f + -1)) then 1 else -1).
    replace (f' - dir) with (f' + - dir) by lia.
    replace (f - dir) with (f + - dir) by lia.
    rewrite !Hring.
    assert (Hf0 : ring (rotate k vs) f' = ring vs f).
    { replace f' with (f' + 0) by lia. rewrite Hring. f_equal. lia. }
    rewrite Hf0.
    rewrite (turn_angles_congr (rotate k vs) vs f' f dir dir)
      by (intros t _; apply Hring).
    reflexivity.
  - (* reversal *)
    intros l' Hv'.
    rewrite (GetTurningAngle_canonical l' _ Hv') by (rewrite length_rev; exact Hn).
    rewrite length_rev.
    set (f' := least_index (rev vs) (length vs - 1)).
    assert (Hsame : ring (rev vs) f' = ring vs f).
    { subst f' f. rewrite <- (length_rev vs) at 1.
      apply least_index_same_vertex; auto using Permutation_rev. }
    rewrite ring_rev in Hsame. fold n in Hsame.
    apply ring_inj in Hsame; [ | apply Hso | exact Hne]. fold n in Hsame.
    assert (Hring : forall t, ring (rev vs) (f' + t) = ring vs (f - t)).
    { intros t. rewrite ring_rev. fold n.
      apply ring_congr; [exact Hne | ]. fold n.
      replace (n - 1 - (f' + t) - (f - t)) with (n - 1 - f' - f) by lia.
      exact Hsame. }
    replace (f' - 1) with (f' + -1) by lia.
    rewrite !Hring.
    replace (f - -1) with (f + 1) by lia.
    (* the two neighbours of the smallest vertex are different vertices *)
    destruct Hso as (Hnd & Htrans & Htotal & Hasym).
    assert (Hdiff : ring vs (f + 1) <> ring vs (f - 1)).
    { intros Heq. apply ring_inj in Heq; auto. fold n in Heq.
      replace (f + 1 - (f - 1)) with 2 in Heq by lia.
      rewrite Z.mod_small in Heq by lia. discriminate. }
    assert (Hdir : (if S2Point_ltb (ring vs (f - 1)) (ring vs (f + 1)) then 1 else -1)
                   = - (if S2Point_ltb (ring vs (f + 1)) (ring vs (f - 1)) then 1 else -1)).
    { destruct (S2Point_ltb (ring vs (f + 1)) (ring vs (f - 1))) eqn:E.
      - rewrite (Hasym _ _ (ring_In vs _ Hne) (ring_In vs _ Hne) E). reflexivity.
      - destruct (Htotal _ _ (ring_In vs (f + 1) Hne) (ring_In vs (f - 1) Hne) Hdiff)
          as [H | H]; [congruence | now rewrite H]. }
    rewrite Hdir.
    set (dir := if S2Point_ltb (ring vs (f + 1)) (ring vs (f - 1)) then 1 else -1).
    replace (f' - - dir) with (f' + dir) by lia.
    rewrite !Hring.
    replace (f - - dir) with (f + dir) by lia.
    assert (Hf0 : ring (rev vs) f' = ring vs f).
    { replace f' with (f' + 0) by lia. rewrite Hring. f_equal. lia. }
    rewrite Hf0.
    rewrite (turn_angles_congr (rev vs) vs f' f (- dir) dir)
      by (intros t _; rewrite Hring; f_equal; lia).
    subst dir.
    destruct (S2Point_ltb (ring vs (f + 1)) (ring vs (f - 1))).
    + change (- (1)) with (-1). apply double_mul_minus_one.
    + change (- -1) with 1. apply double_mul_one.
Qed.

End TurningAngleSymmetry.

(** For the two sentinels the turning angle is fixed by [origin_inside_]:
    [Invert], which swaps them, negates it. *)
Lemma GetTurningAngle_sentinel_Invert {collab : Collaborators} {flags : Flags}
    (l l1 : S2Loop) :
  is_empty_or_full l = true -> Invert l = Some l1 ->
  GetTurningAngle l1 = (- GetTurningAngle l)%float.
Proof.
  intros He Hi.
  destruct (Invert_fields l l1 Hi) as (_ & _ & _ & Hoi & Hv & _).
  rewrite He in Hv.
  assert (He1 : is_empty_or_full l1 = true).
  { unfold is_empty_or_full, num_vertices in *. rewrite Hv.
    destruct (vertices_ l) as [ | v [ | w t]]; [discriminate | reflexivity | ].
    exfalso. simpl length in He. 
    destruct (Z.eqb_spec (Z.of_nat (S (S (length t)))) 1); [lia | discriminate]. }
  unfold GetTurningAngle, contains_origin. rewrite He, He1, Hoi.
  destruct (origin_inside_ l); vm_compute; reflexivity.
Qed.

(* ----------------------------------------------------------------- *)
(** *** Concrete runs of [GetTurningAngle] *)

Lemma octant_distinct : distinct_vertices octant.
Proof.
  split.
  - repeat constructor.
  - repeat constructor.
Qed.

(** The octant triangle, rotated and reversed. *)
Lemma GetTurningAngle_rotation_reversal_witness :
  @GetTurningAngle sample_collab
     (sample_loop (rotate 1 octant) false 0 north_band (mkS2ShapeIndex 1 true))
  = @GetTurningAngle sample_collab octant_built
  /\ @GetTurningAngle sample_collab
       (sample_loop (rev octant) true 0 north_band (mkS2ShapeIndex 1 true))
     = (- @GetTurningAngle sample_collab octant_built)%float.
Proof.
  assert (Hn : 3 <= num_vertices octant_built) by (vm_compute; discriminate).
  destruct (@GetTurningAngle_rotation_reversal sample_collab octant_built Hn
              octant_distinct) as [Hrot Hrev].
  split.
  - apply (Hrot _ 1%nat); [simpl; lia | reflexivity].
  - apply Hrev. reflexivity.
Defined.

(** The value the code returns on the octant triangle under the sample
    turn angle, and on its rotation. *)
Example GetTurningAngle_octant :
  @GetCanonicalFirstVertex octant_built = (5, -1)
  /\ @GetTurningAngle sample_collab octant_built = (-15)%float
  /\ @GetTurningAngle sample_collab
       (sample_loop (rotate 2 octant) false 0 north_band (mkS2ShapeIndex 1 true))
     = (-15)%float.
Proof. vm_compute. repeat split; reflexivity. Qed.

(** Why the vertices have to be different: in the ring A B A C, with A the
    smallest vertex, the scan stops at the first A; rotating by two swaps
    the neighbours of that A, the direction flips, and the same sum comes
    out negated. *)
Example GetTurningAngle_repeated_vertex :
  let vs := [mkS2Point 0 0 1; mkS2Point 0 1 0; mkS2Point 0 0 1; mkS2Point 1 0 0] in
  @GetTurningAngle sample_collab
     (sample_loop vs false 0 north_band (mkS2ShapeIndex 1 true)) = 19%float
  /\ @GetTurningAngle sample_collab
       (sample_loop (rotate 2 vs) false 0 north_band (mkS2ShapeIndex 1 true))
     = (-19)%float.
Proof. vm_compute. split; reflexivity. Qed.

(** C7 (as stated) fails: the empty loop has one vertex, so its reversed
    vertex list is the list itself, and its turning angle 2 pi is not the
    negation of itself. *)
Lemma GetTurningAngle_empty_not_negated :
  let empty := sample_loop [kEmptyVertex] false 0 S2LatLngRect_Empty
                           (mkS2ShapeIndex 1 false) in
  rev (vertices_ empty) = vertices_ empty
  /\ @GetTurningAngle sample_collab empty = (2 * M_PI)%float
  /\ @GetTurningAngle sample_collab (set_vertices empty (rev (vertices_ empty)) true)
     <> (- @GetTurningAngle sample_collab empty)%float.
Proof.
  split; [reflexivity | split; [vm_compute; reflexivity | ]].
  intros H. apply (f_equal (fun x => PrimFloat.ltb x 0)) in H.
  vm_compute in H. discriminate.
Qed.

(* ================================================================= *)
(** * Further properties *)

(** ** The containment test over the life of a loop *)

Section ContainsLife.
Context {collab : Collaborators} {flags : Flags}.

(** X1: [Contains(S2Point)] is a const method with two mutable members: it
    leaves the vertices, the reference-point bit, the depth, the ownership,
    both bounds and the set of indexed shapes alone; the call counter stays
    or goes up by one; and once the index is fresh the call changes nothing
    at all. *)
Theorem Contains_keeps_loop (l : S2Loop) (p : S2Point) :
  let l' := after (Contains l p) in
  vertices_ l' = vertices_ l
  /\ origin_inside_ l' = origin_inside_ l
  /\ depth_ l' = depth_ l
  /\ owns_vertices_ l' = owns_vertices_ l
  /\ bound_ l' = bound_ l
  /\ subregion_bound_ l' = subregion_bound_ l
  /\ num_shape_ids (index_ l') = num_shape_ids (index_ l)
  /\ (unindexed_contains_calls_ l' = unindexed_contains_calls_ l
      \/ unindexed_contains_calls_ l'
         = Barrier_AtomicIncrement (unindexed_contains_calls_ l) 1)
  /\ (is_fresh (index_ l) = true -> l' = l).
Proof.
  cbv zeta. unfold Contains.
  destruct l as [d vs o dbg oi c b sb [k f]].
  cbn [index_ is_fresh num_shape_ids bound_ unindexed_contains_calls_].
  repeat match goal with
         | |- context [if ?c then _ else _] => destruct c eqn:?
         end;
    rewrite ?Contains_indexed_after; cbn;
    repeat (apply conj); auto; try discriminate;
    intros ->; try reflexivity; discriminate.
Qed.

(** Once the index is fresh, a call changes nothing. *)
Lemma Contains_fresh_unchanged l p :
  is_fresh (index_ l) = true -> after (Contains l p) = l.
Proof.
  unfold Contains. destruct l as [d vs o dbg oi c b sb [k f]].
  cbn [index_ is_fresh num_shape_ids]. intros ->. cbn [negb andb].
  repeat match goal with
         | |- context [if ?c then _ else _] => destruct c
         end;
    rewrite ?Contains_indexed_after; reflexivity.
Qed.

(** On a fresh index every call goes the same way and leaves the loop as
    it is. *)
Lemma Contains_calls_fresh l ps :
  is_fresh (index_ l) = true ->
  snd (Contains_calls l ps) = l
  /\ fst (Contains_calls l ps) = map (fun p => path (Contains l p)) ps.
Proof.
  intros Hf. induction ps as [ | p ps [IH1 IH2]]; [now split | ].
  cbn [Contains_calls map].
  rewrite (Contains_fresh_unchanged l p Hf).
  destruct (Contains_calls l ps) as [paths l'].
  cbn [fst snd] in *. now subst.
Qed.

(** With a fresh index, a loop of more than 32 vertices looks every point
    up. *)
Lemma Contains_fresh_large l p :
  is_fresh (index_ l) = true -> num_shape_ids (index_ l) <> 0 ->
  32 < num_vertices l -> path (Contains l p) = IndexLookup.
Proof.
  intros Hf Hs Hn. unfold Contains. rewrite Hf. cbn [negb andb].
  destruct (Z.eqb_spec (num_shape_ids (index_ l)) 0); [contradiction | ].
  unfold kMaxBruteForceVertices.
  destruct (Z.leb_spec (num_vertices l) 32); [lia | ].
  apply Contains_indexed_path.
Qed.

(** X2: A loop of more than 32 vertices whose shape has been added to the
    index answers its first 19 calls that pass the bound by brute force;
    the 20th such call builds the index, and from then on every call looks
    the point up and the counter stays at 20. *)
Theorem Contains_calls_until_indexed (l : S2Loop) (ps : list S2Point) :
  num_shape_ids (index_ l) <> 0 -> 32 < num_vertices l ->
  is_fresh (index_ l) = false -> unindexed_contains_calls_ l = 0 ->
  Forall (fun p => S2LatLngRect_Contains (bound_ l) p = true) ps ->
  fst (Contains_calls l ps)
  = repeat BruteForce (Nat.min (length ps) 19)
    ++ repeat IndexLookup (length ps - 19)
  /\ unindexed_contains_calls_ (snd (Contains_calls l ps))
     = Z.of_nat (Nat.min (length ps) 20)
  /\ is_fresh (index_ (snd (Contains_calls l ps))) = (20 <=? length ps)%nat.
Proof.
  intros Hs Hn Hf Hc Hb.
  (* generalized over the number [c] of calls already counted *)
  assert (G : forall ps l (c : nat),
             (c < 20)%nat -> num_shape_ids (index_ l) <> 0 ->
             32 < num_vertices l -> is_fresh (index_ l) = false ->
             unindexed_contains_calls_ l = Z.of_nat c ->
             Forall (fun p => S2LatLngRect_Contains (bound_ l) p = true) ps ->
             fst (Contains_calls l ps)
             = repeat BruteForce (Nat.min (length ps) (19 - c))
               ++ repeat IndexLookup (length ps - (19 - c))
             /\ unindexed_contains_calls_ (snd (Contains_calls l ps))
                = Z.of_nat (Nat.min (c + length ps) 20)
             /\ is_fresh (index_ (snd (Contains_calls l ps)))
                = (20 <=? c + length ps)%nat).
  { clear. induction ps as [ | p ps IH]; intros l c Hc Hs Hn Hf Hcnt Hb.
    - cbn [Contains_calls fst snd length].
      rewrite Nat.min_0_l, Nat.sub_0_l, Nat.add_0_r, Hcnt, Hf.
      repeat split; [f_equal; lia | ].
      symmetry. apply Nat.leb_gt. lia.
    - inversion Hb as [ | ? ? Hp Hb']; subst.
      cbn [Contains_calls length].
      assert (Hinc : Barrier_AtomicIncrement (unindexed_contains_calls_ l) 1
                     = Z.of_nat (S c)).
      { unfold Barrier_AtomicIncrement, wrap_int32. rewrite Hcnt.
        rewrite Z.mod_small by lia. lia. }
      assert (Hsplit : Contains l p
                       = if negb (Z.of_nat (S c) =? 20)
                         then Contains_brute (set_calls l (Z.of_nat (S c))) p
                         else Contains_indexed (set_calls l (Z.of_nat (S c))) p).
      { unfold Contains. rewrite Hf, Hp. cbn [negb andb].
        destruct (Z.eqb_spec (num_shape_ids (index_ l)) 0); [contradiction | ].
        unfold kMaxBruteForceVertices.
        destruct (Z.leb_spec (num_vertices l) 32); [lia | ].
        rewrite Hinc. reflexivity. }
      rewrite Hsplit.
      destruct (Z.eqb_spec (Z.of_nat (S c)) 20) as [E | E]; cbn [negb].
      + (* the twentieth counted call *)
        assert (c = 19)%nat by lia. subst c.
        rewrite Contains_indexed_path, Contains_indexed_after.
        set (l1 := set_index _ _).
        destruct (Contains_calls_fresh l1 ps eq_refl) as [H1 H2].
        destruct (Contains_calls l1 ps) as [paths l']. cbn [fst snd] in *.
        subst l' paths.
        replace (map (fun p0 => path (Contains l1 p0)) ps)
          with (repeat IndexLookup (length ps)).
        * rewrite Nat.sub_diag, Nat.min_0_r, Nat.sub_0_r.
          repeat split.
          replace (Nat.min (19 + S (length ps)) 20) with 20%nat by lia.
          reflexivity.
        * clear - Hs Hn. induction ps as [ | q ps IHq]; [reflexivity | ].
          cbn [map repeat length]. rewrite <- IHq. f_equal.
          symmetry. apply Contains_fresh_large; [reflexivity | exact Hs | exact Hn].
      + (* a counted call below the threshold *)
        set (l1 := set_calls l (Z.of_nat (S c))).
        specialize (IH l1 (S c) ltac:(lia) Hs Hn Hf eq_refl Hb').
        destruct IH as (I1 & I2 & I3).
        cbn [Contains_brute path after].
        destruct (Contains_calls l1 ps) as [paths l']. cbn [fst snd] in *.
        subst paths. rewrite I2, I3.
        replace (Nat.min (S (length ps)) (19 - c))
          with (S (Nat.min (length ps) (19 - S c))) by lia.
        replace (S (length ps) - (19 - c))%nat
          with (length ps - (19 - S c))%nat by lia.
        repeat split; [f_equal; lia | f_equal; lia]. }
  specialize (G ps l 0%nat ltac:(lia) Hs Hn Hf Hc Hb).
  rewrite Nat.sub_0_r in G. exact G.
Qed.

End ContainsLife.

Lemma Contains_calls_until_indexed_witness :
  let l := sample_loop (ramp 33) false 0 S2LatLngRect_Full (mkS2ShapeIndex 1 false) in
  let r := @Contains_calls sample_collab l (repeat north_pole 21) in
  fst r = repeat BruteForce 19 ++ repeat IndexLookup 2
  /\ unindexed_contains_calls_ (snd r) = 20
  /\ is_fresh (index_ (snd r)) = true.
Proof.
  intros l r.
  apply (@Contains_calls_until_indexed sample_collab l (repeat north_pole 21)).
  - discriminate.
  - vm_compute. reflexivity.
  - reflexivity.
  - reflexivity.
  - repeat constructor.
Defined.

Section SmallLoops.
Context {collab : Collaborators} {flags : Flags}.

(** X3: A loop of fewer than three vertices (a sentinel, or an invalid loop of
    zero or two vertices) never looks at an edge or at the index: unless
    the bound rejects the point, the answer is [origin_inside_], and the
    loop is left as it was.  So the empty loop contains no point. *)
Theorem Contains_small_loop (l : S2Loop) (p : S2Point) :
  num_vertices l < 3 ->
  answer (Contains l p)
  = origin_inside_ l
    && (is_fresh (index_ l) || S2LatLngRect_Contains (bound_ l) p)
  /\ path (Contains l p) <> IndexLookup
  /\ after (Contains l p) = l
  /\ (is_empty l = true -> answer (Contains l p) = false).
Proof.
  intros Hn.
  assert (Hb : BruteForceContains l p = origin_inside_ l).
  { unfold BruteForceContains. destruct (Z.ltb_spec (num_vertices l) 3); [reflexivity | lia]. }
  assert (H : answer (Contains l p)
              = origin_inside_ l
                && (is_fresh (index_ l) || S2LatLngRect_Contains (bound_ l) p)
              /\ path (Contains l p) <> IndexLookup
              /\ after (Contains l p) = l).
  { unfold Contains, kMaxBruteForceVertices.
    destruct (is_fresh (index_ l)), (S2LatLngRect_Contains (bound_ l) p);
      cbn [negb andb orb];
      try (destruct (num_shape_ids (index_ l) =? 0));
      try (destruct (Z.leb_spec (num_vertices l) 32); [ | lia]);
      cbn [Contains_brute answer path after];
      rewrite ?Hb, ?andb_true_r, ?andb_false_r;
      repeat split; discriminate. }
  destruct H as (Ha & Hp & Hl). repeat (apply conj); auto.
  unfold is_empty, contains_origin. intros He.
  apply andb_prop in He as [_ Ho]. apply negb_true_iff in Ho.
  rewrite Ha, Ho. reflexivity.
Qed.

End SmallLoops.

Lemma Contains_small_loop_witness :
  answer (@Contains sample_collab empty_at_x north_pole) = false.
Proof.
  destruct (@Contains_small_loop sample_collab empty_at_x north_pole)
    as (_ & _ & _ & He).
  - vm_compute. reflexivity.
  - apply He. reflexivity.
Defined.

Section AreaRange.
Context {collab : Collaborators}.

(** X4: [GetArea] lies between 0 and 4 pi for every loop, also when the
    surface integral is out of range, infinite or a NaN. *)
Theorem GetArea_range (l : S2Loop) :
  PrimFloat.leb 0 (GetArea l) = true
  /\ PrimFloat.leb (GetArea l) (4 * M_PI) = true.
Proof.
  unfold GetArea.
  destruct (is_empty_or_full l).
  - destruct (contains_origin l); vm_compute; split; reflexivity.
  - cbv zeta.
    set (area := std_max 0 (std_min (4 * M_PI) _)).
    assert (H00 : PrimFloat.leb 0 0 = true) by (vm_compute; reflexivity).
    assert (H04 : PrimFloat.leb 0 (4 * M_PI) = true) by (vm_compute; reflexivity).
    assert (H44 : PrimFloat.leb (4 * M_PI) (4 * M_PI) = true)
      by (vm_compute; reflexivity).
    destruct (clamp_bounds 0 (4 * M_PI)
                (if PrimFloat.ltb (GetSurfaceIntegral_SignedArea (vertices_ l)) 0
                 then (GetSurfaceIntegral_SignedArea (vertices_ l) + 4 * M_PI)%float
                 else GetSurfaceIntegral_SignedArea (vertices_ l))
                H00 H04 H44) as [Hlo Hhi].
    fold area in Hlo, Hhi.
    destruct (_ && _); [vm_compute; split; reflexivity | ].
    destruct (_ && _); [vm_compute; split; reflexivity | ].
    split; assumption.
Qed.

End AreaRange.

(* ================================================================= *)
(** ** Construction and mutation *)

Lemma getn_S2Points_length n d : length (fst (getn_S2Points n d)) = n.
Proof.
  revert d. induction n as [ | n IH]; intros d; [reflexivity | ].
  cbn [getn_S2Points]. destruct (get_S2Point d) as [q d1].
  specialize (IH d1). destruct (getn_S2Points n d1) as [ps d2].
  cbn [fst length] in *. now rewrite IH.
Qed.

Section Lifecycle.
Context {collab : Collaborators} {flags : Flags} {codec : CodecCollaborators}.




End Lifecycle.

Section InitFacts.
Context {collab : Collaborators} {flags : Flags}.


(** X7: [Init] with no vertex or with two vertices stops early: the loop gets
    [origin_inside_ = false] and no bounds or index of its own (the bounds
    are those the object had before), and it contains no point. *)
Theorem Init_too_few_vertices (l0 : S2Loop) (vs : list S2Point) (p : S2Point) :
  length vs = 0%nat \/ length vs = 2%nat ->
  exists l,
    Init l0 vs = Some l
    /\ vertices_ l = vs /\ origin_inside_ l = false
    /\ index_ l = mkS2ShapeIndex 0 true
    /\ bound_ l = bound_ l0 /\ subregion_bound_ l = subregion_bound_ l0
    /\ answer (Contains l p) = false.
Proof.
  intros Hn.
  assert (E : Init l0 vs
              = Some (set_origin_inside
                        (set_vertices (ResetMutableFields l0) vs true) false)).
  { unfold Init, InitOriginAndBound, is_empty_or_full, num_vertices.
    cbn [vertices_ set_vertices].
    destruct Hn as [-> | ->]; reflexivity. }
  eexists. split; [exact E | ]. repeat (apply conj); try reflexivity.
  unfold Contains.
  cbn [index_ set_origin_inside set_vertices ResetMutableFields set_index
       set_calls S2ShapeIndex_Reset is_fresh num_shape_ids negb andb Z.eqb].
  cbn [Contains_brute answer]. unfold BruteForceContains, num_vertices.
  cbn [vertices_ set_origin_inside set_vertices].
  destruct Hn as [-> | ->]; reflexivity.
Qed.


End InitFacts.

Lemma Init_too_few_vertices_witness :
  exists l,
    @Init sample_collab debug_flags octant_built
          [mkS2Point 1 0 0; mkS2Point 0 1 0] = Some l
    /\ answer (@Contains sample_collab l north_pole) = false
    /\ bound_ l = north_band.
Proof.
  destruct (@Init_too_few_vertices sample_collab debug_flags octant_built
              [mkS2Point 1 0 0; mkS2Point 0 1 0] north_pole)
    as (l & E & _ & _ & _ & Hb & _ & Hc).
  - right. reflexivity.
  - exists l. split; [exact E | ]. split; [exact Hc | exact Hb].
Defined.

(* ================================================================= *)
(** ** Validation *)

Lemma Zrange_cons lo len : Zrange lo (S len) = lo :: Zrange (lo + 1) len.
Proof.
  unfold Zrange. cbn [seq map]. f_equal; [lia | ].
  rewrite <- seq_shift, map_map. apply map_ext. intros k. lia.
Qed.

(** A search through a range stops at the least index that passes. *)
Lemma find_Zrange (f : Z -> bool) lo len :
  match find f (Zrange lo len) with
  | Some i => lo <= i < lo + Z.of_nat len /\ f i = true
              /\ forall j, lo <= j < i -> f j = false
  | None => forall j, lo <= j < lo + Z.of_nat len -> f j = false
  end.
Proof.
  revert lo. induction len as [ | len IH]; intros lo.
  - cbn. intros j Hj. lia.
  - rewrite Zrange_cons. cbn [find]. destruct (f lo) eqn:E.
    + split; [lia | split; [exact E | intros j Hj; lia]].
    + specialize (IH (lo + 1)). destruct (find f (Zrange (lo + 1) len)) as [i | ].
      * destruct IH as (Hr & Hi & Hless). split; [lia | split; [exact Hi | ]].
        intros j Hj. destruct (Z.eq_dec j lo) as [-> | ]; [exact E | ].
        apply Hless. lia.
      * intros j Hj. destruct (Z.eq_dec j lo) as [-> | ]; [exact E | ].
        apply IH. lia.
Qed.

Lemma find_Zrange_Some_iff (f : Z -> bool) lo len i :
  find f (Zrange lo len) = Some i <->
  lo <= i < lo + Z.of_nat len /\ f i = true /\ forall j, lo <= j < i -> f j = false.
Proof.
  pose proof (find_Zrange f lo len) as H.
  destruct (find f (Zrange lo len)) as [i' | ]; split.
  - intros [= <-]. exact H.
  - intros (Hr & Hi & Hless). destruct H as (Hr' & Hi' & Hless').
    f_equal. destruct (Z.lt_trichotomy i i') as [Hlt | [-> | Hgt]]; [ | reflexivity | ].
    + rewrite Hless' in Hi by lia. discriminate.
    + rewrite Hless in Hi' by lia. discriminate.
  - discriminate.
  - intros (Hr & Hi & _). rewrite H in Hi by lia. discriminate.
Qed.

Lemma find_Zrange_None_iff (f : Z -> bool) lo len :
  find f (Zrange lo len) = None <->
  forall j, lo <= j < lo + Z.of_nat len -> f j = false.
Proof.
  pose proof (find_Zrange f lo len) as H.
  destruct (find f (Zrange lo len)) as [i | ]; split; auto.
  - discriminate.
  - intros Hall. destruct H as (Hr & Hi & _). rewrite Hall in Hi by lia.
    discriminate.
Qed.

Section Validation.
Context {collab : Collaborators}.

(** X9: [FindValidationErrorNoIndex] finds no error exactly when every vertex
    is unit length and the loop either has one vertex or has three or more
    with no edge between equal vertices (the closing edge included).
    Otherwise it reports, in this order of precedence: the first vertex
    that is not unit length; too few vertices, for zero or two; the first
    degenerate edge. *)
Theorem FindValidationErrorNoIndex_spec (l : S2Loop) :
  let n := num_vertices l in
  let all_unit := forall i, 0 <= i < n -> S2_IsUnitLength (vertex l i) = true in
  (FindValidationErrorNoIndex l = None <->
     all_unit
     /\ (n = 1
         \/ (3 <= n
             /\ forall i, 0 <= i < n ->
                          S2Point_eqb (vertex l i) (vertex l (i + 1)) = false)))
  /\ (forall i, FindValidationErrorNoIndex l = Some (NOT_UNIT_LENGTH i) <->
        0 <= i < n /\ S2_IsUnitLength (vertex l i) = false
        /\ forall j, 0 <= j < i -> S2_IsUnitLength (vertex l j) = true)
  /\ (FindValidationErrorNoIndex l = Some LOOP_NOT_ENOUGH_VERTICES <->
        all_unit /\ (n = 0 \/ n = 2))
  /\ (forall i, FindValidationErrorNoIndex l = Some (DUPLICATE_VERTICES i) <->
        all_unit /\ 3 <= n /\ 0 <= i < n
        /\ S2Point_eqb (vertex l i) (vertex l (i + 1)) = true
        /\ forall j, 0 <= j < i ->
                     S2Point_eqb (vertex l j) (vertex l (j + 1)) = false).
Proof.
  intros n all_unit. unfold FindValidationErrorNoIndex.
  assert (Hn : n = Z.of_nat (length (vertices_ l))) by reflexivity.
  pose proof (find_Zrange (fun i => negb (S2_IsUnitLength (vertex l i))) 0
                          (length (vertices_ l))) as Hu.
  pose proof (find_Zrange (fun i => S2Point_eqb (vertex l i) (vertex l (i + 1))) 0
                          (length (vertices_ l))) as Hd.
  cbv beta in Hu, Hd. rewrite <- Hn in Hu, Hd.
  unfold is_empty_or_full. fold n.
  destruct (find (fun i => negb (S2_IsUnitLength (vertex l i))) _) as [u | ].
  - (* some vertex is not unit length *)
    destruct Hu as (Hr & Hi & Hless). apply negb_true_iff in Hi.
    assert (Hnot : ~ all_unit).
    { intros Hall. rewrite (Hall u) in Hi by lia. discriminate. }
    assert (Hless' : forall j, 0 <= j < u -> S2_IsUnitLength (vertex l j) = true).
    { intros j Hj. apply negb_false_iff. apply Hless. lia. }
    split; [ | split; [ | split]].
    + split; [discriminate | intros [Hall _]; contradiction].
    + intros i. split.
      * intros [= <-]. split; [lia | split; [exact Hi | exact Hless']].
      * intros (Hir & Hif & Hil). f_equal. f_equal.
        destruct (Z.lt_trichotomy i u) as [Hlt | [-> | Hgt]]; [ | reflexivity | ].
        -- rewrite Hless' in Hif by lia. discriminate.
        -- rewrite Hil in Hi by lia. discriminate.
    + split; [discriminate | intros [Hall _]; contradiction].
    + intros i. split; [discriminate | intros [Hall _]; contradiction].
  - (* all vertices are unit length *)
    assert (Hall : all_unit).
    { intros i Hi. apply negb_false_iff. apply Hu. lia. }
    destruct (Z.ltb_spec n 3) as [Hlt | Hge].
    + destruct (Z.eqb_spec n 1) as [H1 | H1].
      * split; [ | split; [ | split]].
        -- split; auto.
        -- intros i. split; [discriminate | ].
           intros (Hr & Hf & _). rewrite Hall in Hf by lia. discriminate.
        -- split; [discriminate | intros [_ [? | ?]]; lia].
        -- intros i. split; [discriminate | intros (_ & ? & _); lia].
      * assert (n = 0 \/ n = 2) by lia.
        split; [ | split; [ | split]].
        -- split; [discriminate | intros [_ [? | [? _]]]; lia].
        -- intros i. split; [discriminate | ].
           intros (Hr & Hf & _). rewrite Hall in Hf by lia. discriminate.
        -- split; auto.
        -- intros i. split; [discriminate | intros (_ & ? & _); lia].
    + destruct (find (fun i => S2Point_eqb (vertex l i) (vertex l (i + 1))) _)
        as [e | ].
      * destruct Hd as (Hr & He & Hless).
        split; [ | split; [ | split]].
        -- split; [discriminate | ].
           intros [_ [? | [_ Hno]]]; [lia | ]. rewrite Hno in He by lia.
           discriminate.
        -- intros i. split; [discriminate | ].
           intros (Hir & Hf & _). rewrite Hall in Hf by lia. discriminate.
        -- split; [discriminate | intros [_ [? | ?]]; lia].
        -- intros i. split.
           ++ intros [= <-].
              split; [exact Hall | split; [lia | split; [lia | split; [exact He | ]]]].
              intros j Hj. apply Hless. lia.
           ++ intros (_ & _ & Hir & Hie & Hil). f_equal. f_equal.
              destruct (Z.lt_trichotomy i e) as [Hlt | [-> | Hgt]]; [ | reflexivity | ].
              ** rewrite Hless in Hie by lia. discriminate.
              ** rewrite Hil in He by lia. discriminate.
      * split; [ | split; [ | split]].
        -- split; [intros _ | reflexivity].
           split; [exact Hall | right; split; [exact Hge | ]].
           intros i Hi. apply Hd. lia.
        -- intros i. split; [discriminate | ].
           intros (Hir & Hf & _). rewrite Hall in Hf by lia. discriminate.
        -- split; [discriminate | intros [_ [? | ?]]; lia].
        -- intros i. split; [discriminate | ].
           intros (_ & _ & Hir & Hie & _). rewrite Hd in Hie by lia. discriminate.
Qed.

End Validation.

(** The octant triangle passes; the empty loop at (1, 0, 0) passes; two
    vertices are too few; a repeated neighbour is reported at its edge. *)
Example FindValidationErrorNoIndex_runs :
  @FindValidationErrorNoIndex sample_collab octant_built = None
  /\ @FindValidationErrorNoIndex sample_collab empty_at_x = None
  /\ @FindValidationErrorNoIndex sample_collab
       (sample_loop [mkS2Point 1 0 0; mkS2Point 0 1 0] false 0 north_band
                    (mkS2ShapeIndex 0 true))
     = Some LOOP_NOT_ENOUGH_VERTICES
  /\ @FindValidationErrorNoIndex sample_collab
       (sample_loop [mkS2Point 1 0 0; mkS2Point 0 1 0; mkS2Point 0 1 0;
                     mkS2Point 0 0 1] false 0 north_band (mkS2ShapeIndex 0 true))
     = Some (DUPLICATE_VERTICES 1)
  /\ @FindValidationErrorNoIndex sample_collab
       (sample_loop [mkS2Point 0 0 1; mkS2Point 0 1 0; mkS2Point 0 0 1]
                    false 0 north_band (mkS2ShapeIndex 0 true))
     = Some (DUPLICATE_VERTICES 2).
Proof. vm_compute. repeat split; reflexivity. Qed.

(* ================================================================= *)
(** ** Equality of loops *)

Lemma SFcompare_refl f : f <> S754_nan -> SFcompare f f = Some Eq.
Proof.
  destruct f as [s | s | | s m e]; try congruence; intros _; cbn [SFcompare].
  - reflexivity.
  - now destruct s.
  - change (Pos.compare_cont Eq m m) with (m ?= m)%positive.
    rewrite Z.compare_refl, Pos.compare_refl. now destruct s.
Qed.

(** [operator==] on doubles holds between numbers only. *)
Lemma double_eqb_numbers x y :
  PrimFloat.eqb x y = true -> is_number x = true /\ is_number y = true.
Proof.
  unfold is_number, PrimFloat.is_nan. rewrite !FloatAxioms.eqb_spec.
  unfold SFeqb. intros H.
  assert (Hx : Prim2SF x <> S754_nan) by (intros E; rewrite E in H; discriminate).
  assert (Hy : Prim2SF y <> S754_nan).
  { intros E. rewrite E in H. destruct (Prim2SF x); discriminate. }
  rewrite !SFcompare_refl by assumption. split; reflexivity.
Qed.

Lemma double_eqb_sym x y : PrimFloat.eqb x y = PrimFloat.eqb y x.
Proof.
  destruct (PrimFloat.eqb x y) eqn:E1, (PrimFloat.eqb y x) eqn:E2; try reflexivity.
  - destruct (double_eqb_numbers _ _ E1) as [Hx Hy].
    apply (double_eqb_key _ _ Hx Hy) in E1. symmetry in E1.
    apply (double_eqb_key _ _ Hy Hx) in E1. congruence.
  - destruct (double_eqb_numbers _ _ E2) as [Hy Hx].
    apply (double_eqb_key _ _ Hy Hx) in E2. symmetry in E2.
    apply (double_eqb_key _ _ Hx Hy) in E2. congruence.
Qed.

Lemma double_eqb_trans x y z :
  PrimFloat.eqb x y = true -> PrimFloat.eqb y z = true -> PrimFloat.eqb x z = true.
Proof.
  intros E1 E2.
  destruct (double_eqb_numbers _ _ E1) as [Hx Hy].
  destruct (double_eqb_numbers _ _ E2) as [_ Hz].
  apply (double_eqb_key _ _ Hx Hy) in E1. apply (double_eqb_key _ _ Hy Hz) in E2.
  apply (double_eqb_key _ _ Hx Hz). congruence.
Qed.

Lemma S2Point_eqb_sym a b : S2Point_eqb a b = S2Point_eqb b a.
Proof.
  unfold S2Point_eqb.
  now rewrite (double_eqb_sym (pt_x a)), (double_eqb_sym (pt_y a)),
    (double_eqb_sym (pt_z a)).
Qed.

Lemma S2Point_eqb_trans a b c :
  S2Point_eqb a b = true -> S2Point_eqb b c = true -> S2Point_eqb a c = true.
Proof.
  unfold S2Point_eqb. rewrite !andb_true_iff.
  intros [[X1 Y1] Z1] [[X2 Y2] Z2].
  repeat split; eapply double_eqb_trans; eauto.
Qed.

(** A point equals itself exactly when none of its coordinates is a NaN. *)
Lemma S2Point_eqb_refl a : S2Point_eqb a a = numeric_point a.
Proof.
  unfold S2Point_eqb, numeric_point, is_number, PrimFloat.is_nan.
  now rewrite !negb_involutive.
Qed.

Lemma existsb_false_iff {A : Type} (f : A -> bool) (l : list A) :
  existsb f l = false <-> forall x, In x l -> f x = false.
Proof.
  induction l as [ | y l IH]; cbn [existsb In].
  - split; [intros _ x [] | reflexivity].
  - rewrite orb_false_iff, IH. split.
    + intros [Hy Hl] x [<- | Hx]; auto.
    + intros H. split; [apply H; now left | intros x Hx; apply H; now right].
Qed.

Lemma Equals_iff (a b : S2Loop) :
  Equals a b = true <->
  num_vertices a = num_vertices b
  /\ forall i, 0 <= i < num_vertices a ->
               S2Point_eqb (vertex a i) (vertex b i) = true.
Proof.
  unfold Equals.
  destruct (Z.eqb_spec (num_vertices a) (num_vertices b)) as [Hn | Hn];
    cbn [negb]; [ | split; [discriminate | intros [? _]; contradiction]].
  rewrite negb_true_iff, existsb_false_iff. split.
  - intros H. split; [exact Hn | ]. intros i Hi.
    apply negb_false_iff. apply H.
    apply In_Zrange. unfold num_vertices in Hi. lia.
  - intros [_ H] i Hi.
    apply In_Zrange in Hi. unfold S2Point_neqb. rewrite H; [reflexivity | ].
    unfold num_vertices. lia.
Qed.

Lemma vertex_nth l i :
  (i < length (vertices_ l))%nat ->
  vertex l (Z.of_nat i) = nth i (vertices_ l) no_vertex.
Proof.
  intros Hi. rewrite vertex_in_range by (unfold num_vertices; lia).
  unfold num_vertices. rewrite Z.mod_small by lia. now rewrite Nat2Z.id.
Qed.

(** X10: [Equals] compares the vertex sequences with [operator==]: it is
    symmetric and transitive, and a loop equals itself exactly when none
    of its coordinates is a NaN. *)
Theorem Equals_partial_equivalence (a b c : S2Loop) :
  Equals a b = Equals b a
  /\ (Equals a b = true -> Equals b c = true -> Equals a c = true)
  /\ (Equals a a = true <->
      Forall (fun p => numeric_point p = true) (vertices_ a)).
Proof.
  split; [ | split].
  - assert (H : forall x y, Equals x y = true -> Equals y x = true).
    { intros x y Hxy. apply Equals_iff in Hxy as [Hn Hv].
      apply Equals_iff. split; [now symmetry | ].
      intros i Hi. rewrite S2Point_eqb_sym. apply Hv. lia. }
    destruct (Equals a b) eqn:E1, (Equals b a) eqn:E2; try reflexivity.
    + apply H in E1. congruence.
    + apply H in E2. congruence.
  - intros Hab Hbc. apply Equals_iff in Hab as [Hn1 Hv1].
    apply Equals_iff in Hbc as [Hn2 Hv2]. apply Equals_iff.
    split; [congruence | ]. intros i Hi.
    apply (S2Point_eqb_trans _ (vertex b i)); [apply Hv1 | apply Hv2]; lia.
  - rewrite Equals_iff, Forall_forall. split.
    + intros [_ H] p Hp. destruct (In_nth _ _ no_vertex Hp) as (i & Hi & <-).
      rewrite <- vertex_nth by exact Hi. rewrite <- S2Point_eqb_refl.
      apply H. unfold num_vertices. lia.
    + intros H. split; [reflexivity | ]. intros i Hi.
      rewrite S2Point_eqb_refl. apply H.
      unfold num_vertices in Hi.
      replace i with (Z.of_nat (Z.to_nat i)) by lia.
      rewrite vertex_nth by lia. apply nth_In. lia.
Qed.

Lemma Equals_partial_equivalence_witness :
  Equals octant_built
         (sample_loop octant true 7 S2LatLngRect_Empty (mkS2ShapeIndex 0 true))
  = true.
Proof.
  destruct (Equals_partial_equivalence
              octant_built octant_built
              (sample_loop octant true 7 S2LatLngRect_Empty (mkS2ShapeIndex 0 true)))
    as (_ & Htrans & Hrefl).
  apply Htrans; [ | reflexivity].
  apply Hrefl. repeat constructor.
Defined.

(** A NaN coordinate makes a loop different from itself. *)
Example Equals_not_reflexive :
  Equals (sample_loop [mkS2Point nan 0 0] false 0 S2LatLngRect_Empty
                      (mkS2ShapeIndex 0 true))
         (sample_loop [mkS2Point nan 0 0] false 0 S2LatLngRect_Empty
                      (mkS2ShapeIndex 0 true))
  = false.
Proof. vm_compute. reflexivity. Qed.

(** The offset at which [BoundaryEquals] matches two loops that are not
    sentinels. *)
Lemma BoundaryEquals_offset (a b : S2Loop) :
  BoundaryEquals a b = true -> num_vertices a <> 1 ->
  exists k, 0 <= k < num_vertices a
            /\ forall i, 0 <= i < num_vertices a ->
                         S2Point_eqb (vertex a (i + k)) (vertex b i) = true.
Proof.
  unfold BoundaryEquals, is_empty_or_full.
  destruct (negb (num_vertices a =? num_vertices b)); [discriminate | ].
  destruct (Z.eqb_spec (num_vertices a) 1) as [H1 | H1]; [contradiction | ].
  pose proof (find_Zrange (fun offset => S2Point_eqb (vertex a offset) (vertex b 0))
                          0 (length (vertices_ a))) as Hf.
  destruct (find _ _) as [k | ]; [ | discriminate].
  destruct Hf as (Hk & _ & _).
  rewrite negb_true_iff, existsb_false_iff. intros H _.
  exists k. split; [unfold num_vertices; lia | ].
  intros i Hi. apply negb_false_iff. apply H. apply In_Zrange.
  unfold num_vertices in Hi. lia.
Qed.

(** X11: When [BoundaryEquals] answers true, the loops have the same number of
    vertices; sentinels are of the same kind; and otherwise (at least one
    vertex is implied) some cyclic shift of the first loop matches the
    second, vertex by vertex. *)
Theorem BoundaryEquals_sound (a b : S2Loop) :
  BoundaryEquals a b = true ->
  num_vertices a = num_vertices b
  /\ (num_vertices a = 1 -> is_empty a = is_empty b)
  /\ (num_vertices a <> 1 ->
      exists k, 0 <= k < num_vertices a
                /\ forall i, 0 <= i < num_vertices a ->
                             S2Point_eqb (vertex a (i + k)) (vertex b i) = true).
Proof.
  intros H. split; [ | split].
  - unfold BoundaryEquals in H.
    destruct (Z.eqb_spec (num_vertices a) (num_vertices b)); [assumption | ].
    discriminate.
  - intros H1. unfold BoundaryEquals, is_empty_or_full in H.
    destruct (negb (num_vertices a =? num_vertices b)); [discriminate | ].
    rewrite H1 in H. cbn [Z.eqb Pos.eqb] in H. now apply eqb_prop in H.
  - now apply BoundaryEquals_offset.
Qed.

(** Different positions of a loop without repeated vertices hold points
    that [operator==] tells apart. *)
Lemma distinct_vertices_ring vs i j :
  distinct_vertices vs -> vs <> [] ->
  (i - j) mod Z.of_nat (length vs) <> 0 ->
  S2Point_eqb (ring vs i) (ring vs j) = false.
Proof.
  intros Hd Hne Hij.
  pose proof (distinct_vertices_strictly_ordered vs Hd) as (Hnd & _).
  destruct Hd as [_ Hp].
  destruct (ForallOrdPairs_In Hp (ring vs i) (ring vs j)
              (ring_In vs i Hne) (ring_In vs j Hne)) as [E | [E | E]].
  - apply ring_inj in E; auto. contradiction.
  - exact E.
  - now rewrite S2Point_eqb_sym.
Qed.

(** X12: On loops without NaN coordinates and without repeated vertices,
    [BoundaryEquals] recognizes every rotation of the vertex list. *)
Theorem BoundaryEquals_rotation (a b : S2Loop) (k : nat) :
  distinct_vertices (vertices_ a) -> 2 <= num_vertices a ->
  (k <= length (vertices_ a))%nat ->
  vertices_ b = rotate k (vertices_ a) ->
  BoundaryEquals a b = true.
Proof.
  intros Hd Hn Hk Hb.
  set (vs := vertices_ a) in *.
  assert (Hne : vs <> []) by (intros E; unfold num_vertices in Hn; fold vs in Hn;
                              rewrite E in Hn; simpl in Hn; lia).
  assert (Hlen : num_vertices b = num_vertices a).
  { unfold num_vertices. rewrite Hb. fold vs. now rewrite rotate_length. }
  assert (Hva : forall i, 0 <= i < 2 * num_vertices a -> vertex a i = ring vs i).
  { intros i Hi. now apply vertex_ring. }
  assert (Hvb : forall i, 0 <= i < 2 * num_vertices a ->
                          vertex b i = ring vs (i + Z.of_nat k)).
  { intros i Hi. rewrite vertex_ring by lia. rewrite Hb. now apply ring_rotate. }
  assert (Hnum : forall i, numeric_point (ring vs i) = true).
  { intros i. destruct Hd as [Hnum _]. rewrite Forall_forall in Hnum.
    apply Hnum. now apply ring_In. }
  unfold BoundaryEquals, is_empty_or_full. rewrite Hlen, Z.eqb_refl. cbn [negb].
  destruct (Z.eqb_spec (num_vertices a) 1) as [H1 | H1]; [lia | ].
  set (n := num_vertices a) in *.
  assert (Hnn : n = Z.of_nat (length vs)) by reflexivity.
  assert (Hfind : find (fun offset => S2Point_eqb (vertex a offset) (vertex b 0))
                       (Zrange 0 (length (vertices_ a)))
                  = Some (Z.of_nat k mod n)).
  { pose proof (Z.mod_pos_bound (Z.of_nat k) n ltac:(lia)) as Hm.
    apply find_Zrange_Some_iff. fold vs. rewrite <- Hnn.
    split; [lia | split].
    - rewrite Hva, Hvb by lia. cbn [Z.add].
      rewrite Hnn, ring_mod, S2Point_eqb_refl. apply Hnum.
    - intros j Hj. rewrite Hva, Hvb by lia. cbn [Z.add].
      apply distinct_vertices_ring; [exact Hd | exact Hne | ]. rewrite <- Hnn.
      intros E. rewrite Zminus_mod, (Z.mod_small j n) in E by lia.
      apply Z.mod_divide in E; [ | lia]. destruct E as [q Hq].
      set (km := Z.of_nat k mod n) in *. clearbody km n.
      assert (Hq' : q <= -1 \/ 0 <= q) by lia. destruct Hq'; nia. }
  rewrite Hfind. rewrite negb_true_iff, existsb_false_iff.
  intros i Hi. apply In_Zrange in Hi. fold vs in Hi. rewrite <- Hnn in Hi.
  pose proof (Z.mod_pos_bound (Z.of_nat k) n ltac:(lia)) as Hm.
  unfold S2Point_neqb. rewrite Hva, Hvb by lia.
  rewrite (ring_congr vs (i + Z.of_nat k mod n) (i + Z.of_nat k)).
  - rewrite S2Point_eqb_refl, Hnum. reflexivity.
  - exact Hne.
  - rewrite <- Hnn.
    replace (i + Z.of_nat k mod n - (i + Z.of_nat k))
      with (Z.of_nat k mod n - Z.of_nat k) by lia.
    rewrite Zminus_mod_idemp_l, Z.sub_diag. apply Z.mod_0_l. lia.
Qed.

Lemma BoundaryEquals_rotation_witness :
  BoundaryEquals octant_built
    (sample_loop (rotate 2 octant) false 0 north_band (mkS2ShapeIndex 1 true))
  = true.
Proof.
  apply (BoundaryEquals_rotation octant_built _ 2).
  - exact octant_distinct.
  - vm_compute. discriminate.
  - simpl. lia.
  - reflexivity.
Defined.

Lemma BoundaryEquals_sound_witness :
  exists k, 0 <= k < 3
            /\ forall i, 0 <= i < 3 ->
                 S2Point_eqb
                   (vertex octant_built (i + k))
                   (vertex (sample_loop (rotate 2 octant) false 0 north_band
                                        (mkS2ShapeIndex 1 true)) i) = true.
Proof.
  destruct (BoundaryEquals_sound octant_built
              (sample_loop (rotate 2 octant) false 0 north_band
                           (mkS2ShapeIndex 1 true)))
    as (_ & _ & H).
  - vm_compute. reflexivity.
  - apply H. vm_compute. discriminate.
Defined.

(** With a repeated vertex the first matching offset can be the wrong one:
    the ring A B A C and its rotation by two are not found equal. *)
Example BoundaryEquals_repeated_vertex :
  let vs := [mkS2Point 0 0 1; mkS2Point 0 1 0; mkS2Point 0 0 1; mkS2Point 1 0 0] in
  BoundaryEquals (sample_loop vs false 0 north_band (mkS2ShapeIndex 1 true))
                 (sample_loop (rotate 2 vs) false 0 north_band
                              (mkS2ShapeIndex 1 true))
  = false
  /\ @BoundaryApproxEquals sample_preds
       (sample_loop vs false 0 north_band (mkS2ShapeIndex 1 true))
       (sample_loop (rotate 2 vs) false 0 north_band (mkS2ShapeIndex 1 true))
       0
     = true.
Proof. vm_compute. split; reflexivity. Qed.

(** X13: Loops that [Equals] finds equal have equal boundaries, provided they
    have a vertex and, if they are sentinels, are of the same kind
    ([Equals] does not look at [origin_inside_]). *)
Theorem Equals_BoundaryEquals (a b : S2Loop) :
  Equals a b = true -> 1 <= num_vertices a ->
  (num_vertices a = 1 -> origin_inside_ a = origin_inside_ b) ->
  BoundaryEquals a b = true.
Proof.
  intros He Hn Hoi. apply Equals_iff in He as [Hlen Hv].
  unfold BoundaryEquals, is_empty, is_empty_or_full, contains_origin.
  rewrite <- Hlen, Z.eqb_refl. cbn [negb].
  destruct (Z.eqb_spec (num_vertices a) 1) as [H1 | H1].
  - rewrite (Hoi H1). cbn [andb]. apply eqb_reflx.
  - assert (Hfind : find (fun offset => S2Point_eqb (vertex a offset) (vertex b 0))
                         (Zrange 0 (length (vertices_ a))) = Some 0).
    { apply find_Zrange_Some_iff.
      split; [unfold num_vertices in Hn; lia | ].
      split; [apply Hv; lia | intros j Hj; lia]. }
    rewrite Hfind, negb_true_iff, existsb_false_iff.
    intros i Hi. apply In_Zrange in Hi. unfold S2Point_neqb.
    rewrite Z.add_0_r, Hv; [reflexivity | unfold num_vertices; lia].
Qed.

Lemma Equals_BoundaryEquals_witness : BoundaryEquals octant_built octant_built = true.
Proof.
  apply Equals_BoundaryEquals.
  - reflexivity.
  - vm_compute. discriminate.
  - reflexivity.
Defined.

(** Two zero-vertex loops are [Equals] but not [BoundaryEquals], and two
    one-vertex loops with the same vertex and different [origin_inside_]
    likewise. *)
Example Equals_without_BoundaryEquals :
  Equals new_loop new_loop = true /\ BoundaryEquals new_loop new_loop = false
  /\ Equals empty_at_x (set_origin_inside empty_at_x true) = true
  /\ BoundaryEquals empty_at_x (set_origin_inside empty_at_x true) = false.
Proof. vm_compute. repeat split; reflexivity. Qed.

Section ApproxEquality.
Context {preds : PointPredicates}.

(** X14: If the approximate comparison accepts points that are equal (as it
    does for a tolerance that is not negative), every pair of loops with
    equal boundaries has approximately equal boundaries. *)
Theorem BoundaryEquals_BoundaryApproxEquals (a b : S2Loop) (max_error : float) :
  (forall p q, S2Point_eqb p q = true -> S2_ApproxEquals p q max_error = true) ->
  BoundaryEquals a b = true -> BoundaryApproxEquals a b max_error = true.
Proof.
  intros Happrox He.
  pose proof (BoundaryEquals_offset a b He) as Hk.
  unfold BoundaryEquals in He.
  unfold BoundaryApproxEquals. unfold is_empty_or_full in *.
  destruct (negb (num_vertices a =? num_vertices b)); [discriminate | ].
  destruct (Z.eqb_spec (num_vertices a) 1) as [E1 | E1].
  - exact He.
  - destruct (Hk E1) as (k & Hkr & Hmatch).
    apply existsb_exists. exists k. split.
    + apply In_Zrange. unfold num_vertices in Hkr. lia.
    + apply andb_true_intro. split.
      * apply Happrox. replace k with (0 + k) at 1 by lia. apply Hmatch. lia.
      * rewrite negb_true_iff, existsb_false_iff. intros i Hi.
        apply In_Zrange in Hi. apply negb_false_iff, Happrox, Hmatch.
        unfold num_vertices. lia.
Qed.

End ApproxEquality.

Lemma BoundaryEquals_BoundaryApproxEquals_witness :
  @BoundaryApproxEquals sample_preds octant_built
     (sample_loop (rotate 2 octant) false 0 north_band (mkS2ShapeIndex 1 true))
     0.5 = true.
Proof.
  apply (@BoundaryEquals_BoundaryApproxEquals sample_preds).
  - intros p q H. cbn [S2_ApproxEquals sample_preds]. now rewrite H.
  - vm_compute. reflexivity.
Defined.

(* ================================================================= *)
(** ** Inversion of the sentinels *)

Section InvertSentinels.
Context {collab : Collaborators} {flags : Flags}.

(** X15: [Invert] turns the empty loop into the full loop and back: the result
    has the canonical vertex of its kind; the full loop it makes has the
    full rectangle as both bounds whatever the bounds were; the empty loop
    it makes has the empty rectangle as both bounds provided the bound of
    the full loop reached a pole, as the full rectangle does. *)
Theorem Invert_swaps_sentinels (l l1 : S2Loop) :
  Invert l = Some l1 -> is_empty_or_full l = true ->
  is_empty_or_full l1 = true
  /\ is_full l1 = is_empty l /\ is_empty l1 = is_full l
  /\ vertices_ l1 = [if is_full l then kEmptyVertex else kFullVertex]
  /\ (is_empty l = true ->
      bound_ l1 = S2LatLngRect_Full /\ subregion_bound_ l1 = S2LatLngRect_Full)
  /\ (is_full l = true -> clear_of_poles (bound_ l) = false ->
      bound_ l1 = S2LatLngRect_Empty /\ subregion_bound_ l1 = S2LatLngRect_Empty).
Proof.
  intros Hi He.
  assert (Hvs : exists v, vertices_ l = [v]).
  { unfold is_empty_or_full, num_vertices in He.
    destruct (vertices_ l) as [ | v [ | w t]]; [discriminate | now exists v | ].
    simpl length in He.
    destruct (Z.eqb_spec (Z.of_nat (S (S (length t)))) 1); [lia | discriminate]. }
  destruct Hvs as [v Hv].
  destruct l as [d vs o dbg oi c b sb ix]. cbn [vertices_] in Hv. subst vs.
  unfold Invert in Hi. cbn [owns_vertices_ negb] in Hi.
  destruct o; cbn [negb] in Hi; [ | discriminate].
  cbv zeta in Hi.
  apply InitIndex_frame in Hi as (Fv & Fo & _ & _ & Fb & Fsb & _).
  unfold is_empty, is_full, is_empty_or_full, contains_origin, num_vertices.
  rewrite Fv, Fo, Fb, Fsb. clear Fv Fo Fb Fsb.
  unfold is_empty, is_full, is_empty_or_full, contains_origin, num_vertices.
  cbn [vertices_ origin_inside_ bound_ ResetMutableFields set_index set_calls
       set_vertices set_origin_inside length Z.of_nat Pos.of_succ_nat Z.eqb
       Pos.eqb tl andb owns_vertices_].
  rewrite xorb_true_r.
  destruct (clear_of_poles b) eqn:Ec.
  - destruct oi; cbn; repeat (apply conj); auto; discriminate.
  - unfold InitBound, is_empty, is_empty_or_full, contains_origin,
      num_vertices.
    destruct oi; cbn; repeat (apply conj); auto; discriminate.
Qed.

End InvertSentinels.

Lemma Invert_swaps_sentinels_witness :
  exists l1, @Invert sample_collab default_flags empty_at_x = Some l1
             /\ is_full l1 = true /\ vertices_ l1 = [kFullVertex]
             /\ bound_ l1 = S2LatLngRect_Full.
Proof.
  destruct (@Invert sample_collab default_flags empty_at_x) as [l1 | ] eqn:E;
    [ | discriminate E].
  destruct (@Invert_swaps_sentinels sample_collab default_flags empty_at_x l1 E eq_refl)
    as (_ & Hf & _ & Hv & Hb & _).
  exists l1. repeat split; auto. apply Hb. reflexivity.
Defined.

(* ================================================================= *)
(** ** More on the lossless format *)

Lemma get_le_nonneg w d : 0 <= fst (get_le w d).
Proof.
  revert d. induction w as [ | w IH]; intros d; cbn [get_le]; [simpl; lia | ].
  destruct d as [ | b r]; [simpl; lia | ].
  specialize (IH r). destruct (get_le w r) as [v r']. cbn [fst] in *.
  pose proof (Z_of_byte_range b). lia.
Qed.

Lemma get_le_avail w d :
  Z.of_nat w <= avail d -> avail (snd (get_le w d)) = avail d - Z.of_nat w.
Proof.
  revert d. induction w as [ | w IH]; intros d Hw; cbn [get_le]; [simpl; lia | ].
  destruct d as [ | b r]; [unfold avail in Hw; simpl in Hw; lia | ].
  specialize (IH r). destruct (get_le w r) as [v r']. cbn [snd] in *.
  unfold avail in *. cbn [length] in *. lia.
Qed.

Section LosslessFacts.
Context {collab : Collaborators} {flags : Flags} {codec : CodecCollaborators}.

(** X16: [Encode] appends to the encoder and leaves what is in it alone; before
    the bound it writes 10 bytes and 24 bytes per vertex, the first of them
    the version number 1. *)
Theorem Encode_appends (l : S2Loop) (encoder : Encoder) :
  Encode l encoder = encoder ++ Encode l []
  /\ avail (Encode l [])
     = 10 + 24 * num_vertices l + avail (S2LatLngRect_Encode (bound_ l))
  /\ hd_error (Encode l []) = Some x01.
Proof.
  assert (E : Encode l encoder = encoder ++ Encode l []).
  { unfold Encode, put8, put32.
    rewrite (putn_S2Points_app ((encoder ++ _) ++ _)),
            (putn_S2Points_app (([] ++ _) ++ _)).
    cbn [app]. rewrite <- !app_assoc. reflexivity. }
  split; [exact E | split].
  - rewrite Encode_bytes, !avail_app, avail_putn_S2Points, !avail_put_le.
    unfold num_vertices, sizeof_S2Point. lia.
  - rewrite Encode_bytes. reflexivity.
Qed.

(** X17: A lossless decode that succeeds has found, after the version byte, a
    vertex count within the limit and below 2^31, and at least 24 bytes per
    vertex and 9 further bytes; the loop holds exactly that many vertices.
    An input of fewer than 10 bytes is never decoded: the decoder returns
    false and leaves the loop as it was. *)
Theorem Decode_success_needs_input (l l1 : S2Loop) (d d1 : Decoder)
    (within_scope : bool) :
  (Decode_version l d within_scope = Some (true, l1, d1) ->
     10 + 24 * num_vertices l1 <= avail d
     /\ num_vertices l1 <= wrap_uint32 FLAGS_s2polygon_decode_max_num_vertices
     /\ num_vertices l1 = fst (get32 (snd (get8 d)))
     /\ num_vertices l1 < 2 ^ 31)
  /\ (avail d < 10 ->
      exists d', Decode_version l d within_scope = Some (false, l, d')).
Proof.
  unfold Decode_version, DecodeInternal, sizeof_S2Point.
  destruct (Z.ltb_spec (avail d) 1) as [Ha | Ha];
    [split; [discriminate | eexists; reflexivity] | ].
  pose proof (get_le_avail 1 d ltac:(simpl; lia)) as Hd2.
  unfold get8. destruct (get_le 1 d) as [version d2]. cbn [fst snd] in *.
  destruct (version =? _); [ | split; [discriminate | eexists; reflexivity]].
  destruct (Z.ltb_spec (avail d2) 4) as [Hb | Hb];
    [split; [discriminate | eexists; reflexivity] | ].
  pose proof (get_le_avail 4 d2 ltac:(simpl; lia)) as Hd3.
  pose proof (get_le_nonneg 4 d2) as Hn0.
  unfold get32. destruct (get_le 4 d2) as [n d3]. cbn [fst snd] in *.
  destruct (Z.gtb_spec n (wrap_uint32 FLAGS_s2polygon_decode_max_num_vertices))
    as [Hc | Hc]; [split; [discriminate | eexists; reflexivity] | ].
  destruct (Z.ltb_spec (avail d3) (n * 24 + 1 + 4)) as [He | He];
    [split; [discriminate | eexists; reflexivity] | ].
  split; [ | intros Hs; simpl in Hd2, Hd3; lia].
  destruct (Z.ltb_spec (wrap_int32 n) 0) as [ | Hw]; [discriminate | ].
  assert (Hn31 : n < 2 ^ 31).
  { destruct (Z.lt_ge_cases n (2 ^ 31)) as [ | Hbig]; [assumption | exfalso].
    unfold wrap_int32 in Hw.
    assert (Hq : (n + 2 ^ 31) mod 2 ^ 32 < 2 ^ 31); [ | lia].
    destruct (Z.lt_ge_cases n (2 ^ 32)) as [Hlt | Hge].
    - replace (n + 2 ^ 31) with (n - 2 ^ 31 + 1 * 2 ^ 32) by lia.
      rewrite Z.mod_add by lia. rewrite Z.mod_small by lia. lia.
    - unfold wrap_uint32 in Hc.
      pose proof (Z.mod_pos_bound FLAGS_s2polygon_decode_max_num_vertices
                    (2 ^ 32) ltac:(lia)). lia. }
  pose proof (getn_S2Points_length (Z.to_nat n) d3) as Hlen.
  destruct (getn_S2Points (Z.to_nat n) d3) as [vs d4]. cbn [fst] in Hlen.
  destruct (get_le 1 d4) as [oi d5]. destruct (get_le 4 d5) as [dep d6].
  destruct (S2LatLngRect_Decode _ d6) as [[ok b] d7].
  destruct ok; cbn [negb]; [ | discriminate].
  assert (Hnv : forall x, vertices_ x = vs -> num_vertices x = n)
    by (intros x Hx; unfold num_vertices; rewrite Hx, Hlen; lia).
  destruct (n >? 0).
  - destruct (InitIndex _) as [lr | ] eqn:EI; [ | discriminate].
    intros H. injection H as <- _.
    apply InitIndex_frame in EI as (Fv & _).
    rewrite (Hnv lr Fv). simpl in Hd2, Hd3. repeat split; lia.
  - intros H. injection H as <- _.
    rewrite Hnv by reflexivity. simpl in Hd2, Hd3. repeat split; lia.
Qed.

(** X18: [Decode] and [DecodeWithinScope] return or fail to return together;
    when they return they give the same verdict, stop at the same place of
    the input and build the same loop, up to the ownership of the vertices:
    after a successful decode within scope the loop owns its vertices only
    if the vertex data was misaligned, and a loop that does not own its
    vertices can neither be inverted nor normalized. *)
Theorem DecodeWithinScope_same_but_ownership (l : S2Loop) (d : Decoder) :
  match Decode l d, DecodeWithinScope l d with
  | Some (b, l1, d1), Some (bw, lw, dw) =>
      bw = b /\ dw = d1
      /\ set_vertices lw (vertices_ lw) true = set_vertices l1 (vertices_ l1) true
      /\ (b = true ->
          owns_vertices_ l1 = true
          /\ owns_vertices_ lw
             = decoder_ptr_misaligned (snd (get32 (snd (get8 d))))
          /\ (owns_vertices_ lw = false ->
              Invert lw = None /\ Normalize lw = None))
  | None, None => True
  | _, _ => False
  end.
Proof.
  unfold Decode, DecodeWithinScope, Decode_version, DecodeInternal.
  destruct (avail d <? 1); [repeat split; discriminate | ].
  destruct (get8 d) as [version d2]. cbn [fst snd].
  destruct (version =? _); [ | repeat split; discriminate].
  destruct (avail d2 <? 4); [repeat split; discriminate | ].
  destruct (get32 d2) as [n d3]. cbn [fst snd].
  destruct (n >? _); [repeat split; discriminate | ].
  destruct (avail d3 <? _); [repeat split; discriminate | ].
  destruct (wrap_int32 n <? 0); [exact I | ].
  destruct (getn_S2Points (Z.to_nat n) d3) as [vs d4].
  destruct (get8 d4) as [oi d5]. destruct (get32 d5) as [dep d6].
  cbn [bound_ set_depth set_origin_inside set_vertices ResetMutableFields
       set_index set_calls andb negb].
  destruct (S2LatLngRect_Decode (bound_ l) d6) as [[ok b] d7].
  destruct ok; cbn [negb fst snd]; [ | repeat split; discriminate].
  assert (Hown : forall x : S2Loop, owns_vertices_ x = false ->
                   Invert x = None /\ Normalize x = None)
    by (intros x Ho; unfold Normalize, Invert; rewrite Ho; split; reflexivity).
  destruct (n >? 0).
  - rewrite !InitIndex_spec.
    match goal with
    | |- context [validates ?x] =>
        match goal with
        | |- context [passes_validation ?y] =>
            lazymatch x with
            | y => fail
            | _ => change (validates x) with (validates y);
                   rewrite (passes_validation_ext x y) by reflexivity
            end
        end
    end.
    match goal with |- context [validates ?y] =>
      destruct (validates y); [destruct (passes_validation y) | ] end;
      try exact I;
      (split; [reflexivity | split; [reflexivity | split; [reflexivity | ]]];
       intros _; split; [reflexivity | split];
       [cbn; now rewrite negb_involutive | apply Hown]).
  - split; [reflexivity | split; [reflexivity | split; [reflexivity | ]]].
    intros _. split; [reflexivity | split];
      [cbn; now rewrite negb_involutive | apply Hown].
Qed.

End LosslessFacts.

Lemma Decode_success_needs_input_witness :
  exists d',
    @Decode sample_collab default_flags sample_codec octant_built
      [x01; x03; x00; x00; x00] = Some (false, octant_built, d').
Proof.
  apply (@Decode_success_needs_input sample_collab default_flags sample_codec
           octant_built octant_built [x01; x03; x00; x00; x00] [] false).
  vm_compute. reflexivity.
Defined.

(** The octant triangle decoded within scope from its own encoding: the
    loop aliases the buffer and cannot be inverted. *)
Example DecodeWithinScope_octant :
  exists lw,
    @DecodeWithinScope sample_collab default_flags sample_codec new_loop
      (@Encode sample_codec octant_built []) = Some (true, lw, [])
    /\ vertices_ lw = octant /\ owns_vertices_ lw = false
    /\ @Invert sample_collab default_flags lw = None.
Proof.
  eexists. split; [vm_compute; reflexivity | ].
  vm_compute. repeat split; reflexivity.
Qed.

(* ================================================================= *)
(** ** The canonical first vertex *)

Section CanonicalFirstVertex.
Context {collab : Collaborators}.

(** X19: [GetCanonicalFirstVertex] returns [(first, dir)] with [dir] 1 or -1
    such that [first], [first + dir], ..., [first + n * dir] are all valid
    arguments of [vertex].  When no two vertices are equal and none has a
    NaN coordinate, [vertex(first)] is the lexicographically smallest
    vertex, and from three vertices on its neighbour in direction [dir] is
    smaller than its other neighbour. *)
Theorem GetCanonicalFirstVertex_spec (l : S2Loop) :
  1 <= num_vertices l ->
  let n := num_vertices l in
  let first := fst (GetCanonicalFirstVertex l) in
  let dir := snd (GetCanonicalFirstVertex l) in
  ((dir = 1 /\ 0 <= first <= n - 1) \/ (dir = -1 /\ n <= first <= 2 * n - 1))
  /\ (forall k, 0 <= k <= n -> 0 <= first + k * dir <= 2 * n - 1)
  /\ (distinct_vertices (vertices_ l) ->
      (forall i, 0 <= i < n -> (i - first) mod n <> 0 ->
                 S2Point_ltb (vertex l first) (vertex l i) = true)
      /\ (3 <= n ->
          S2Point_ltb (ring (vertices_ l) (first + dir))
                      (ring (vertices_ l) (first - dir)) = true)).
Proof.
  intros Hn n first dir.
  set (vs := vertices_ l) in *.
  set (f0 := least_index vs (length vs - 1)).
  assert (Hnn : n = Z.of_nat (length vs)) by reflexivity.
  assert (Hne : vs <> []).
  { intros E. unfold n, num_vertices in Hn. fold vs in Hn. rewrite E in Hn.
    simpl in Hn. lia. }
  pose proof (least_index_range vs (length vs - 1)) as Hf0. fold f0 in Hf0.
  assert (Hcanon : GetCanonicalFirstVertex l
                   = if S2Point_ltb (vertex l (f0 + 1)) (vertex l (f0 + n - 1))
                     then (f0, 1) else (f0 + n, -1)).
  { unfold GetCanonicalFirstVertex.
    rewrite first_scan_ring by (fold n; fold vs; lia). reflexivity. }
  assert (Hshift : forall i k, ring vs (i + k * n) = ring vs i)
    by (intros; rewrite Hnn; now apply ring_shift).
  assert (Hcases : (dir = 1 /\ first = f0
                    /\ S2Point_ltb (ring vs (f0 + 1)) (ring vs (f0 - 1)) = true)
                   \/ (dir = -1 /\ first = f0 + n
                       /\ S2Point_ltb (ring vs (f0 + 1)) (ring vs (f0 - 1)) = false)).
  { subst first dir. rewrite Hcanon.
    rewrite !vertex_ring by (fold n; lia). fold vs.
    replace (ring vs (f0 + n - 1)) with (ring vs (f0 - 1))
      by (rewrite <- (Hshift (f0 - 1) 1); f_equal; lia).
    destruct (S2Point_ltb (ring vs (f0 + 1)) (ring vs (f0 - 1)));
      [left | right]; cbn [fst snd]; auto. }
  clearbody first dir.
  split; [ | split].
  - destruct Hcases as [(-> & -> & _) | (-> & -> & _)]; [left | right]; lia.
  - intros k Hk. destruct Hcases as [(-> & -> & _) | (-> & -> & _)]; lia.
  - intros Hd.
    pose proof (distinct_vertices_strictly_ordered vs Hd) as Hso.
    assert (Hfirst : ring vs first = ring vs f0).
    { destruct Hcases as [(_ & -> & _) | (_ & -> & _)]; [reflexivity | ].
      rewrite <- (Hshift f0 1). f_equal. lia. }
    split.
    + intros i Hi Hif.
      rewrite !vertex_ring
        by (fold n; destruct Hcases as [(_ & -> & _) | (_ & -> & _)]; lia).
      fold vs. rewrite Hfirst. apply least_index_least; auto; try lia.
      intros Ei. apply Hif. rewrite Ei. fold f0.
      destruct Hcases as [(_ & -> & _) | (_ & -> & _)].
      * rewrite Z.sub_diag. apply Z.mod_0_l. lia.
      * replace (f0 - (f0 + n)) with (-1 * n) by lia. apply Z.mod_mul. lia.
    + intros H3. destruct Hso as (Hnd & _ & Htotal & _).
      destruct Hcases as [(-> & -> & Hlt) | (-> & -> & Hge)]; [exact Hlt | ].
      replace (ring vs (f0 + n + -1)) with (ring vs (f0 - 1))
        by (rewrite <- (Hshift (f0 - 1) 1); f_equal; lia).
      replace (ring vs (f0 + n - -1)) with (ring vs (f0 + 1))
        by (rewrite <- (Hshift (f0 + 1) 1); f_equal; lia).
      destruct (Htotal (ring vs (f0 - 1)) (ring vs (f0 + 1))) as [H | H];
        auto using ring_In; [ | congruence].
      intros Heq. apply ring_inj in Heq; auto. rewrite <- Hnn in Heq.
      replace (f0 - 1 - (f0 + 1)) with (-2) in Heq by lia.
      apply Z.mod_divide in Heq; [ | lia]. destruct Heq as [q Hq].
      assert (Hq' : q <= -1 \/ 0 <= q) by lia. clearbody n. destruct Hq'; nia.
Qed.

End CanonicalFirstVertex.

Lemma GetCanonicalFirstVertex_spec_witness :
  S2Point_ltb (vertex octant_built (fst (GetCanonicalFirstVertex octant_built)))
              (vertex octant_built 0) = true.
Proof.
  destruct (GetCanonicalFirstVertex_spec octant_built) as (_ & _ & H).
  - vm_compute. discriminate.
  - destruct (H octant_distinct) as [Hleast _].
    apply Hleast; vm_compute; [split | ]; congruence.
Defined.

(* ================================================================= *)
(** ** The two crossing counts *)

Lemma fold_xorb_Permutation (xs ys : list bool) :
  Permutation xs ys -> forall b, fold_left xorb xs b = fold_left xorb ys b.
Proof.
  induction 1 as [ | x xs ys _ IH | x y xs | xs ys zs _ IH1 _ IH2]; intros b.
  - reflexivity.
  - cbn [fold_left]. apply IH.
  - cbn [fold_left]. f_equal.
    rewrite !xorb_assoc. f_equal. apply xorb_comm.
  - now rewrite IH1.
Qed.

Section CrossingCounts.
Context {collab : Collaborators}.

(** Whether consecutive edges are chained or the crosser is restarted, the
    indexed count tests every edge of the cell between its own two
    endpoints. *)
Lemma Contains_it_fold l center p edges c prev inside :
  (forall ai, In ai edges -> 0 <= ai) ->
  prev = -2 \/ c = vertex l (prev + 1) ->
  snd (fold_left
         (fun (st : S2Point * Z * bool) ai =>
            let '(c, ai_prev, inside) := st in
            let c := if negb (ai =? ai_prev + 1) then vertex l ai else c in
            (vertex l (ai + 1), ai,
             xorb inside (EdgeOrVertexCrossing center p c (vertex l (ai + 1)))))
         edges (c, prev, inside))
  = fold_left xorb
      (map (fun ai => EdgeOrVertexCrossing center p (vertex l ai) (vertex l (ai + 1)))
           edges)
      inside.
Proof.
  revert c prev inside.
  induction edges as [ | ai edges IH]; intros c prev inside Hpos Hinv;
    [reflexivity | ].
  cbn [fold_left map].
  assert (Hc : (if negb (ai =? prev + 1) then vertex l ai else c) = vertex l ai).
  { destruct (Z.eqb_spec ai (prev + 1)) as [-> | ]; [cbn [negb] | reflexivity].
    destruct Hinv as [-> | ->]; [ | reflexivity].
    specialize (Hpos (-2 + 1) (or_introl eq_refl)). lia. }
  rewrite Hc. apply IH.
  - intros a Ha. apply Hpos. now right.
  - now right.
Qed.

(** [Contains(it, p)] as a parity. *)
Lemma Contains_it_xor l it p :
  (forall ai, In ai (clipped_edges (clipped it)) -> 0 <= ai) ->
  Contains_it l it p
  = fold_left xorb
      (map (fun ai => EdgeOrVertexCrossing (cell_center it) p
                        (vertex l ai) (vertex l (ai + 1)))
           (clipped_edges (clipped it)))
      (contains_center (clipped it)).
Proof.
  intros H0. unfold Contains_it.
  destruct (clipped_edges (clipped it)) as [ | e es] eqn:Ee; [reflexivity | ].
  cbv zeta.
  destruct (Z.ltb_spec 0 (Z.of_nat (length (e :: es)))); [ | simpl in *; lia].
  apply Contains_it_fold; [exact H0 | now left].
Qed.

(** X20: [Contains(it, p)] is the "center inside" bit of the cell, flipped once
    for every edge of the cell that the segment from the cell center to
    [p] crosses; so it does not depend on the order in which the cell lists
    its edges. *)
Theorem Contains_it_parity (l : S2Loop) (it it' : IndexCell) (p : S2Point) :
  (forall ai, In ai (clipped_edges (clipped it)) -> 0 <= ai) ->
  Contains_it l it p
  = fold_left xorb
      (map (fun ai => EdgeOrVertexCrossing (cell_center it) p
                        (vertex l ai) (vertex l (ai + 1)))
           (clipped_edges (clipped it)))
      (contains_center (clipped it))
  /\ (cell_center it' = cell_center it ->
      contains_center (clipped it') = contains_center (clipped it) ->
      Permutation (clipped_edges (clipped it)) (clipped_edges (clipped it')) ->
      Contains_it l it' p = Contains_it l it p).
Proof.
  intros Hpos. split; [now apply Contains_it_xor | ].
  intros Hc Hi Hp.
  rewrite (Contains_it_xor l it p Hpos), Contains_it_xor.
  - rewrite Hc, Hi. symmetry. apply fold_xorb_Permutation.
    now apply Permutation_map.
  - intros ai Ha. apply Hpos. apply (Permutation_in _ (Permutation_sym Hp) Ha).
Qed.

(** The brute-force count starts from [origin_inside_] and tests every
    edge of the loop, from vertex [i] to vertex [i + 1], against the
    segment from the origin to [p]. *)
Lemma BruteForceContains_parity l p :
  3 <= num_vertices l ->
  BruteForceContains l p
  = fold_left xorb
      (map (fun i => EdgeOrVertexCrossing S2_Origin p (vertex l i) (vertex l (i + 1)))
           (Zrange 0 (length (vertices_ l))))
      (origin_inside_ l).
Proof.
  intros Hn. unfold BruteForceContains.
  destruct (Z.ltb_spec (num_vertices l) 3); [lia | ]. cbv zeta.
  assert (G : forall len lo inside,
             snd (fold_left
                    (fun (st : S2Point * bool) i =>
                       (vertex l i,
                        xorb (snd st)
                             (EdgeOrVertexCrossing S2_Origin p (fst st) (vertex l i))))
                    (Zrange lo len) (vertex l (lo - 1), inside))
             = fold_left xorb
                 (map (fun i => EdgeOrVertexCrossing S2_Origin p
                                  (vertex l i) (vertex l (i + 1)))
                      (Zrange (lo - 1) len))
                 inside).
  { induction len as [ | len IH]; intros lo inside; [reflexivity | ].
    rewrite !Zrange_cons. cbn [fold_left map fst snd].
    replace (lo - 1 + 1) with lo by lia.
    replace (vertex l lo) with (vertex l (lo + 1 - 1)) at 1 by (f_equal; lia).
    rewrite IH. replace (lo + 1 - 1) with lo by lia. reflexivity. }
  apply (G (length (vertices_ l)) 1 (origin_inside_ l)).
Qed.

(** X21: The two counts agree: handed a cell centred at the origin whose
    "center inside" bit is [origin_inside_] and which lists every edge of
    the loop once, in any order, [Contains(it, p)] returns what
    [BruteForceContains(p)] returns. *)
Theorem Contains_it_agrees_with_BruteForce (l : S2Loop) (it : IndexCell)
    (p : S2Point) :
  3 <= num_vertices l ->
  cell_center it = S2_Origin ->
  contains_center (clipped it) = origin_inside_ l ->
  Permutation (Zrange 0 (length (vertices_ l))) (clipped_edges (clipped it)) ->
  Contains_it l it p = BruteForceContains l p.
Proof.
  intros Hn Hc Hi Hp.
  assert (Hpos : forall ai, In ai (clipped_edges (clipped it)) -> 0 <= ai).
  { intros ai Ha. apply (Permutation_in _ (Permutation_sym Hp)) in Ha.
    apply In_Zrange in Ha. lia. }
  rewrite (Contains_it_xor l it p Hpos).
  rewrite BruteForceContains_parity, Hc, Hi by exact Hn.
  symmetry. apply fold_xorb_Permutation. now apply Permutation_map.
Qed.

End CrossingCounts.

(* ================================================================= *)
(** ** Loops against cells and against loops *)

Section CellFacts.
Context {collab : Collaborators} {cells : CellCollaborators}.

(** X22: A cell that the loop contains is a cell that the loop may intersect;
    and a target that [Locate] finds disjoint from the index is neither
    contained nor possibly intersected. *)
Theorem Contains_cell_MayIntersect (l : S2Loop) (target : S2Cell) :
  (Contains_cell l target = true -> MayIntersect l target = true)
  /\ (fst (fst (S2ShapeIndex_LocateCell (vertices_ l) (origin_inside_ l)
                                        (S2Cell_id target))) = DISJOINT ->
      Contains_cell l target = false /\ MayIntersect l target = false).
Proof.
  unfold Contains_cell, MayIntersect.
  destruct (S2ShapeIndex_LocateCell _ _ _) as [[relation it_id] it].
  cbn [fst]. split.
  - destruct relation; try discriminate.
    destruct (BoundaryApproxIntersects l it_id it target); [discriminate | ].
    intros ->. now destruct (S2CellId_eqb _ _).
  - intros ->. split; reflexivity.
Qed.

End CellFacts.

Lemma Contains_cell_MayIntersect_witness :
  @MayIntersect sample_collab sample_cells
    (sample_loop octant true 0 north_band (mkS2ShapeIndex 1 true))
    (3, mkS2Point 0 0 (-1)) = true.
Proof.
  destruct (@Contains_cell_MayIntersect sample_collab sample_cells
              (sample_loop octant true 0 north_band (mkS2ShapeIndex 1 true))
              (3, mkS2Point 0 0 (-1))) as [H _].
  apply H. vm_compute. reflexivity.
Defined.

Section RelationSentinels.
Context {collab : Collaborators} {flags : Flags}
        {rel : RelationCollaborators} {cells : CellCollaborators}
        {walk : WalkCollaborators}.

(** X23: When one of the two loops is a sentinel, [Contains(b)] and
    [ContainsNested(b)] agree, without looking at an edge: A contains B
    exactly when the subregion bound of A contains the bound of B and A is
    full or B is empty. *)
Theorem Contains_loop_sentinels (fuel : nat) (a b : S2Loop) :
  is_empty_or_full a = true \/ is_empty_or_full b = true ->
  Contains_loop fuel a b
  = Some (S2LatLngRect_ContainsRect (subregion_bound_ a) (bound_ b)
          && (is_full a || is_empty b))
  /\ Some (ContainsNested a b) = Contains_loop fuel a b.
Proof.
  intros H. unfold Contains_loop, ContainsNested.
  destruct (S2LatLngRect_ContainsRect _ _); cbn [negb andb]; [ | now split].
  assert (Hb : is_empty_or_full b = true -> (num_vertices b <? 2) = true).
  { unfold is_empty_or_full. intros E. apply Z.eqb_eq in E. now rewrite E. }
  destruct H as [H | H].
  - rewrite H. cbn [orb]. now split.
  - rewrite H, (Hb H), !orb_true_r. now split.
Qed.

End RelationSentinels.

Lemma Contains_loop_sentinels_witness :
  @Contains_loop sample_collab sample_rel sample_cells sample_index 0
    (sample_loop [kFullVertex] true 0 S2LatLngRect_Full (mkS2ShapeIndex 1 false))
    octant_built = Some true.
Proof.
  destruct (@Contains_loop_sentinels sample_collab sample_rel sample_cells
              sample_index 0
              (sample_loop [kFullVertex] true 0 S2LatLngRect_Full
                           (mkS2ShapeIndex 1 false))
              octant_built) as [H _].
  - left. reflexivity.
  - rewrite H. vm_compute. reflexivity.
Defined.

Section SharedVertex.
Context {collab : Collaborators} {flags : Flags} {rel : RelationCollaborators}.

(** What [FindVertex] returns is -1 or the index, in [1, n], of a vertex
    equal to [p] (for ten or more vertices: when the located cell lists
    edge numbers of the loop). *)
Lemma FindVertex_result l p :
  (10 <= num_vertices l -> forall it ai,
     S2ShapeIndex_Locate (vertices_ l) (origin_inside_ l) p = Some it ->
     In ai (clipped_edges (clipped it)) -> 0 <= ai < num_vertices l) ->
  FindVertex l p = -1
  \/ (1 <= FindVertex l p <= num_vertices l
      /\ S2Point_eqb (vertex l (FindVertex l p)) p = true).
Proof.
  intros Hedges. unfold FindVertex.
  destruct (Z.ltb_spec (num_vertices l) 10) as [Hs | Hb].
  - destruct (find _ _) as [i | ] eqn:Ef; [right | now left].
    apply find_some in Ef as [Hin Hp]. apply In_Zrange in Hin.
    unfold num_vertices. split; [lia | exact Hp].
  - destruct (S2ShapeIndex_Locate _ _ _) as [it | ] eqn:El; [ | now left].
    apply FindVertex_edges_range. intros ai Hin.
    apply (Hedges Hb it ai eq_refl). now apply in_rev.
Qed.

(** X24: [ContainsNested] and [ContainsNonCrossingBoundary] look for a vertex of
    B among the vertices of A and, when they find it at [m], test the wedge
    of A at [m].  Unless A has a single vertex (which their guards
    exclude), the three indexes [m - 1], [m], [m + 1] are valid arguments
    of [vertex], so the wedge is the one between the two cyclic neighbours
    of the shared vertex. *)
Theorem shared_vertex_wedge (a b : S2Loop) (k : Z) (reverse_b : bool) :
  let p := vertex b k in
  let m := FindVertex a p in
  (10 <= num_vertices a -> forall it ai,
     S2ShapeIndex_Locate (vertices_ a) (origin_inside_ a) p = Some it ->
     In ai (clipped_edges (clipped it)) -> 0 <= ai < num_vertices a) ->
  0 <= m -> num_vertices a <> 1 ->
  1 <= m <= num_vertices a
  /\ 0 <= m - 1 /\ m + 1 <= 2 * num_vertices a - 1
  /\ S2Point_eqb (vertex a m) p = true
  /\ vertex a (m - 1) = ring (vertices_ a) (m - 1)
  /\ vertex a (m + 1) = ring (vertices_ a) (m + 1)
  /\ (k = 1 ->
      S2LatLngRect_ContainsRect (subregion_bound_ a) (bound_ b) = true ->
      2 <= num_vertices b ->
      ContainsNested a b
      = S2EdgeUtil_WedgeContains (vertex a (m - 1)) (vertex a m)
                                 (vertex a (m + 1)) (vertex b 0) (vertex b 2))
  /\ (k = 0 ->
      S2LatLngRect_Intersects (bound_ a) (bound_ b) = true ->
      is_full b = false ->
      ContainsNonCrossingBoundary a b reverse_b
      = WedgeContainsSemiwedge (vertex a (m - 1)) (vertex a m)
                               (vertex a (m + 1)) (vertex b 1) reverse_b).
Proof.
  intros p m Hedges Hm H1.
  destruct (FindVertex_result a p Hedges) as [E | [Hr Hp]];
    fold m in E || fold m in Hr, Hp; [lia | ].
  assert (Hn2 : 2 <= num_vertices a) by lia.
  assert (Hsent : is_empty_or_full a = false).
  { unfold is_empty_or_full. now apply Z.eqb_neq. }
  assert (Hfull : is_full a = false) by (unfold is_full; now rewrite Hsent).
  repeat (apply conj); try lia; try exact Hp.
  - apply vertex_ring. lia.
  - apply vertex_ring. lia.
  - intros -> Hb Hnb. unfold ContainsNested. rewrite Hb, Hsent. cbn [negb orb].
    destruct (Z.ltb_spec (num_vertices b) 2); [lia | ].
    fold p. fold m. destruct (Z.ltb_spec m 0); [lia | reflexivity].
  - intros -> Hb Hfb. unfold ContainsNonCrossingBoundary.
    rewrite Hb, Hfull, Hfb. cbn [negb].
    fold p. fold m. destruct (Z.ltb_spec m 0); [lia | reflexivity].
Qed.

End SharedVertex.

Lemma shared_vertex_wedge_witness :
  @ContainsNested sample_collab sample_rel octant_built octant_built
  = @S2EdgeUtil_WedgeContains sample_rel
      (vertex octant_built 0) (vertex octant_built 1) (vertex octant_built 2)
      (vertex octant_built 0) (vertex octant_built 2).
Proof.
  destruct (@shared_vertex_wedge sample_collab sample_rel
              octant_built octant_built 1 false)
    as (_ & _ & _ & _ & _ & _ & H & _).
  - intros H. vm_compute in H. exfalso. apply H. reflexivity.
  - vm_compute. discriminate.
  - vm_compute. discriminate.
  - apply H; [reflexivity | vm_compute; reflexivity | vm_compute; discriminate].
Defined.

(* ================================================================= *)
(** ** The edge tests of the loop crosser *)

Section CrosserFacts.
Context {rel : RelationCollaborators}.

(** One run of [EdgeCrossesCell] for the edge [aj] of A: whether the edges
    of the cell are chained or the crosser is restarted, each edge [bj] is
    tested between its own endpoints.  The run reports a crossing only at
    an edge that crosses or at a shared vertex, it reports every proper
    crossing, and it consults the relation only at a shared vertex. *)
Lemma EdgeCrossesCell_edges_spec {St : Type} (a b : S2Loop)
    (relation : LoopRelation St) (aj : Z) (edges : list Z) :
  let cross := fun bj =>
    S2EdgeUtil_RobustCrossing (vertex a aj) (vertex a (aj + 1))
                              (vertex b bj) (vertex b (bj + 1)) in
  let shared := fun bj => S2Point_eqb (vertex a (aj + 1)) (vertex b (bj + 1)) in
  forall (lc : LoopCrosser) (st : St),
    (forall bj, In bj edges -> 0 <= bj) ->
    crosser_a lc = vertex a aj -> crosser_b lc = vertex a (aj + 1) ->
    aj_ lc = aj ->
    bj_prev_ lc = -2 \/ crosser_c lc = vertex b (bj_prev_ lc + 1) ->
    let res := EdgeCrossesCell_edges a b relation edges lc st in
    (fst (fst res) = true ->
     exists bj, In bj edges
                /\ (0 < cross bj \/ (cross bj = 0 /\ shared bj = true)))
    /\ ((exists bj, In bj edges /\ 0 < cross bj) -> fst (fst res) = true)
    /\ ((forall bj, In bj edges -> ~ (cross bj = 0 /\ shared bj = true)) ->
        snd res = st).
Proof.
  intros cross shared.
  induction edges as [ | bj rest IH]; intros lc st Hpos Ha Hb Haj Hinv.
  - cbn. repeat split; [discriminate | intros (bj & [] & _)].
  - cbn [EdgeCrossesCell_edges]. cbv zeta.
    assert (Hc : (if negb (bj =? bj_prev_ lc + 1) then vertex b bj else crosser_c lc)
                 = vertex b bj).
    { destruct (Z.eqb_spec bj (bj_prev_ lc + 1)) as [E | ]; [cbn [negb] | reflexivity].
      destruct Hinv as [Hp | Hp]; [ | now rewrite Hp, <- E].
      specialize (Hpos bj (or_introl eq_refl)). lia. }
    rewrite Hc, Ha, Hb. fold (cross bj).
    cbn [aj_ swapped_]. rewrite Haj. fold (shared bj).
    set (lc' := mkLoopCrosser _ _ _ _ _ _).
    assert (IH' : forall st',
               let res := EdgeCrossesCell_edges a b relation rest lc' st' in
               (fst (fst res) = true ->
                exists bj0, In bj0 rest
                  /\ (0 < cross bj0 \/ (cross bj0 = 0 /\ shared bj0 = true)))
               /\ ((exists bj0, In bj0 rest /\ 0 < cross bj0) -> fst (fst res) = true)
               /\ ((forall bj0, In bj0 rest ->
                                ~ (cross bj0 = 0 /\ shared bj0 = true)) ->
                   snd res = st')).
    { intros st'.
      apply IH; [ | reflexivity | reflexivity | reflexivity | right; reflexivity].
      intros x Hx. apply Hpos. now right. }
    assert (Hlift : forall st',
               let res := EdgeCrossesCell_edges a b relation rest lc' st' in
               cross bj <= 0 ->
               (fst (fst res) = true ->
                exists bj0, In bj0 (bj :: rest)
                  /\ (0 < cross bj0 \/ (cross bj0 = 0 /\ shared bj0 = true)))
               /\ ((exists bj0, In bj0 (bj :: rest) /\ 0 < cross bj0) ->
                   fst (fst res) = true)).
    { intros st' res Hle. destruct (IH' st') as (I1 & I2 & _). split.
      - intros Hr. destruct (I1 Hr) as (bj0 & Hin & H0).
        exists bj0. split; [now right | exact H0].
      - intros (bj0 & [<- | Hin] & H0); [lia | ].
        apply I2. now exists bj0. }
    destruct (Z.ltb_spec (cross bj) 0) as [Hneg | Hnn].
    + (* no crossing at this edge *)
      destruct (Hlift st ltac:(lia)) as [L1 L2].
      destruct (IH' st) as (_ & _ & I3).
      repeat split; auto.
      intros Hno. apply I3. intros x Hx. apply Hno. now right.
    + destruct (Z.gtb_spec (cross bj) 0) as [Hgt | Hle].
      * (* a proper crossing *)
        cbn [fst snd]. repeat split; auto.
        intros _. exists bj. split; [now left | left; lia].
      * assert (H0 : cross bj = 0) by lia.
        destruct (shared bj) eqn:Es.
        -- (* a shared vertex: the relation decides *)
           destruct (if swapped_ lc
                     then WedgesCross relation st (vertex b bj) (vertex b (bj + 1))
                            (vertex b (bj + 2)) (vertex a aj) (vertex a (aj + 2))
                     else WedgesCross relation st (vertex a aj) (vertex a (aj + 1))
                            (vertex a (aj + 2)) (vertex b bj) (vertex b (bj + 2)))
             as [r st'].
           destruct r.
           ++ cbn [fst snd]. repeat split.
              ** intros _. exists bj. split; [now left | right; auto].
              ** intros Hno. exfalso. apply (Hno bj); [now left | auto].
           ++ destruct (Hlift st' ltac:(lia)) as [L1 L2].
              repeat split; auto.
              intros Hno. exfalso. apply (Hno bj); [now left | auto].
        -- destruct (Hlift st ltac:(lia)) as [L1 L2].
           destruct (IH' st) as (_ & _ & I3).
           repeat split; auto.
           intros Hno. apply I3. intros x Hx. apply Hno. now right.
Qed.

(** X25: [CellCrossesCell] tests every edge of the cell of A against every edge
    of the cell of B.  It answers true only if some pair of edges crosses
    properly or meets in a shared vertex where the two edges end; it
    answers true whenever some pair crosses properly; and it leaves the
    state of the relation untouched unless such a shared vertex exists. *)
Theorem CellCrossesCell_spec {St : Type} (a b : S2Loop)
    (relation : LoopRelation St) (a_clipped b_clipped : S2ClippedShape)
    (lc : LoopCrosser) (st : St) :
  let cross := fun aj bj =>
    S2EdgeUtil_RobustCrossing (vertex a aj) (vertex a (aj + 1))
                              (vertex b bj) (vertex b (bj + 1)) in
  let shared := fun aj bj =>
    S2Point_eqb (vertex a (aj + 1)) (vertex b (bj + 1)) in
  let pairs := fun (P : Z -> Z -> Prop) =>
    exists aj bj, In aj (clipped_edges a_clipped)
                  /\ In bj (clipped_edges b_clipped) /\ P aj bj in
  (forall bj, In bj (clipped_edges b_clipped) -> 0 <= bj) ->
  let res := CellCrossesCell a b relation a_clipped b_clipped lc st in
  (fst (fst res) = true ->
   pairs (fun aj bj => 0 < cross aj bj
                       \/ (cross aj bj = 0 /\ shared aj bj = true)))
  /\ (pairs (fun aj bj => 0 < cross aj bj) -> fst (fst res) = true)
  /\ (~ pairs (fun aj bj => cross aj bj = 0 /\ shared aj bj = true) ->
      snd res = st).
Proof.
  intros cross shared pairs Hpos. unfold CellCrossesCell. subst pairs. cbv beta.
  revert lc st.
  induction (clipped_edges a_clipped) as [ | aj rest IH]; intros lc st.
  - cbn. repeat split; [discriminate | intros (aj & bj & [] & _)].
  - cbn [CellCrossesCell_edges]. unfold EdgeCrossesCell.
    pose proof (EdgeCrossesCell_edges_spec a b relation aj
                  (clipped_edges b_clipped) (StartEdge a lc aj) st Hpos
                  eq_refl eq_refl eq_refl (or_introl eq_refl)) as He.
    cbv zeta in He. fold (cross aj) in He. fold (shared aj) in He.
    destruct (EdgeCrossesCell_edges a b relation (clipped_edges b_clipped)
                                    (StartEdge a lc aj) st) as [[r lc1] st1].
    cbn [fst snd] in He. destruct He as (E1 & E2 & E3).
    destruct r.
    + cbn [fst snd]. repeat split.
      * intros _. destruct (E1 eq_refl) as (bj & Hin & H0).
        exists aj, bj. repeat split; auto. now left.
      * intros Hno. apply E3. intros bj Hin H0. apply Hno.
        exists aj, bj. repeat split; try tauto. now left.
    + specialize (IH lc1 st1). cbv zeta in IH. destruct IH as (I1 & I2 & I3).
      repeat split.
      * intros Hr. destruct (I1 Hr) as (aj0 & bj & Hia & Hib & H0).
        exists aj0, bj. repeat split; auto. now right.
      * intros (aj0 & bj & [<- | Hia] & Hib & H0).
        -- assert (false = true) by (apply E2; now exists bj). discriminate.
        -- apply I2. now exists aj0, bj.
      * intros Hno. rewrite I3.
        -- apply E3. intros bj Hin H0. apply Hno.
           exists aj, bj. repeat split; try tauto. now left.
        -- intros (aj0 & bj & Hia & Hib & H0). apply Hno.
           exists aj0, bj. repeat split; try tauto. now right.
Qed.

End CrosserFacts.

Lemma CellCrossesCell_spec_witness :
  let b := sample_loop [mkS2Point 0.5 0 0; mkS2Point 0 0.5 0; mkS2Point 0 0 0.5]
                       false 0 north_band (mkS2ShapeIndex 1 true) in
  let all := mkS2ClippedShape false [0; 1; 2] in
  fst (fst (@CellCrossesCell sample_rel CompareBoundaryState
              octant_built b (@CompareBoundaryRelation sample_collab) all all
              (mkLoopCrosser false no_vertex no_vertex no_vertex 0 (-2))
              (CompareBoundaryRelation_new false)))
  = true.
Proof.
  intros b all.
  apply (@CellCrossesCell_spec sample_rel CompareBoundaryState octant_built b
           (@CompareBoundaryRelation sample_collab) all all).
  - intros bj [<- | [<- | [<- | []]]]; lia.
  - exists 2, 0. split; [simpl; auto | split; [simpl; auto | ]].
    vm_compute. reflexivity.
Defined.

Lemma Contains_it_parity_witness :
  @Contains_it sample_collab octant_built
     (mkIndexCell (mkS2Point 1 0 0) (mkS2ClippedShape true [2; 0; 1])) north_pole
  = @Contains_it sample_collab octant_built
      (mkIndexCell (mkS2Point 1 0 0) (mkS2ClippedShape true [0; 1; 2])) north_pole.
Proof.
  apply (@Contains_it_parity sample_collab octant_built
           (mkIndexCell (mkS2Point 1 0 0) (mkS2ClippedShape true [0; 1; 2]))).
  - intros ai [<- | [<- | [<- | []]]]; lia.
  - reflexivity.
  - reflexivity.
  - cbn [clipped clipped_edges].
    apply Permutation_sym, (Permutation_cons_append [0; 1] 2).
Defined.

Lemma Contains_it_agrees_with_BruteForce_witness :
  @Contains_it sample_collab octant_built
     (mkIndexCell (mkS2Point 0 1 0) (mkS2ClippedShape false [0; 1; 2])) north_pole
  = @BruteForceContains sample_collab octant_built north_pole.
Proof.
  apply (@Contains_it_agrees_with_BruteForce sample_collab).
  - vm_compute. discriminate.
  - reflexivity.
  - reflexivity.
  - apply Permutation_refl.
Defined.

(* ================================================================= *)
(** ** Normalization *)

Section NormalizeFacts.
Context {collab : Collaborators} {flags : Flags}.


End NormalizeFacts.


(* ================================================================= *)
(** ** The verdicts of the boundary comparison at shared vertices *)

Section BoundaryVerdicts.
Context {collab : Collaborators}.

Lemma CompareBoundaryRelation_calls st wedges :
  let verdict := fun w : S2Point * S2Point * S2Point * S2Point * S2Point =>
    let '(a0, ab1, a2, b0, b2) := w in
    WedgeContainsSemiwedge a0 ab1 a2 b2 (reverse_b_ st) in
  let res := WedgesCross_calls CompareBoundaryRelation st wedges in
  contains_edge_ st && excludes_edge_ st = false ->
  fst res
  = (contains_edge_ st || existsb verdict wedges)
    && (excludes_edge_ st || existsb (fun w => negb (verdict w)) wedges)
  /\ (fst res = false ->
      contains_edge_ (snd res) = contains_edge_ st || existsb verdict wedges
      /\ (wedges <> [] -> found_shared_vertex_ (snd res) = true)).
Proof.
  revert st. induction wedges as [ | [[[[a0 ab1] a2] b0] b2] rest IH];
    intros st verdict res Hinv.
  - subst res. cbn. rewrite !orb_false_r, Hinv.
    split; [reflexivity | ]. intros _. split; [reflexivity | congruence].
  - subst res. cbn [WedgesCross_calls WedgesCross CompareBoundaryRelation].
    pose proof (CompareBoundaryRelation_WedgesCross_flags st a0 ab1 a2 b0 b2) as Hf.
    cbv zeta in Hf. destruct Hf as (Hrb & Hfound & Hc & He & Hr).
    destruct (CompareBoundaryRelation_WedgesCross st a0 ab1 a2 b0 b2) as [r st1].
    cbn [fst snd] in *. cbn [existsb].
    assert (Hv : verdict (a0, ab1, a2, b0, b2)
                 = WedgeContainsSemiwedge a0 ab1 a2 b2 (reverse_b_ st)) by reflexivity.
    rewrite Hv. set (v := WedgeContainsSemiwedge a0 ab1 a2 b2 (reverse_b_ st)) in *.
    destruct r.
    + cbn [fst snd]. symmetry in Hr. apply andb_prop in Hr as [Hc1 He1].
      rewrite Hc in Hc1. rewrite He in He1.
      split; [ | discriminate].
      rewrite !orb_assoc, Hc1, He1. reflexivity.
    + specialize (IH st1). cbv zeta in IH.
      rewrite Hrb in IH. fold verdict in IH.
      destruct (IH (eq_sym Hr)) as [I1 I2].
      split; [rewrite I1, Hc, He, !orb_assoc; reflexivity | ].
      intros Hfalse.
      destruct (I2 Hfalse) as [J1 J2]. split.
      * rewrite J1, Hc, !orb_assoc. reflexivity.
      * intros _. destruct rest as [ | w rest']; [exact Hfound | ].
        apply J2. discriminate.
Qed.

(** X27: The relation object of [CompareBoundary], fed the wedges at the shared
    vertices in any order: it reports a crossing exactly when A contains
    the semiwedge at one shared vertex and excludes it at another; if it
    reports none, the verdict was the same at every shared vertex, and
    [contains_edge()] is that verdict. *)
Theorem CompareBoundaryRelation_verdicts (reverse_b : bool)
    (wedges : list (S2Point * S2Point * S2Point * S2Point * S2Point)) :
  let verdict := fun w : S2Point * S2Point * S2Point * S2Point * S2Point =>
    let '(a0, ab1, a2, b0, b2) := w in
    WedgeContainsSemiwedge a0 ab1 a2 b2 reverse_b in
  let res := WedgesCross_calls CompareBoundaryRelation
                               (CompareBoundaryRelation_new reverse_b) wedges in
  (fst res = true <->
     exists w1 w2, In w1 wedges /\ In w2 wedges
                   /\ verdict w1 = true /\ verdict w2 = false)
  /\ (fst res = false ->
      (forall w, In w wedges -> verdict w = contains_edge_ (snd res))
      /\ (wedges <> [] -> found_shared_vertex_ (snd res) = true)).
Proof.
  intros verdict res.
  pose proof (CompareBoundaryRelation_calls (CompareBoundaryRelation_new reverse_b)
                                            wedges) as H.
  cbv zeta in H. cbn [reverse_b_ contains_edge_ excludes_edge_
                      CompareBoundaryRelation_new orb andb] in H.
  fold verdict in H. fold res in H. destruct (H eq_refl) as [H1 H2]. clear H.
  split.
  - rewrite H1, andb_true_iff, !existsb_exists. split.
    + intros [(w1 & Hi1 & Hv1) (w2 & Hi2 & Hv2)].
      exists w1, w2. apply negb_true_iff in Hv2. auto.
    + intros (w1 & w2 & Hi1 & Hi2 & Hv1 & Hv2). split.
      * now exists w1.
      * exists w2. split; [exact Hi2 | now apply negb_true_iff].
  - intros Hf. destruct (H2 Hf) as [Hc Hfound]. split; [ | exact Hfound].
    intros w Hw. rewrite Hc.
    rewrite H1 in Hf. apply andb_false_iff in Hf as [Hf | Hf].
    + rewrite Hf. rewrite existsb_false_iff in Hf. exact (Hf w Hw).
    + rewrite existsb_false_iff in Hf. specialize (Hf w Hw).
      apply negb_false_iff in Hf. change (verdict w = true) in Hf.
      rewrite Hf. symmetry. apply existsb_exists. now exists w.
Qed.

End BoundaryVerdicts.

(* ================================================================= *)
(** ** The walk over two indexes: what it asks the relation *)

Section WalkTrace.
Context {rel : RelationCollaborators} {cells : CellCollaborators}
        {walk : WalkCollaborators}.
Context {St : Type} (relation : LoopRelation St) (a b : S2Loop).

Lemma WedgesCross_calls_app (st0 st1 : St) (ws1 ws2 : list Wedge) :
  WedgesCross_calls relation st0 ws1 = (false, st1) ->
  WedgesCross_calls relation st0 (ws1 ++ ws2)
  = WedgesCross_calls relation st1 ws2.
Proof.
  revert st0. induction ws1 as [ | [[[[a0 ab1] a2] b0] b2] rest IH]; intros st0.
  - cbn. now intros [= ->].
  - cbn [WedgesCross_calls app].
    destruct (WedgesCross relation st0 a0 ab1 a2 b0 b2) as [r st].
    destruct r; [discriminate | apply IH].
Qed.

Lemma walked_refl (st : St) : walked relation a b st false st.
Proof.
  exists [], false. repeat split; auto; discriminate.
Qed.

Lemma walked_trans (st0 st1 st2 : St) (r : bool) :
  walked relation a b st0 false st1 -> walked relation a b st1 r st2 ->
  walked relation a b st0 r st2.
Proof.
  intros (ws1 & rw1 & F1 & C1 & T1 & _) (ws2 & rw2 & F2 & C2 & T2 & O2).
  destruct rw1; [specialize (T1 eq_refl); discriminate | ].
  exists (ws1 ++ ws2), rw2. repeat split; auto.
  - apply Forall_app. now split.
  - now rewrite (WedgesCross_calls_app _ _ _ _ C1).
Qed.

Lemma walked_call (st0 st : St) (r : bool) a0 ab1 a2 b0 b2 :
  shared_wedge a b (a0, ab1, a2, b0, b2) ->
  WedgesCross relation st0 a0 ab1 a2 b0 b2 = (r, st) ->
  walked relation a b st0 r st.
Proof.
  intros Hs Hc. exists [(a0, ab1, a2, b0, b2)], r.
  repeat split; auto.
  cbn [WedgesCross_calls]. rewrite Hc. now destruct r.
Qed.

Lemma walked_crossing (st : St) la lb lc :
  crosser_of a b la lb lc -> edges_cross la lb ->
  walked relation a b st true st.
Proof.
  intros Hof Hx. exists [], false.
  split; [constructor | split; [reflexivity | split; [discriminate | ]]].
  intros _. right.
  destruct Hof as [(_ & -> & ->) | (_ & -> & ->)]; auto.
Qed.

Lemma walked_centers (st : St) :
  centers_match relation -> walked relation a b st true st.
Proof.
  intros Hc. exists [], false.
  split; [constructor | split; [reflexivity | split; [discriminate | ]]].
  intros _. auto.
Qed.

(** The wedges that a crosser hands to the relation are the wedges of A
    and B at a vertex they share, whichever loop the crosser runs over. *)
Lemma crosser_wedge la lb lc (aj bj : Z) :
  crosser_of a b la lb lc ->
  S2Point_eqb (vertex la (aj + 1)) (vertex lb (bj + 1)) = true ->
  forall st r st',
    (if swapped_ lc
     then WedgesCross relation st (vertex lb bj) (vertex lb (bj + 1))
                      (vertex lb (bj + 2)) (vertex la aj) (vertex la (aj + 2))
     else WedgesCross relation st (vertex la aj) (vertex la (aj + 1))
                      (vertex la (aj + 2)) (vertex lb bj) (vertex lb (bj + 2)))
    = (r, st') ->
    walked relation a b st r st'.
Proof.
  intros [(-> & -> & ->) | (-> & -> & ->)] Hs st r st' Hc.
  - eapply walked_call; [ | exact Hc]. exists aj, bj. auto.
  - eapply walked_call; [ | exact Hc]. exists bj, aj.
    rewrite S2Point_eqb_sym. auto.
Qed.

Lemma EdgeCrossesCell_edges_walked la lb (edges : list Z) :
  forall lc st r lc' st',
    crosser_of a b la lb lc -> crosser_started la lb lc ->
    EdgeCrossesCell_edges la lb relation edges lc st = (r, lc', st') ->
    walked relation a b st r st'
    /\ swapped_ lc' = swapped_ lc /\ aj_ lc' = aj_ lc
    /\ crosser_started la lb lc'.
Proof.
  induction edges as [ | bj rest IH]; intros lc st r lc' st' Hof Hst.
  - cbn. intros [= <- <- <-]. auto using walked_refl.
  - cbn [EdgeCrossesCell_edges]. cbv zeta.
    destruct Hst as (Ha & Hb & Hc).
    set (c := if negb (bj =? bj_prev_ lc + 1) then vertex lb bj else crosser_c lc).
    assert (Hcv : bj <> -1 -> c = vertex lb bj).
    { intros Hne. subst c.
      destruct (Z.eqb_spec bj (bj_prev_ lc + 1)) as [E | ]; [cbn [negb] | reflexivity].
      destruct Hc as [Hp | Hp]; [lia | now rewrite Hp, <- E]. }
    set (crossing := S2EdgeUtil_RobustCrossing (crosser_a lc) (crosser_b lc) c
                                               (vertex lb (bj + 1))).
    set (lc1 := mkLoopCrosser _ _ _ _ _ _).
    assert (Hof1 : crosser_of a b la lb lc1) by exact Hof.
    assert (Hst1 : crosser_started la lb lc1).
    { subst lc1. unfold crosser_started. cbn. auto. }
    assert (Hrest : forall st1 r lc' st',
               EdgeCrossesCell_edges la lb relation rest lc1 st1 = (r, lc', st') ->
               walked relation a b st1 r st'
               /\ swapped_ lc' = swapped_ lc /\ aj_ lc' = aj_ lc
               /\ crosser_started la lb lc').
    { intros st1 r1 lc1' st1' E. exact (IH lc1 st1 r1 lc1' st1' Hof1 Hst1 E). }
    destruct (crossing <? 0); [apply Hrest | ].
    destruct (Z.gtb_spec crossing 0) as [Hgt | Hle].
    + intros [= <- <- <-]. repeat split; auto.
      apply (walked_crossing st la lb lc Hof).
      exists (aj_ lc), bj, c. split; [exact Hcv | ].
      rewrite <- Ha, <- Hb. exact Hgt.
    + change (aj_ lc1) with (aj_ lc). change (swapped_ lc1) with (swapped_ lc).
      destruct (S2Point_eqb (vertex la (aj_ lc + 1)) (vertex lb (bj + 1))) eqn:Es;
        [ | apply Hrest].
      destruct (if swapped_ lc
                then WedgesCross relation st (vertex lb bj) (vertex lb (bj + 1))
                       (vertex lb (bj + 2)) (vertex la (aj_ lc))
                       (vertex la (aj_ lc + 2))
                else WedgesCross relation st (vertex la (aj_ lc))
                       (vertex la (aj_ lc + 1)) (vertex la (aj_ lc + 2))
                       (vertex lb bj) (vertex lb (bj + 2)))
        as [r1 st1] eqn:Ew.
      pose proof (crosser_wedge la lb lc (aj_ lc) bj Hof Es st r1 st1 Ew) as Hw.
      destruct r1.
      * intros [= <- <- <-]. repeat split; auto.
      * intros E. destruct (Hrest _ _ _ _ E) as (W & R).
        split; [exact (walked_trans _ _ _ _ Hw W) | exact R].
Qed.

Lemma crosser_of_swapped la lb lc lc' :
  swapped_ lc' = swapped_ lc -> crosser_of a b la lb lc ->
  crosser_of a b la lb lc'.
Proof. unfold crosser_of. now intros ->. Qed.

Lemma StartEdge_started la lb lc aj : crosser_started la lb (StartEdge la lc aj).
Proof. unfold crosser_started. cbn. auto. Qed.

Lemma EdgeCrossesCells_walked la lb (b_cells : list S2ClippedShape) :
  forall lc st r lc' st',
    crosser_of a b la lb lc -> crosser_started la lb lc ->
    EdgeCrossesCells la lb relation b_cells lc st = (r, lc', st') ->
    walked relation a b st r st' /\ swapped_ lc' = swapped_ lc.
Proof.
  induction b_cells as [ | c rest IH]; intros lc st r lc' st' Hof Hst.
  - cbn. intros [= <- <- <-]. auto using walked_refl.
  - cbn [EdgeCrossesCells]. unfold EdgeCrossesCell.
    destruct (EdgeCrossesCell_edges la lb relation (clipped_edges c) lc st)
      as [[r1 lc1] st1] eqn:E1.
    destruct (EdgeCrossesCell_edges_walked la lb _ _ _ _ _ _ Hof Hst E1)
      as (W1 & S1 & _ & St1).
    destruct r1.
    + intros [= <- <- <-]. auto.
    + intros E.
      destruct (IH lc1 st1 r lc' st' (crosser_of_swapped _ _ _ _ S1 Hof) St1 E)
        as (W & S2).
      split; [exact (walked_trans _ _ _ _ W1 W) | congruence].
Qed.

Lemma CellCrossesCell_edges_walked la lb (b_clipped : S2ClippedShape)
    (a_edges : list Z) :
  forall lc st r lc' st',
    crosser_of a b la lb lc ->
    CellCrossesCell_edges la lb relation a_edges b_clipped lc st = (r, lc', st') ->
    walked relation a b st r st' /\ swapped_ lc' = swapped_ lc.
Proof.
  induction a_edges as [ | aj rest IH]; intros lc st r lc' st' Hof.
  - cbn. intros [= <- <- <-]. auto using walked_refl.
  - cbn [CellCrossesCell_edges]. unfold EdgeCrossesCell.
    destruct (EdgeCrossesCell_edges la lb relation (clipped_edges b_clipped)
                                    (StartEdge la lc aj) st)
      as [[r1 lc1] st1] eqn:E1.
    assert (Hof0 : crosser_of a b la lb (StartEdge la lc aj)) by exact Hof.
    destruct (EdgeCrossesCell_edges_walked la lb _ _ _ _ _ _ Hof0
                (StartEdge_started la lb lc aj) E1) as (W1 & S1 & _ & _).
    cbn [StartEdge swapped_] in S1.
    destruct r1.
    + intros [= <- <- <-]. auto.
    + intros E.
      destruct (IH lc1 st1 r lc' st' (crosser_of_swapped _ _ _ _ S1 Hof) E)
        as (W & S2).
      split; [exact (walked_trans _ _ _ _ W1 W) | congruence].
Qed.

Lemma CellCrossesCell_walked la lb a_clipped b_clipped lc st r lc' st' :
  crosser_of a b la lb lc ->
  CellCrossesCell la lb relation a_clipped b_clipped lc st = (r, lc', st') ->
  walked relation a b st r st' /\ swapped_ lc' = swapped_ lc.
Proof. apply CellCrossesCell_edges_walked. Qed.

Lemma CellCrossesAnySubcell_walked la lb (b_id : S2CellId) (a_edges : list Z) :
  forall lc st r lc' st',
    crosser_of a b la lb lc ->
    CellCrossesAnySubcell_edges la lb relation a_edges b_id lc st = (r, lc', st') ->
    walked relation a b st r st' /\ swapped_ lc' = swapped_ lc.
Proof.
  induction a_edges as [ | aj rest IH]; intros lc st r lc' st' Hof.
  - cbn. intros [= <- <- <-]. auto using walked_refl.
  - cbn [CellCrossesAnySubcell_edges].
    destruct (S2EdgeQuery_GetCells (vertices_ lb) (origin_inside_ lb)
                (vertex la aj) (vertex la (aj + 1)) b_id) as [found b_cells].
    destruct found; cbn [negb]; [ | apply IH; exact Hof].
    destruct (EdgeCrossesCells la lb relation b_cells (StartEdge la lc aj) st)
      as [[r1 lc1] st1] eqn:E1.
    assert (Hof0 : crosser_of a b la lb (StartEdge la lc aj)) by exact Hof.
    destruct (EdgeCrossesCells_walked la lb _ _ _ _ _ _ Hof0
                (StartEdge_started la lb lc aj) E1) as (W1 & S1).
    cbn [StartEdge swapped_] in S1.
    destruct r1.
    + intros [= <- <- <-]. auto.
    + intros E.
      destruct (IH lc1 st1 r lc' st' (crosser_of_swapped _ _ _ _ S1 Hof) E)
        as (W & S2).
      split; [exact (walked_trans _ _ _ _ W1 W) | congruence].
Qed.

Lemma HasCrossing_cells_walked la lb a_clipped (b_cells : list S2ClippedShape) :
  forall lc st r lc' st',
    crosser_of a b la lb lc ->
    HasCrossing_cells la lb relation a_clipped b_cells lc st = (r, lc', st') ->
    walked relation a b st r st' /\ swapped_ lc' = swapped_ lc.
Proof.
  induction b_cells as [ | c rest IH]; intros lc st r lc' st' Hof.
  - cbn. intros [= <- <- <-]. auto using walked_refl.
  - cbn [HasCrossing_cells].
    destruct (CellCrossesCell la lb relation a_clipped c lc st)
      as [[r1 lc1] st1] eqn:E1.
    destruct (CellCrossesCell_walked _ _ _ _ _ _ _ _ _ Hof E1) as (W1 & S1).
    destruct r1.
    + intros [= <- <- <-]. auto.
    + intros E.
      destruct (IH lc1 st1 r lc' st' (crosser_of_swapped _ _ _ _ S1 Hof) E)
        as (W & S2).
      split; [exact (walked_trans _ _ _ _ W1 W) | congruence].
Qed.

Lemma HasCrossing_scan_walked la lb (todo : nat) :
  forall ai bi total_edges b_cells lc st r bi' lc' st',
    crosser_of a b la lb lc ->
    HasCrossing_scan todo la lb relation ai bi total_edges b_cells lc st
    = Some (r, bi', lc', st') ->
    walked relation a b st r st' /\ swapped_ lc' = swapped_ lc.
Proof.
  induction todo as [ | todo IH];
    intros ai bi total_edges b_cells lc st r bi' lc' st' Hof;
    [discriminate | ].
  cbn [HasCrossing_scan].
  destruct (RangeIterator_clipped bi) as [b_clipped | ]; [ | discriminate].
  cbv zeta.
  destruct ((0 <? num_edges b_clipped)
            && (kEdgeQueryMinEdges
                <=? (if 0 <? num_edges b_clipped
                     then total_edges + num_edges b_clipped else total_edges))).
  - destruct (RangeIterator_clipped ai) as [a_clipped | ]; [ | discriminate].
    destruct (CellCrossesAnySubcell la lb relation a_clipped (RangeIterator_id ai)
                                    lc st) as [[r1 lc1] st1] eqn:E1.
    destruct (CellCrossesAnySubcell_walked _ _ _ _ _ _ _ _ _ Hof E1) as (W1 & S1).
    destruct r1; intros [= <- <- <- <-]; auto.
  - destruct (RangeIterator_Next bi) as [bi1 | ]; [ | discriminate].
    destruct (S2CellId_leb (RangeIterator_id bi1) (RangeIterator_range_max ai));
      [apply IH; exact Hof | ].
    destruct (if 0 <? num_edges b_clipped then b_cells ++ [b_clipped] else b_cells)
      as [ | c rest].
    + intros [= <- <- <- <-]. auto using walked_refl.
    + destruct (RangeIterator_clipped ai) as [a_clipped | ]; [ | discriminate].
      destruct (HasCrossing_cells la lb relation a_clipped (c :: rest) lc st)
        as [[r1 lc1] st1] eqn:E1.
      destruct (HasCrossing_cells_walked _ _ _ _ _ _ _ _ _ Hof E1) as (W1 & S1).
      intros [= <- <- <- <-]. auto.
Qed.

Lemma HasCrossingRelation_centers_true (todo : nat) :
  forall ai bi lc bi',
    HasCrossingRelation_centers todo relation ai bi lc = Some (true, bi') ->
    exists cb : S2ClippedShape,
      Z.b2z (contains_center cb) = LoopCrosser_b_crossing_target relation lc.
Proof.
  induction todo as [ | todo IH]; intros ai bi lc bi'; [discriminate | ].
  cbn [HasCrossingRelation_centers].
  destruct (RangeIterator_clipped bi) as [b_clipped | ]; [ | discriminate].
  destruct (Z.eqb_spec (Z.b2z (contains_center b_clipped))
                       (LoopCrosser_b_crossing_target relation lc)) as [E | _].
  - intros _. now exists b_clipped.
  - destruct (RangeIterator_Next bi) as [bi1 | ]; [ | discriminate].
    destruct (S2CellId_leb _ _); [apply IH | discriminate].
Qed.

Lemma crosser_centers la lb lc (ca cb : S2ClippedShape) :
  crosser_of a b la lb lc ->
  Z.b2z (contains_center ca) = LoopCrosser_a_crossing_target relation lc ->
  Z.b2z (contains_center cb) = LoopCrosser_b_crossing_target relation lc ->
  centers_match relation.
Proof.
  unfold LoopCrosser_a_crossing_target, LoopCrosser_b_crossing_target.
  intros [(-> & _) | (-> & _)] Ha Hb.
  - now exists ca, cb.
  - now exists cb, ca.
Qed.

Lemma LoopCrosser_HasCrossingRelation_walked la lb ai bi lc st r ai' bi' lc' st' :
  crosser_of a b la lb lc ->
  LoopCrosser_HasCrossingRelation la lb relation ai bi lc st
  = Some (r, ai', bi', lc', st') ->
  walked relation a b st r st' /\ swapped_ lc' = swapped_ lc.
Proof.
  intros Hof. unfold LoopCrosser_HasCrossingRelation.
  destruct (RangeIterator_clipped ai) as [a_clipped | ]; [ | discriminate].
  assert (Hend : forall r1 bi1 lc1 st1,
             walked relation a b st r1 st1 /\ swapped_ lc1 = swapped_ lc ->
             (if r1 then Some (true, ai, bi1, lc1, st1)
              else ' ai0 <- RangeIterator_Next ai ;; Some (false, ai0, bi1, lc1, st1))
             = Some (r, ai', bi', lc', st') ->
             walked relation a b st r st' /\ swapped_ lc' = swapped_ lc).
  { intros r1 bi1 lc1 st1 H. destruct r1.
    - now intros [= <- <- <- <- <-].
    - destruct (RangeIterator_Next ai); [ | discriminate].
      now intros [= <- <- <- <- <-]. }
  destruct (num_edges a_clipped =? 0).
  - destruct (Z.eqb_spec (Z.b2z (contains_center a_clipped))
                         (LoopCrosser_a_crossing_target relation lc)) as [Ea | _].
    + destruct (HasCrossingRelation_centers (cells_left bi) relation ai bi lc)
        as [[r1 bi1] | ] eqn:Ec; [ | discriminate].
      refine (Hend r1 bi1 lc st _). split; [ | reflexivity].
      destruct r1; [ | apply walked_refl].
      apply walked_centers.
      destruct (HasCrossingRelation_centers_true _ _ _ _ _ Ec) as (cb & Eb).
      exact (crosser_centers la lb lc a_clipped cb Hof Ea Eb).
    + refine (Hend false (RangeIterator_SeekBeyond bi ai) lc st _).
      split; [apply walked_refl | reflexivity].
  - unfold HasCrossing.
    destruct (HasCrossing_scan (cells_left bi) la lb relation ai bi 0 [] lc st)
      as [[[[r1 bi1] lc1] st1] | ] eqn:Es; [ | discriminate].
    refine (Hend r1 bi1 lc1 st1 _).
    exact (HasCrossing_scan_walked _ _ _ _ _ _ _ _ _ _ _ _ _ Hof Es).
Qed.

Lemma HasCrossingRelation_loop_walked (fuel : nat) :
  forall ai bi ab ba st r st',
    swapped_ ab = false -> swapped_ ba = true ->
    HasCrossingRelation_loop fuel a b relation ai bi ab ba st = Some (r, st') ->
    walked relation a b st r st'.
Proof.
  induction fuel as [ | fuel IH]; intros ai bi ab ba st r st' Hab Hba;
    cbn [HasCrossingRelation_loop];
    (destruct (negb (RangeIterator_Done ai) || negb (RangeIterator_Done bi));
     [ | intros [= <- <-]; apply walked_refl]);
    [discriminate | ].
  assert (Hof_ab : crosser_of a b a b ab) by (left; auto).
  assert (Hof_ba : crosser_of a b b a ba) by (right; auto).
  destruct (S2CellId_ltb (RangeIterator_range_max ai) (RangeIterator_range_min bi)).
  { destruct (RangeIterator_SeekTo ai bi); [ | discriminate]. now apply IH. }
  destruct (S2CellId_ltb (RangeIterator_range_max bi) (RangeIterator_range_min ai)).
  { destruct (RangeIterator_SeekTo bi ai); [ | discriminate]. now apply IH. }
  cbv zeta.
  destruct (0 <? wrap_int64 _).
  { destruct (LoopCrosser_HasCrossingRelation a b relation ai bi ab st)
      as [[[[[r1 ai1] bi1] ab1] st1] | ] eqn:E1; [ | discriminate].
    destruct (LoopCrosser_HasCrossingRelation_walked _ _ _ _ _ _ _ _ _ _ _ Hof_ab E1)
      as (W1 & S1).
    destruct r1; [now intros [= <- <-] | ].
    intros E. apply (walked_trans _ _ _ _ W1).
    apply (IH ai1 bi1 ab1 ba st1 r st'); [congruence | exact Hba | exact E]. }
  destruct (wrap_int64 _ <? 0).
  { destruct (LoopCrosser_HasCrossingRelation b a relation bi ai ba st)
      as [[[[[r1 bi1] ai1] ba1] st1] | ] eqn:E1; [ | discriminate].
    destruct (LoopCrosser_HasCrossingRelation_walked _ _ _ _ _ _ _ _ _ _ _ Hof_ba E1)
      as (W1 & S1).
    destruct r1; [now intros [= <- <-] | ].
    intros E. apply (walked_trans _ _ _ _ W1).
    apply (IH ai1 bi1 ab ba1 st1 r st'); [exact Hab | congruence | exact E]. }
  destruct (RangeIterator_clipped ai) as [a_clipped | ]; [ | discriminate].
  destruct (Z.eqb_spec (Z.b2z (contains_center a_clipped))
                       (LoopCrosser_a_crossing_target relation ab)) as [Ea | _].
  - destruct (RangeIterator_clipped bi) as [b_clipped | ]; [ | discriminate].
    destruct (Z.eqb_spec (Z.b2z (contains_center b_clipped))
                         (LoopCrosser_b_crossing_target relation ab)) as [Eb | _].
    + intros [= <- <-]. apply walked_centers.
      exact (crosser_centers a b ab a_clipped b_clipped Hof_ab Ea Eb).
    + destruct (0 <? num_edges a_clipped).
      * destruct (0 <? num_edges b_clipped).
        -- destruct (CellCrossesCell a b relation a_clipped b_clipped ab st)
             as [[r1 ab1] st1] eqn:E1.
           destruct (CellCrossesCell_walked _ _ _ _ _ _ _ _ _ Hof_ab E1) as (W1 & S1).
           destruct r1; [now intros [= <- <-] | ].
           destruct (RangeIterator_Next ai); [ | discriminate].
           destruct (RangeIterator_Next bi); [ | discriminate].
           intros E. apply (walked_trans _ _ _ _ W1).
           eapply IH; [ | exact Hba | exact E]. congruence.
        -- destruct (RangeIterator_Next ai); [ | discriminate].
           destruct (RangeIterator_Next bi); [ | discriminate].
           now apply IH.
      * destruct (RangeIterator_Next ai); [ | discriminate].
        destruct (RangeIterator_Next bi); [ | discriminate].
        now apply IH.
  - destruct (0 <? num_edges a_clipped).
    + destruct (RangeIterator_clipped bi) as [b_clipped | ]; [ | discriminate].
      destruct (0 <? num_edges b_clipped).
      * destruct (CellCrossesCell a b relation a_clipped b_clipped ab st)
          as [[r1 ab1] st1] eqn:E1.
        destruct (CellCrossesCell_walked _ _ _ _ _ _ _ _ _ Hof_ab E1) as (W1 & S1).
        destruct r1; [now intros [= <- <-] | ].
        destruct (RangeIterator_Next ai); [ | discriminate].
        destruct (RangeIterator_Next bi); [ | discriminate].
        intros E. apply (walked_trans _ _ _ _ W1).
        eapply IH; [ | exact Hba | exact E]. congruence.
      * destruct (RangeIterator_Next ai); [ | discriminate].
        destruct (RangeIterator_Next bi); [ | discriminate].
        now apply IH.
    + destruct (RangeIterator_Next ai); [ | discriminate].
      destruct (RangeIterator_Next bi); [ | discriminate].
      now apply IH.
Qed.

(** The walk of [HasCrossingRelation] builds both indexes, consults the
    relation only with the wedges at shared vertices, and answers [true]
    only after the relation has, or for two edges that cross properly, or
    for cell centres that match the crossing targets. *)
Lemma HasCrossingRelation_walked (fuel : nat) (st : St) r st' a' b' :
  HasCrossingRelation fuel a b relation st = Some (r, st', a', b') ->
  walked relation a b st r st'
  /\ a' = set_index a (S2ShapeIndex_Iterator (index_ a))
  /\ b' = set_index b (S2ShapeIndex_Iterator (index_ b)).
Proof.
  unfold HasCrossingRelation.
  destruct (HasCrossingRelation_loop fuel a b relation _ _ _ _ st)
    as [[r1 st1] | ] eqn:E; [ | discriminate].
  intros [= <- <- <- <-].
  split; [ | split; reflexivity].
  exact (HasCrossingRelation_loop_walked fuel _ _ (LoopCrosser_new false)
           (LoopCrosser_new true) _ _ _ eq_refl eq_refl E).
Qed.

End WalkTrace.

(* ================================================================= *)
(** ** The walk over two indexes: it returns *)

Section IteratorFacts.
Context {rel : RelationCollaborators} {cells : CellCollaborators}
        {walk : WalkCollaborators}.

Lemma ids_increase_nth (cs : list (S2CellId * S2ClippedShape)) :
  ids_increase (map fst cs) = true ->
  forall i j x y,
    (i < j)%nat -> nth_error cs i = Some x -> nth_error cs j = Some y ->
    S2CellId_id (fst x) < S2CellId_id (fst y).
Proof.
  induction cs as [ | c rest IH]; intros Hinc i j x y Hij Hi Hj.
  - destruct i; discriminate.
  - cbn [map ids_increase] in Hinc. apply andb_prop in Hinc as [Hhd Htl].
    destruct j as [ | j]; [lia | ]. cbn [nth_error] in Hj.
    destruct i as [ | i]; cbn [nth_error] in Hi.
    + injection Hi as <-.
      rewrite forallb_forall in Hhd.
      specialize (Hhd (fst y) (in_map fst _ _ (nth_error_In _ _ Hj))).
      unfold S2CellId_ltb in Hhd. lia.
    + apply (IH Htl i j); auto. lia.
Qed.

Lemma Iterator_Seek_le (cs : list (S2CellId * S2ClippedShape)) target :
  (Iterator_Seek cs target <= length cs)%nat.
Proof.
  induction cs as [ | [id sh] rest IH]; cbn [Iterator_Seek length]; [lia | ].
  destruct (S2CellId_ltb id target); lia.
Qed.

Lemma Iterator_Seek_gt (cs : list (S2CellId * S2ClippedShape)) target :
  ids_increase (map fst cs) = true ->
  forall p x,
    nth_error cs p = Some x -> S2CellId_id (fst x) < S2CellId_id target ->
    (p < Iterator_Seek cs target)%nat.
Proof.
  induction cs as [ | [id sh] rest IH]; intros Hinc p x Hp Hlt.
  - destruct p; discriminate.
  - cbn [Iterator_Seek].
    assert (Hhd : S2CellId_ltb id target = true).
    { unfold S2CellId_ltb. apply Z.ltb_lt.
      destruct p as [ | p]; [cbn in Hp; injection Hp as <-; exact Hlt | ].
      pose proof (ids_increase_nth _ Hinc 0 (S p) (id, sh) x ltac:(lia) eq_refl Hp)
        as H.
      cbn [fst] in H. lia. }
    rewrite Hhd. destruct p as [ | p]; [lia | ].
    cbn [map ids_increase] in Hinc. apply andb_prop in Hinc as [_ Htl].
    cbn [nth_error] in Hp. specialize (IH Htl p x Hp Hlt). lia.
Qed.

Lemma cell_id_ok_spec (id : S2CellId) :
  cell_id_ok id = true ->
  S2CellId_id (S2CellId_range_min id) <= S2CellId_id id
  /\ S2CellId_id id <= S2CellId_id (S2CellId_range_max id)
  /\ S2CellId_id (S2CellId_range_max id)
     < S2CellId_id (S2CellId_range_min S2CellId_End0)
  /\ S2CellId_id (S2CellId_range_max id)
     < S2CellId_id (S2CellId_next (S2CellId_range_max id)).
Proof.
  unfold cell_id_ok, S2CellId_leb, S2CellId_ltb.
  rewrite !andb_true_iff, !Z.leb_le, !Z.ltb_lt. tauto.
Qed.

Section OneIndex.
Variable cs : list (S2CellId * S2ClippedShape).
Hypothesis Hinc : ids_increase (map fst cs) = true.

Lemma RangeIterator_at p x :
  nth_error cs p = Some x ->
  RangeIterator_id (mkRangeIterator cs p) = fst x
  /\ RangeIterator_clipped (mkRangeIterator cs p) = Some (snd x)
  /\ RangeIterator_Next (mkRangeIterator cs p) = Some (mkRangeIterator cs (S p)).
Proof.
  intros Hp. unfold RangeIterator_id, RangeIterator_clipped, RangeIterator_Next,
               Iterator_Done.
  cbn [it_cells it_]. rewrite Hp. destruct x as [id sh].
  repeat split.
  assert (H : (p < length cs)%nat) by (apply nth_error_Some; congruence).
  destruct (Nat.leb_spec (length cs) p); [lia | reflexivity].
Qed.

Lemma RangeIterator_at_end p :
  (length cs <= p)%nat ->
  RangeIterator_id (mkRangeIterator cs p) = S2CellId_End0
  /\ RangeIterator_Done (mkRangeIterator cs p) = true.
Proof.
  intros Hp. apply nth_error_None in Hp.
  unfold RangeIterator_Done, RangeIterator_id. cbn [it_cells it_]. rewrite Hp.
  split; [reflexivity | apply Z.eqb_refl].
Qed.

Lemma nth_error_lt p : (p < length cs)%nat -> exists x, nth_error cs p = Some x.
Proof.
  intros Hp. destruct (nth_error cs p) as [x | ] eqn:E; [now exists x | ].
  apply nth_error_None in E. lia.
Qed.

(** [SeekTo] moves an iterator forward when its cell ends before the
    target begins. *)
Lemma SeekTo_advances p x target :
  nth_error cs p = Some x ->
  S2CellId_id (fst x) <= S2CellId_id (S2CellId_range_max (fst x)) ->
  S2CellId_id (S2CellId_range_max (fst x))
  < S2CellId_id (RangeIterator_range_min target) ->
  S2CellId_id (RangeIterator_range_min target)
  <= S2CellId_id (RangeIterator_id target) ->
  exists p',
    RangeIterator_SeekTo (mkRangeIterator cs p) target
    = Some (mkRangeIterator cs p')
    /\ (p < p' <= length cs)%nat.
Proof.
  intros Hp Hx Hlt Hmin. unfold RangeIterator_SeekTo. cbn [it_cells]. cbv zeta.
  assert (Hxt : S2CellId_id (fst x) < S2CellId_id (RangeIterator_range_min target))
    by lia.
  pose proof (Iterator_Seek_gt cs (RangeIterator_range_min target) Hinc p x Hp Hxt)
    as Hgt.
  pose proof (Iterator_Seek_le cs (RangeIterator_range_min target)) as Hle.
  set (s := Iterator_Seek cs (RangeIterator_range_min target)) in *.
  assert (Hback :
            exists p',
              match s with
              | O => None
              | S prev =>
                  match nth_error cs prev with
                  | Some (id, _) =>
                      if S2CellId_ltb (S2CellId_range_max id)
                                      (RangeIterator_id target)
                      then Some (mkRangeIterator cs s)
                      else Some (mkRangeIterator cs prev)
                  | None => None
                  end
              end = Some (mkRangeIterator cs p')
              /\ (p < p' <= length cs)%nat).
  { destruct s as [ | prev]; [lia | ].
    destruct (nth_error_lt prev ltac:(lia)) as ([id sh] & Ep). rewrite Ep.
    destruct (S2CellId_ltb (S2CellId_range_max id) (RangeIterator_id target)) eqn:El.
    - exists (S prev). split; [reflexivity | lia].
    - exists prev. split; [reflexivity | ].
      assert (prev <> p); [ | lia].
      intros ->. rewrite Hp in Ep. injection Ep as ->.
      unfold S2CellId_ltb in El. cbn [fst] in *. lia. }
  destruct (nth_error cs s) as [[id sh] | ]; [ | exact Hback].
  destruct (S2CellId_ltb (RangeIterator_range_max target) (S2CellId_range_min id));
    [exact Hback | ].
  exists s. split; [reflexivity | lia].
Qed.

(** [SeekBeyond] moves an iterator forward when its cell does not reach
    the successor of the last leaf of the target. *)
Lemma SeekBeyond_advances p x target :
  nth_error cs p = Some x ->
  S2CellId_id (fst x)
  < S2CellId_id (S2CellId_next (RangeIterator_range_max target)) ->
  exists p',
    RangeIterator_SeekBeyond (mkRangeIterator cs p) target = mkRangeIterator cs p'
    /\ (p < p' <= length cs)%nat.
Proof.
  intros Hp Hlt. unfold RangeIterator_SeekBeyond. cbn [it_cells]. cbv zeta.
  pose proof (Iterator_Seek_gt cs _ Hinc p x Hp Hlt) as Hgt.
  pose proof (Iterator_Seek_le cs (S2CellId_next (RangeIterator_range_max target)))
    as Hle.
  set (s := Iterator_Seek cs _) in *.
  destruct (nth_error cs s) as [[id sh] | ] eqn:Es.
  - assert (s < length cs)%nat by (apply nth_error_Some; congruence).
    destruct (S2CellId_leb _ _); eexists; (split; [reflexivity | lia]).
  - exists s. split; [reflexivity | lia].
Qed.

Section Crosser.
Context {St : Type} (relation : LoopRelation St) (la lb : S2Loop).
Variable ai : RangeIterator.
Hypothesis Hai_end :
  S2CellId_id (RangeIterator_range_max ai) < S2CellId_id S2CellId_End0.
Hypothesis Hai_next :
  S2CellId_id (RangeIterator_range_max ai)
  < S2CellId_id (S2CellId_next (RangeIterator_range_max ai)).

(** At the end of the index the [do] loops over the cells of B stop. *)
Lemma do_loop_stops p :
  (p < length cs)%nat ->
  S2CellId_leb (RangeIterator_id (mkRangeIterator cs (S p)))
               (RangeIterator_range_max ai) = true ->
  (S p < length cs)%nat.
Proof.
  intros Hp Hle.
  destruct (Nat.lt_ge_cases (S p) (length cs)) as [ | Hge]; [assumption | ].
  destruct (RangeIterator_at_end (S p) Hge) as [Hid _].
  rewrite Hid in Hle. unfold S2CellId_leb in Hle. lia.
Qed.

Lemma HasCrossingRelation_centers_returns (lc : LoopCrosser) (todo : nat) :
  forall p,
    todo = (length cs - p)%nat -> (p < length cs)%nat ->
    exists r p',
      HasCrossingRelation_centers todo relation ai (mkRangeIterator cs p) lc
      = Some (r, mkRangeIterator cs p')
      /\ (p <= p' <= length cs)%nat.
Proof.
  induction todo as [ | todo IH]; intros p Ht Hp; [lia | ].
  cbn [HasCrossingRelation_centers].
  destruct (nth_error_lt p Hp) as (x & Ex).
  destruct (RangeIterator_at p x Ex) as (_ & -> & ->).
  destruct (Z.b2z (contains_center (snd x))
            =? LoopCrosser_b_crossing_target relation lc).
  - exists true, p. split; [reflexivity | lia].
  - destruct (S2CellId_leb _ _) eqn:El.
    + pose proof (do_loop_stops p Hp El) as Hp'.
      destruct (IH (S p) ltac:(lia) Hp') as (r & p' & E & Hb).
      exists r, p'. split; [exact E | lia].
    + exists false, (S p). split; [reflexivity | lia].
Qed.

Lemma HasCrossing_scan_returns (a_clipped : S2ClippedShape) (todo : nat) :
  RangeIterator_clipped ai = Some a_clipped ->
  forall p total_edges b_cells lc (st : St),
    todo = (length cs - p)%nat -> (p < length cs)%nat ->
    S2CellId_leb (RangeIterator_id (mkRangeIterator cs p))
                 (RangeIterator_range_max ai) = true ->
    exists r p' lc' st',
      HasCrossing_scan todo la lb relation ai (mkRangeIterator cs p)
                       total_edges b_cells lc st
      = Some (r, mkRangeIterator cs p', lc', st')
      /\ (p <= p' <= length cs)%nat.
Proof.
  intros Ha.
  induction todo as [ | todo IH]; intros p total_edges b_cells lc st Ht Hp Hin;
    [lia | ].
  cbn [HasCrossing_scan].
  destruct (nth_error_lt p Hp) as (x & Ex).
  destruct (RangeIterator_at p x Ex) as (Hid & -> & ->). cbv zeta.
  destruct ((0 <? num_edges (snd x)) && _).
  - rewrite Ha.
    destruct (CellCrossesAnySubcell la lb relation a_clipped (RangeIterator_id ai)
                                    lc st) as [[r1 lc1] st1].
    destruct r1.
    + exists true, p, lc1, st1. split; [reflexivity | lia].
    + destruct (SeekBeyond_advances p x ai Ex) as (p' & -> & Hb).
      { rewrite Hid in Hin. unfold S2CellId_leb in Hin. lia. }
      exists false, p', lc1, st1. split; [reflexivity | lia].
  - destruct (S2CellId_leb (RangeIterator_id (mkRangeIterator cs (S p)))
                           (RangeIterator_range_max ai)) eqn:El.
    + pose proof (do_loop_stops p Hp El) as Hp'.
      destruct (IH (S p) (if 0 <? num_edges (snd x)
                          then total_edges + num_edges (snd x) else total_edges)
                   (if 0 <? num_edges (snd x) then b_cells ++ [snd x] else b_cells)
                   lc st ltac:(lia) Hp' El) as (r & p' & lc' & st' & E & Hb).
      exists r, p', lc', st'. split; [exact E | lia].
    + destruct (if 0 <? num_edges (snd x) then b_cells ++ [snd x] else b_cells)
        as [ | c rest].
      * exists false, (S p), lc, st. split; [reflexivity | lia].
      * rewrite Ha.
        destruct (HasCrossing_cells la lb relation a_clipped (c :: rest) lc st)
          as [[r1 lc1] st1].
        exists r1, (S p), lc1, st1. split; [reflexivity | lia].
Qed.

End Crosser.
End OneIndex.

(** A crosser that is given a cell of one index and a cell of the other
    that lies within it returns; unless it answers true, it has advanced
    the first iterator by one cell and has not moved the second
    backwards. *)
Lemma LoopCrosser_HasCrossingRelation_returns {St : Type}
    (relation : LoopRelation St) (la lb : S2Loop)
    (ca cb : list (S2CellId * S2ClippedShape)) (pa pb : nat) xa xb lc (st : St) :
  ids_increase (map fst cb) = true ->
  nth_error ca pa = Some xa -> nth_error cb pb = Some xb ->
  cell_id_ok (fst xa) = true ->
  S2CellId_id (S2CellId_range_min S2CellId_End0) <= S2CellId_id S2CellId_End0 ->
  S2CellId_id (fst xb) <= S2CellId_id (S2CellId_range_max (fst xa)) ->
  exists r pa' pb' lc' st',
    LoopCrosser_HasCrossingRelation la lb relation (mkRangeIterator ca pa)
                                    (mkRangeIterator cb pb) lc st
    = Some (r, mkRangeIterator ca pa', mkRangeIterator cb pb', lc', st')
    /\ (r = false -> pa' = S pa) /\ (pb <= pb' <= length cb)%nat.
Proof.
  intros Hinc Ea Eb Hok Hend Hin.
  destruct (cell_id_ok_spec _ Hok) as (_ & _ & Hlt_end & Hlt_next).
  destruct (RangeIterator_at ca pa xa Ea) as (Hida & Hca & Hna).
  destruct (RangeIterator_at cb pb xb Eb) as (Hidb & _ & _).
  assert (Hpb : (pb < length cb)%nat) by (apply nth_error_Some; congruence).
  set (ai := mkRangeIterator ca pa) in *.
  assert (Hai_end : S2CellId_id (RangeIterator_range_max ai)
                    < S2CellId_id S2CellId_End0).
  { unfold RangeIterator_range_max. rewrite Hida. lia. }
  assert (Hai_next : S2CellId_id (RangeIterator_range_max ai)
                     < S2CellId_id (S2CellId_next (RangeIterator_range_max ai))).
  { unfold RangeIterator_range_max. rewrite Hida. exact Hlt_next. }
  assert (Hleb : S2CellId_leb (RangeIterator_id (mkRangeIterator cb pb))
                              (RangeIterator_range_max ai) = true).
  { unfold S2CellId_leb, RangeIterator_range_max. rewrite Hidb, Hida.
    now apply Z.leb_le. }
  unfold LoopCrosser_HasCrossingRelation. rewrite Hca.
  assert (Hfinish : forall (r1 : bool) (pb1 : nat) (lc1 : LoopCrosser) (st1 : St),
             (pb <= pb1 <= length cb)%nat ->
             exists r pa' pb' lc' st',
               (if r1
                then Some (true, ai, mkRangeIterator cb pb1, lc1, st1)
                else ' ai0 <- RangeIterator_Next ai ;;
                     Some (false, ai0, mkRangeIterator cb pb1, lc1, st1))
               = Some (r, mkRangeIterator ca pa', mkRangeIterator cb pb', lc', st')
               /\ (r = false -> pa' = S pa) /\ (pb <= pb' <= length cb)%nat).
  { intros r1 pb1 lc1 st1 Hb. destruct r1.
    - exists true, pa, pb1, lc1, st1.
      split; [reflexivity | split; [discriminate | lia]].
    - rewrite Hna. exists false, (S pa), pb1, lc1, st1.
      split; [reflexivity | split; [reflexivity | lia]]. }
  destruct (num_edges (snd xa) =? 0).
  - destruct (Z.b2z (contains_center (snd xa))
              =? LoopCrosser_a_crossing_target relation lc).
    + destruct (HasCrossingRelation_centers_returns cb relation ai Hai_end lc
                  (cells_left (mkRangeIterator cb pb)) pb eq_refl Hpb)
        as (r1 & pb1 & -> & Hb).
      exact (Hfinish r1 pb1 lc st Hb).
    + destruct (SeekBeyond_advances cb Hinc pb xb ai Eb) as (pb1 & -> & Hb).
      { unfold RangeIterator_range_max in *. rewrite Hida in *. lia. }
      exact (Hfinish false pb1 lc st ltac:(lia)).
  - unfold HasCrossing.
    destruct (HasCrossing_scan_returns cb Hinc relation la lb ai Hai_end Hai_next
                (snd xa) (cells_left (mkRangeIterator cb pb)) Hca pb 0 [] lc st
                eq_refl Hpb Hleb) as (r1 & pb1 & lc1 & st1 & -> & Hb).
    exact (Hfinish r1 pb1 lc1 st1 Hb).
Qed.

Lemma iterator_cases (cs : list (S2CellId * S2ClippedShape)) (p : nat) :
  forallb cell_id_ok (map fst cs) = true ->
  S2CellId_id (S2CellId_range_min S2CellId_End0) <= S2CellId_id S2CellId_End0 ->
  (p <= length cs)%nat ->
  (exists x, nth_error cs p = Some x /\ (p < length cs)%nat
             /\ RangeIterator_id (mkRangeIterator cs p) = fst x
             /\ RangeIterator_Done (mkRangeIterator cs p) = false
             /\ cell_id_ok (fst x) = true)
  \/ (p = length cs
      /\ RangeIterator_id (mkRangeIterator cs p) = S2CellId_End0
      /\ RangeIterator_Done (mkRangeIterator cs p) = true).
Proof.
  intros Hok Hend Hp.
  destruct (nth_error cs p) as [x | ] eqn:Ex.
  - left. exists x.
    assert (Hx : cell_id_ok (fst x) = true).
    { rewrite forallb_forall in Hok. apply Hok.
      exact (in_map fst _ _ (nth_error_In _ _ Ex)). }
    destruct (RangeIterator_at cs p x Ex) as (Hid & _ & _).
    split; [reflexivity | ].
    split; [apply nth_error_Some; congruence | ].
    split; [exact Hid | split; [ | exact Hx]].
    unfold RangeIterator_Done, S2CellId_eqb. rewrite Hid.
    destruct (cell_id_ok_spec _ Hx) as (_ & H1 & H2 & _).
    apply Z.eqb_neq. lia.
  - right. apply nth_error_None in Ex.
    destruct (RangeIterator_at_end cs p Ex) as [Hid Hd].
    split; [lia | split; assumption].
Qed.

(** The walk returns within as many turns as the two indexes have cells
    left, on indexes whose cell ids are as [index_contract] requires. *)
Lemma HasCrossingRelation_loop_returns {St : Type} (relation : LoopRelation St)
    (a b : S2Loop) (ca cb : list (S2CellId * S2ClippedShape)) :
  ids_increase (map fst ca) = true -> ids_increase (map fst cb) = true ->
  forallb cell_id_ok (map fst ca) = true ->
  forallb cell_id_ok (map fst cb) = true ->
  S2CellId_leb (S2CellId_range_min S2CellId_End0) S2CellId_End0 = true ->
  S2CellId_leb S2CellId_End0 (S2CellId_range_max S2CellId_End0) = true ->
  forallb (fun x => forallb (cells_nested x) (map fst cb)) (map fst ca) = true ->
  forall (fuel pa pb : nat) (ab ba : LoopCrosser) (st : St),
    (pa <= length ca)%nat -> (pb <= length cb)%nat ->
    (length ca - pa + (length cb - pb) <= fuel)%nat ->
    exists res,
      HasCrossingRelation_loop fuel a b relation (mkRangeIterator ca pa)
                               (mkRangeIterator cb pb) ab ba st
      = Some res.
Proof.
  intros Hinc_a Hinc_b Hok_a Hok_b Hend0 Hend1 Hnest.
  unfold S2CellId_leb in Hend0, Hend1. apply Z.leb_le in Hend0, Hend1.
  assert (Hnested : forall pa pb xa xb,
             nth_error ca pa = Some xa -> nth_error cb pb = Some xb ->
             cells_nested (fst xa) (fst xb) = true).
  { intros pa pb xa xb Ea Eb. rewrite forallb_forall in Hnest.
    specialize (Hnest (fst xa) (in_map fst _ _ (nth_error_In _ _ Ea))).
    rewrite forallb_forall in Hnest.
    exact (Hnest (fst xb) (in_map fst _ _ (nth_error_In _ _ Eb))). }
  induction fuel as [ | fuel IH]; intros pa pb ab ba st Hpa Hpb Hm;
    cbn [HasCrossingRelation_loop];
    destruct (iterator_cases ca pa Hok_a Hend0 Hpa)
      as [(xa & Ea & Hla & Hida & Hda & Hxa) | (Hla & Hida & Hda)];
    destruct (iterator_cases cb pb Hok_b Hend0 Hpb)
      as [(xb & Eb & Hlb & Hidb & Hdb & Hxb) | (Hlb & Hidb & Hdb)];
    rewrite Hda, Hdb; cbn [negb orb];
    try (eexists; reflexivity); try lia.
  - (* a cell of A and a cell of B *)
    destruct (cell_id_ok_spec _ Hxa) as (A1 & A2 & A3 & A4).
    destruct (cell_id_ok_spec _ Hxb) as (B1 & B2 & B3 & B4).
    destruct (RangeIterator_at ca pa xa Ea) as (_ & Hca & Hna).
    destruct (RangeIterator_at cb pb xb Eb) as (_ & Hcb & Hnb).
    unfold S2CellId_ltb at 1.
    unfold RangeIterator_range_max at 1, RangeIterator_range_min at 1.
    rewrite Hida, Hidb.
    destruct (Z.ltb_spec (S2CellId_id (S2CellId_range_max (fst xa)))
                         (S2CellId_id (S2CellId_range_min (fst xb)))) as [H1 | H1].
    { destruct (SeekTo_advances ca Hinc_a pa xa (mkRangeIterator cb pb) Ea A2)
        as (pa' & -> & Hb).
      - unfold RangeIterator_range_min. now rewrite Hidb.
      - unfold RangeIterator_range_min. now rewrite Hidb.
      - apply IH; lia. }
    unfold S2CellId_ltb at 1.
    unfold RangeIterator_range_max at 1, RangeIterator_range_min at 1.
    rewrite Hida, Hidb.
    destruct (Z.ltb_spec (S2CellId_id (S2CellId_range_max (fst xb)))
                         (S2CellId_id (S2CellId_range_min (fst xa)))) as [H2 | H2].
    { destruct (SeekTo_advances cb Hinc_b pb xb (mkRangeIterator ca pa) Eb B2)
        as (pb' & -> & Hb).
      - unfold RangeIterator_range_min. now rewrite Hida.
      - unfold RangeIterator_range_min. now rewrite Hida.
      - apply IH; lia. }
    cbv zeta.
    pose proof (Hnested pa pb xa xb Ea Eb) as Hn. unfold cells_nested in Hn.
    unfold S2CellId_ltb at 1 2 in Hn.
    destruct (Z.ltb_spec (S2CellId_id (S2CellId_range_max (fst xa)))
                         (S2CellId_id (S2CellId_range_min (fst xb))));
      [lia | ].
    destruct (Z.ltb_spec (S2CellId_id (S2CellId_range_max (fst xb)))
                         (S2CellId_id (S2CellId_range_min (fst xa))));
      [lia | ].
    cbn [orb] in Hn. cbv zeta in Hn.
    destruct (0 <? wrap_int64 (S2CellId_lsb (fst xa) - S2CellId_lsb (fst xb))).
    { apply andb_prop in Hn as [_ Hn]. unfold S2CellId_leb in Hn.
      apply Z.leb_le in Hn.
      destruct (LoopCrosser_HasCrossingRelation_returns relation a b ca cb pa pb
                  xa xb ab st Hinc_b Ea Eb Hxa Hend0 ltac:(lia))
        as (r1 & pa' & pb' & lc' & st' & -> & Hr & Hb).
      destruct r1; [eexists; reflexivity | ].
      rewrite (Hr eq_refl). apply IH; lia. }
    destruct (wrap_int64 (S2CellId_lsb (fst xa) - S2CellId_lsb (fst xb)) <? 0).
    { apply andb_prop in Hn as [_ Hn]. unfold S2CellId_leb in Hn.
      apply Z.leb_le in Hn.
      destruct (LoopCrosser_HasCrossingRelation_returns relation b a cb ca pb pa
                  xb xa ba st Hinc_a Eb Ea Hxb Hend0 ltac:(lia))
        as (r1 & pb' & pa' & lc' & st' & -> & Hr & Hb).
      destruct r1; [eexists; reflexivity | ].
      rewrite (Hr eq_refl). apply IH; lia. }
    rewrite Hca, Hcb, Hna, Hnb.
    assert (Hnext : forall ab1 st1,
               exists res,
                 HasCrossingRelation_loop fuel a b relation
                   (mkRangeIterator ca (S pa)) (mkRangeIterator cb (S pb)) ab1 ba st1
                 = Some res).
    { intros ab1 st1. apply IH; lia. }
    destruct (Z.b2z (contains_center (snd xa))
              =? LoopCrosser_a_crossing_target relation ab).
    + destruct (Z.b2z (contains_center (snd xb))
                =? LoopCrosser_b_crossing_target relation ab);
        [eexists; reflexivity | ].
      destruct (0 <? num_edges (snd xa)); [ | apply Hnext].
      destruct (0 <? num_edges (snd xb)); [ | apply Hnext].
      destruct (CellCrossesCell a b relation (snd xa) (snd xb) ab st)
        as [[r1 ab1] st1].
      destruct r1; [eexists; reflexivity | apply Hnext].
    + destruct (0 <? num_edges (snd xa)); [ | apply Hnext].
      destruct (0 <? num_edges (snd xb)); [ | apply Hnext].
      destruct (CellCrossesCell a b relation (snd xa) (snd xb) ab st)
        as [[r1 ab1] st1].
      destruct r1; [eexists; reflexivity | apply Hnext].
  - (* the cells of B are exhausted *)
    destruct (cell_id_ok_spec _ Hxa) as (A1 & A2 & A3 & A4).
    unfold S2CellId_ltb at 1.
    unfold RangeIterator_range_max at 1, RangeIterator_range_min at 1.
    rewrite Hida, Hidb.
    destruct (Z.ltb_spec (S2CellId_id (S2CellId_range_max (fst xa)))
                         (S2CellId_id (S2CellId_range_min S2CellId_End0)));
      [ | lia].
    destruct (SeekTo_advances ca Hinc_a pa xa (mkRangeIterator cb pb) Ea A2)
      as (pa' & -> & Hb).
    + unfold RangeIterator_range_min. now rewrite Hidb.
    + unfold RangeIterator_range_min. now rewrite Hidb.
    + apply IH; lia.
  - (* the cells of A are exhausted *)
    destruct (cell_id_ok_spec _ Hxb) as (B1 & B2 & B3 & B4).
    unfold S2CellId_ltb at 1.
    unfold RangeIterator_range_max at 1, RangeIterator_range_min at 1.
    rewrite Hida, Hidb.
    destruct (Z.ltb_spec (S2CellId_id (S2CellId_range_max S2CellId_End0))
                         (S2CellId_id (S2CellId_range_min (fst xb))));
      [lia | ].
    unfold S2CellId_ltb at 1.
    unfold RangeIterator_range_max at 1, RangeIterator_range_min at 1.
    rewrite Hida, Hidb.
    destruct (Z.ltb_spec (S2CellId_id (S2CellId_range_max (fst xb)))
                         (S2CellId_id (S2CellId_range_min S2CellId_End0)));
      [ | lia].
    destruct (SeekTo_advances cb Hinc_b pb xb (mkRangeIterator ca pa) Eb B2)
      as (pb' & -> & Hb).
    + unfold RangeIterator_range_min. now rewrite Hida.
    + unfold RangeIterator_range_min. now rewrite Hida.
    + apply IH; lia.
Qed.

(** A turn of fuel more does not change the result of the walk. *)
Lemma HasCrossingRelation_loop_fuel_S {St : Type} (relation : LoopRelation St)
    (a b : S2Loop) (fuel : nat) :
  forall ai bi ab ba (st : St) res,
    HasCrossingRelation_loop fuel a b relation ai bi ab ba st = Some res ->
    HasCrossingRelation_loop (S fuel) a b relation ai bi ab ba st = Some res.
Proof.
  induction fuel as [ | fuel IH]; intros ai bi ab ba st res H.
  - cbn [HasCrossingRelation_loop] in *.
    destruct (negb (RangeIterator_Done ai) || negb (RangeIterator_Done bi));
      [discriminate | exact H].
  - cbn [HasCrossingRelation_loop] in H.
    remember (S fuel) as n eqn:En. cbn [HasCrossingRelation_loop]. subst n.
    repeat match type of H with
           | context [match ?x with _ => _ end] =>
               lazymatch x with
               | context [HasCrossingRelation_loop] => fail
               | _ => destruct x eqn:?
               end
           end;
      try discriminate; auto.
Qed.

Lemma HasCrossingRelation_loop_fuel_le {St : Type} (relation : LoopRelation St)
    (a b : S2Loop) (fuel fuel' : nat) ai bi ab ba (st : St) res :
  (fuel <= fuel')%nat ->
  HasCrossingRelation_loop fuel a b relation ai bi ab ba st = Some res ->
  HasCrossingRelation_loop fuel' a b relation ai bi ab ba st = Some res.
Proof.
  induction 1 as [ | m _ IH]; [auto | ].
  intros H. apply HasCrossingRelation_loop_fuel_S. auto.
Qed.

End IteratorFacts.

(* ================================================================= *)
(** ** Boundary comparison *)

Section BoundaryComparison.
Context {collab : Collaborators} {flags : Flags}
        {rel : RelationCollaborators} {cells : CellCollaborators}
        {walk : WalkCollaborators}.

(** Every call of [CompareBoundaryRelation::WedgesCross] records that a
    shared vertex was seen. *)
Lemma CompareBoundaryRelation_calls_found st (ws : list Wedge) :
  found_shared_vertex_ (snd (WedgesCross_calls CompareBoundaryRelation st ws))
  = found_shared_vertex_ st || match ws with [] => false | _ :: _ => true end.
Proof.
  revert st. induction ws as [ | [[[[a0 ab1] a2] b0] b2] rest IH]; intros st.
  - cbn. now rewrite orb_false_r.
  - cbn [WedgesCross_calls WedgesCross CompareBoundaryRelation].
    pose proof (CompareBoundaryRelation_WedgesCross_flags st a0 ab1 a2 b0 b2) as Hf.
    cbv zeta in Hf. destruct Hf as (_ & Hfound & _).
    destruct (CompareBoundaryRelation_WedgesCross st a0 ab1 a2 b0 b2) as [r st1].
    cbn [snd] in Hfound. rewrite orb_true_r.
    destruct r; [exact Hfound | ].
    rewrite IH, Hfound. reflexivity.
Qed.

(** The calls that a walk makes on the relation object of
    [CompareBoundary], read from the wedges it was shown. *)
Lemma CompareBoundaryRelation_walk (reverse_b : bool) (ws : list Wedge) rw st :
  let verdict := fun w : Wedge =>
    let '(a0, ab1, a2, b0, b2) := w in
    WedgeContainsSemiwedge a0 ab1 a2 b2 reverse_b in
  WedgesCross_calls CompareBoundaryRelation
                    (CompareBoundaryRelation_new reverse_b) ws = (rw, st) ->
  (found_shared_vertex_ st = true <-> ws <> [])
  /\ (rw = true ->
      exists w1 w2, In w1 ws /\ In w2 ws
                    /\ verdict w1 = true /\ verdict w2 = false)
  /\ (rw = false -> forall w, In w ws -> verdict w = contains_edge_ st).
Proof.
  intros verdict Hc.
  pose proof (CompareBoundaryRelation_calls_found
                (CompareBoundaryRelation_new reverse_b) ws) as Hfound.
  pose proof (CompareBoundaryRelation_calls (CompareBoundaryRelation_new reverse_b)
                                            ws) as H.
  cbv zeta in H. cbn [reverse_b_ contains_edge_ excludes_edge_
                      CompareBoundaryRelation_new orb andb] in H.
  fold verdict in H. rewrite Hc in H, Hfound. cbn [fst snd] in H, Hfound.
  destruct (H eq_refl) as [H1 H2]. clear H.
  split; [ | split].
  - rewrite Hfound. cbn [found_shared_vertex_ CompareBoundaryRelation_new orb].
    destruct ws; split; congruence.
  - intros ->. symmetry in H1. apply andb_prop in H1 as [Hv1 Hv2].
    apply existsb_exists in Hv1 as (w1 & Hi1 & Hv1).
    apply existsb_exists in Hv2 as (w2 & Hi2 & Hv2).
    exists w1, w2. apply negb_true_iff in Hv2. auto.
  - intros ->. destruct (H2 eq_refl) as [Hce _].
    intros w Hw. rewrite Hce.
    symmetry in H1. apply andb_false_iff in H1 as [Hf | Hf].
    + rewrite Hf. rewrite existsb_false_iff in Hf. exact (Hf w Hw).
    + rewrite existsb_false_iff in Hf. specialize (Hf w Hw).
      apply negb_false_iff in Hf. change (verdict w = true) in Hf.
      rewrite Hf. symmetry. apply existsb_exists. now exists w.
Qed.

(** The "centre inside" bit of a cell is never a crossing target of the
    relation of [CompareBoundary]. *)
Lemma CompareBoundaryRelation_no_centers :
  ~ centers_match CompareBoundaryRelation.
Proof.
  intros (ca & cb & Ha & _). cbn in Ha.
  destruct (contains_center ca); discriminate.
Qed.

Lemma index_contract_returns {St : Type} (relation : LoopRelation St)
    (a b : S2Loop) (fuel : nat) (st : St) :
  index_contract a b = true -> (walk_turns a b <= fuel)%nat ->
  exists res, HasCrossingRelation fuel a b relation st = Some res.
Proof.
  unfold index_contract, walk_turns. cbv zeta. rewrite !andb_true_iff.
  intros ((((((Ia & Ib) & Oa) & Ob) & E0) & E1) & N) Hfuel.
  unfold HasCrossingRelation.
  destruct (HasCrossingRelation_loop_returns relation a b _ _ Ia Ib Oa Ob E0 E1 N
              fuel 0 0 (LoopCrosser_new false) (LoopCrosser_new true) st
              ltac:(lia) ltac:(lia) ltac:(lia)) as ([r st'] & ->).
  eexists. reflexivity.
Qed.

Lemma HasCrossingRelation_fuel_le {St : Type} (relation : LoopRelation St)
    (a b : S2Loop) (fuel fuel' : nat) (st : St) res :
  (fuel <= fuel')%nat ->
  HasCrossingRelation fuel a b relation st = Some res ->
  HasCrossingRelation fuel' a b relation st = Some res.
Proof.
  intros Hle. unfold HasCrossingRelation.
  destruct (HasCrossingRelation_loop fuel a b relation _ _ _ _ st)
    as [[r st'] | ] eqn:E; [ | discriminate].
  now rewrite (HasCrossingRelation_loop_fuel_le relation a b fuel fuel' _ _ _ _ _ _
                 Hle E).
Qed.

(** C6: for non-empty loops A and B with B not both full and a hole,
    [CompareBoundary] returns -1 when the bounds do not intersect;
    otherwise +1 when A is full; otherwise -1 when B is full.  Otherwise
    it walks the two indexes with a relation that starts with
    [reverse_b_] = [B.is_hole()], no flag raised and both crossing targets
    -1.  On indexes whose cell ids are as [index_contract] requires the
    walk returns within [walk_turns] turns, and further fuel does not
    change the result.  The walk shows the relation wedges at vertices
    that A and B share, and nothing else.  It reports a crossing, and the
    result is 0, only if A contains the semiwedge of B at one of these
    vertices and excludes it at another, or if two edges cross properly.
    Without a crossing, a shared vertex was seen exactly when a wedge was
    shown; then the semiwedge test gave the same verdict at every shared
    vertex, [contains_edge_] is that verdict, and the result is +1 or -1
    as it is set or not; if none was seen, the result is +1 exactly when
    A, its index built, contains vertex 0 of B, and -1 otherwise. *)
Theorem CompareBoundary_spec (fuel : nat) (a b : S2Loop) :
  is_empty a = false -> is_empty b = false ->
  is_full b && is_hole b = false ->
  let verdict := fun w : Wedge =>
    let '(a0, ab1, a2, b0, b2) := w in
    WedgeContainsSemiwedge a0 ab1 a2 b2 (is_hole b) in
  let a' := set_index a (S2ShapeIndex_Iterator (index_ a)) in
  let b' := set_index b (S2ShapeIndex_Iterator (index_ b)) in
  (S2LatLngRect_Intersects (bound_ a) (bound_ b) = false ->
     CompareBoundary fuel a b = Some (-1))
  /\ (S2LatLngRect_Intersects (bound_ a) (bound_ b) = true ->
      (is_full a = true -> CompareBoundary fuel a b = Some 1)
      /\ (is_full a = false -> is_full b = true ->
          CompareBoundary fuel a b = Some (-1))
      /\ (is_full a = false -> is_full b = false ->
          (index_contract a b = true -> (walk_turns a b <= fuel)%nat ->
           exists z, CompareBoundary fuel a b = Some z)
          /\ (forall z, CompareBoundary fuel a b = Some z ->
              (forall fuel', (fuel <= fuel')%nat ->
                             CompareBoundary fuel' a b = Some z)
              /\ exists (ws : list Wedge) (crossing : bool)
                        (relation : CompareBoundaryState),
                  HasCrossingRelation fuel a b CompareBoundaryRelation
                                      (CompareBoundaryRelation_new (is_hole b))
                  = Some (crossing, relation, a', b')
                  /\ Forall (shared_wedge a b) ws
                  /\ (found_shared_vertex_ relation = true <-> ws <> [])
                  /\ (crossing = true ->
                      z = 0
                      /\ ((exists w1 w2, In w1 ws /\ In w2 ws
                                         /\ verdict w1 = true
                                         /\ verdict w2 = false)
                          \/ edges_cross a b \/ edges_cross b a))
                  /\ (crossing = false ->
                      (forall w, In w ws -> verdict w = contains_edge_ relation)
                      /\ (ws <> [] ->
                          z = if contains_edge_ relation then 1 else -1)
                      /\ (ws = [] ->
                          z = if answer (Contains a' (vertex b 0))
                              then 1 else -1)))))
  /\ a_crossing_target CompareBoundaryRelation = -1
  /\ b_crossing_target CompareBoundaryRelation = -1
  /\ CompareBoundaryRelation_new (is_hole b)
     = mkCompareBoundaryState (is_hole b) false false false.
Proof.
  intros _ _ _ verdict a' b'. unfold CompareBoundary.
  split; [ | split; [ | repeat split]].
  - intros ->. reflexivity.
  - intros ->. cbn [negb].
    split; [ | split].
    + intros ->. reflexivity.
    + intros -> ->. reflexivity.
    + intros -> ->. split.
      * intros Hc Hfuel.
        destruct (index_contract_returns CompareBoundaryRelation a b fuel
                    (CompareBoundaryRelation_new (is_hole b)) Hc Hfuel)
          as ([[[crossing relation] a1] b1] & ->).
        destruct crossing; [eexists; reflexivity | ].
        destruct (found_shared_vertex_ relation); eexists; reflexivity.
      * intros z.
        destruct (HasCrossingRelation fuel a b CompareBoundaryRelation
                    (CompareBoundaryRelation_new (is_hole b)))
          as [[[[crossing relation] a1] b1] | ] eqn:Ew; [ | discriminate].
        intros Hz. split.
        { intros fuel' Hle.
          now rewrite (HasCrossingRelation_fuel_le _ _ _ _ fuel' _ _ Hle Ew). }
        destruct (HasCrossingRelation_walked _ _ _ _ _ _ _ _ _ Ew)
          as ((ws & rw & Hshared & Hcalls & Hrw & Hr) & -> & ->).
        destruct (CompareBoundaryRelation_walk (is_hole b) ws rw relation Hcalls)
          as (Hfound & Htrue & Hfalse).
        fold verdict in Htrue, Hfalse.
        exists ws, crossing, relation.
        split; [reflexivity | split; [exact Hshared | split; [exact Hfound | ]]].
        split.
        -- intros ->. injection Hz as <-. split; [reflexivity | ].
           destruct (Hr eq_refl) as [-> | [Hx | [Hx | Hx]]]; auto.
           now apply CompareBoundaryRelation_no_centers in Hx.
        -- intros ->.
           assert (Erw : rw = false)
             by (destruct rw; [now specialize (Hrw eq_refl) | reflexivity]).
           split; [exact (Hfalse Erw) | ].
           destruct (found_shared_vertex_ relation) eqn:Ef.
           ++ injection Hz as <-. split; [reflexivity | ].
              intros E. exfalso. exact (proj1 Hfound eq_refl E).
           ++ injection Hz as <-. split; [ | reflexivity].
              intros Hne. exfalso. apply Hfound in Hne. discriminate.
Qed.

End BoundaryComparison.

(** The octant triangle against itself: both indexes are the one cell of
    face 0, the walk shows the relation the wedges at the three vertices,
    A contains the semiwedge at each, and the result is +1. *)
Lemma CompareBoundary_spec_witness :
  @index_contract sample_cells sample_index octant_built octant_built = true
  /\ exists ws : list Wedge,
       ws <> [] /\ Forall (shared_wedge octant_built octant_built) ws
       /\ @CompareBoundary sample_collab sample_rel sample_cells sample_index 2
            octant_built octant_built = Some 1.
Proof.
  split; [vm_compute; reflexivity | ].
  destruct (@CompareBoundary_spec sample_collab sample_rel sample_cells
              sample_index 2 octant_built octant_built eq_refl eq_refl eq_refl)
    as (_ & H & _).
  destruct H as (_ & _ & H); [vm_compute; reflexivity | ].
  destruct (H eq_refl eq_refl) as (Hret & Hspec). clear H.
  destruct Hret as (z & Ez); [vm_compute; reflexivity | vm_compute; lia | ].
  destruct (Hspec z Ez) as (_ & ws & crossing & relation & Hw & Hs & Hf & _ & _).
  assert (Ez1 : z = 1).
  { vm_compute in Ez. now injection Ez. }
  assert (Ef : found_shared_vertex_ relation = true).
  { vm_compute in Hw. now injection Hw as _ <-. }
  exists ws. split; [now apply Hf | split; [exact Hs | ]].
  rewrite Ez. now rewrite Ez1.
Defined.
